(** * Incident Reporting System: the persistence-and-query core of [main.c]

    A shallow embedding of the store ([readIncidentsFromFile],
    [writeIncidentToFile], [getNextIncidentId], [addIncident]), of the query
    functions ([strContains], [viewIncidentsByArea], [viewIncidentsByType])
    and of the time check ([isValidTimeFormat]), followed by the properties
    the specification states about them.

    Conventions of the model.
    - A C string is the [list ascii] of its characters before the
      terminating NUL.  A file is the [list ascii] of its bytes (it may
      contain NUL bytes; [c_str] cuts a buffer read from it at the first).
    - [int] is [Z] reduced to 32 bits by [wrap_int].  C leaves signed
      overflow undefined; like the usual two's-complement targets the model
      wraps, and every theorem that depends on it says so.
    - ["%d"] of [sscanf] converts as glibc does on a 64-bit target: the
      digits as by [strtol], which stops at [LONG_MAX] or [LONG_MIN], and
      the low 32 bits of that [long] are stored in the [int].
    - The arrays inside [struct Incident] hold 49, 49 and 19 characters and
      their NUL.  [sscanf] is called without field widths, so a string it
      converts is stored whole: when it does not fit its array the store
      runs past the end of the array, C defines nothing of what the program
      does from there, and the call has no result in the model ([None]). *)

From Stdlib Require Import ZArith Lia Bool Ascii String.
From stdpp Require Import base list.

#[local] Instance ascii_eq_dec : EqDecision ascii := Ascii.ascii_dec.

(* ===================================================================== *)
(** ** Constants of [main.c]                                              *)
(* ===================================================================== *)

Definition MAX_INCIDENTS : nat := 100.
Definition MAX_STRING_LENGTH : nat := 100.
Definition MAX_AREA_LENGTH : nat := 50.
Definition MAX_TYPE_LENGTH : nat := 50.
Definition MAX_TIME_LENGTH : nat := 20.

Arguments MAX_INCIDENTS : simpl never.
Arguments MAX_STRING_LENGTH : simpl never.

Definition INT_MIN : Z := (- 2147483648)%Z.
Definition INT_MAX : Z := 2147483647%Z.

(** Reduction of a mathematical integer to a 32-bit two's-complement [int]. *)
Definition wrap_int (z : Z) : Z := ((z + 2147483648) mod 4294967296 - 2147483648)%Z.

Definition in_int (z : Z) : Prop := (INT_MIN <= z <= INT_MAX)%Z.

Definition LONG_MIN : Z := (- 9223372036854775808)%Z.
Definition LONG_MAX : Z := 9223372036854775807%Z.

(** What [strtol] makes of a numeral: its value, or the nearest end of the
    range of [long] when the value is outside. *)
Definition clamp_long (z : Z) : Z := Z.max LONG_MIN (Z.min LONG_MAX z).

(* ===================================================================== *)
(** ** C strings and <ctype.h>                                            *)
(* ===================================================================== *)

Definition cstring : Type := list ascii.

(** A string literal of the source as a C string. *)
Definition lit (s : string) : cstring := list_ascii_of_string s.

Definition NUL : ascii := "000"%char.
Definition NL : ascii := "010"%char.
Definition BAR : ascii := "|"%char.
Definition COLON : ascii := ":"%char.
Definition MINUS : ascii := "-"%char.
Definition PLUS : ascii := "+"%char.

Arguments NUL : simpl never.
Arguments NL : simpl never.
Arguments BAR : simpl never.
Arguments COLON : simpl never.
Arguments MINUS : simpl never.
Arguments PLUS : simpl never.

Definition code (c : ascii) : nat := nat_of_ascii c.

(** [isspace] in the C locale: space, and the five controls 9..13. *)
Definition isspace (c : ascii) : bool :=
  (code c =? 32) || ((9 <=? code c) && (code c <=? 13)).

Definition isdigit (c : ascii) : bool := (48 <=? code c) && (code c <=? 57).

Definition digit_value (c : ascii) : Z := (Z.of_nat (code c) - 48)%Z.

(** [tolower] in the C locale: only 'A'..'Z' move. *)
Definition tolower (c : ascii) : ascii :=
  if (65 <=? code c) && (code c <=? 90) then ascii_of_nat (code c + 32) else c.

(** What the string functions see of a buffer: the bytes before the first NUL. *)
Fixpoint c_str (buf : list ascii) : cstring :=
  match buf with
  | [] => []
  | c :: buf' => if Ascii.eqb c NUL then [] else c :: c_str buf'
  end.

(** [is_prefix p s]: the bytes of [p] are the first bytes of [s]. *)
Fixpoint is_prefix (p s : cstring) : bool :=
  match p, s with
  | [], _ => true
  | _ :: _, [] => false
  | a :: p', b :: s' => Ascii.eqb a b && is_prefix p' s'
  end.

(** [strstr haystack needle]: offset of the first occurrence, [None] for NULL. *)
Fixpoint strstr (haystack needle : cstring) : option nat :=
  if is_prefix needle haystack then Some 0
  else match haystack with
       | [] => None
       | _ :: h' => option_map S (strstr h' needle)
       end.

(* ===================================================================== *)
(** ** [sscanf], for the conversions the program uses                     *)
(* ===================================================================== *)

(** Directives of a format: [%d], [%[^c]], [%c] and an ordinary character. *)
Inductive directive : Type :=
  | Dint
  | Dscanset_not (stop : ascii)
  | Dchar
  | Dlit (c : ascii).

Inductive value : Type :=
  | Vint (z : Z)
  | Vstr (s : cstring)
  | Vchar (c : ascii).

Inductive outcome : Type :=
  | Assigned (v : value) (rest : cstring)
  | Skipped (rest : cstring)
  | MatchingFailure
  | InputFailure.

Definition EOF : Z := (-1)%Z.

Fixpoint skip_space (s : cstring) : cstring :=
  match s with
  | c :: s' => if isspace c then skip_space s' else s
  | [] => []
  end.

(** Decimal digits are accumulated left to right. *)
Fixpoint scan_digits (acc : Z) (s : cstring) : Z * cstring :=
  match s with
  | c :: s' => if isdigit c then scan_digits (10 * acc + digit_value c)%Z s' else (acc, s)
  | [] => (acc, [])
  end.

(** [%d]: white space is skipped, then an optional sign and at least one
    digit.  The end of the string before any character is an input failure.
    C leaves a numeral outside the range of [int] undefined; the library
    converts the digits as [strtol] does and stores the low 32 bits of the
    [long] it gets, so a numeral outside the range of [long] gives -1 or 0. *)
Definition scan_int (s : cstring) : outcome :=
  match skip_space s with
  | [] => InputFailure
  | c :: s1 =>
      let '(negative, s2) :=
        if Ascii.eqb c MINUS then (true, s1)
        else if Ascii.eqb c PLUS then (false, s1)
        else (false, c :: s1) in
      match s2 with
      | d :: _ =>
          if isdigit d then
            let '(n, rest) := scan_digits 0 s2 in
            Assigned (Vint (wrap_int (clamp_long (if negative then - n else n)%Z))) rest
          else MatchingFailure
      | [] => MatchingFailure
      end
  end.

(** The longest run of characters different from [stop]. *)
Fixpoint span_not (stop : ascii) (s : cstring) : cstring * cstring :=
  match s with
  | c :: s' =>
      if Ascii.eqb c stop then ([], s)
      else let '(run, rest) := span_not stop s' in (c :: run, rest)
  | [] => ([], [])
  end.

(** [%[^c]]: no white space is skipped and the run must not be empty. *)
Definition scan_set_not (stop : ascii) (s : cstring) : outcome :=
  match s with
  | [] => InputFailure
  | _ :: _ =>
      match span_not stop s with
      | ([], _) => MatchingFailure
      | (run, rest) => Assigned (Vstr run) rest
      end
  end.

Definition conv (d : directive) (s : cstring) : outcome :=
  match d with
  | Dint => scan_int s
  | Dscanset_not stop => scan_set_not stop s
  | Dchar => match s with
             | c :: rest => Assigned (Vchar c) rest
             | [] => InputFailure
             end
  | Dlit c => match s with
              | c' :: rest => if Ascii.eqb c' c then Skipped rest else MatchingFailure
              | [] => InputFailure
              end
  end.

(** The values assigned so far are [vs]; the result is the return value of
    [sscanf] with the values stored through its pointer arguments, in order. *)
Fixpoint scan (fmt : list directive) (s : cstring) (vs : list value) : Z * list value :=
  match fmt with
  | [] => (Z.of_nat (length vs), vs)
  | d :: fmt' =>
      match conv d s with
      | Assigned v rest => scan fmt' rest (vs ++ [v])
      | Skipped rest => scan fmt' rest vs
      | MatchingFailure => (Z.of_nat (length vs), vs)
      | InputFailure => (match vs with [] => EOF | _ => Z.of_nat (length vs) end, vs)
      end
  end.

Definition sscanf (s : cstring) (fmt : list directive) : Z * list value := scan fmt s [].

(** What the [k]-th pointer argument receives: nothing unless the [k]-th
    conversion took place, so the variable keeps its previous value [old]. *)
Definition int_arg (vs : list value) (k : nat) (old : Z) : Z :=
  match vs !! k with Some (Vint z) => z | _ => old end.

Definition str_arg (vs : list value) (k : nat) (old : cstring) : cstring :=
  match vs !! k with Some (Vstr s) => s | _ => old end.

(** ["%d:%d%c"] *)
Definition time_format : list directive := [Dint; Dlit COLON; Dint; Dchar].

(** ["%d|%[^|]|%[^|]|%[^\n]"] *)
Definition line_format : list directive :=
  [Dint; Dlit BAR; Dscanset_not BAR; Dlit BAR; Dscanset_not BAR; Dlit BAR; Dscanset_not NL].

(* ===================================================================== *)
(** ** [fprintf] with ["%d"]                                              *)
(* ===================================================================== *)

Definition digit_char (d : Z) : ascii := ascii_of_nat (48 + Z.to_nat d).

(** The decimal digits of [n >= 0], most significant first, in front of
    [acc]; [fuel] bounds their number. *)
Fixpoint print_digits (fuel : nat) (n : Z) (acc : cstring) : cstring :=
  match fuel with
  | 0 => acc
  | S fuel' =>
      let acc' := digit_char (n mod 10) :: acc in
      if (n <? 10)%Z then acc' else print_digits fuel' (n / 10) acc'
  end.

(** ["%d"] of an [int]: at most ten digits after the sign. *)
Definition print_int (z : Z) : cstring :=
  if (z <? 0)%Z then MINUS :: print_digits 10 (- z) [] else print_digits 10 z [].

(* ===================================================================== *)
(** ** The record, the messages, the store file                           *)
(* ===================================================================== *)

Record Incident : Type := mkIncident {
  area : cstring;
  type : cstring;
  time : cstring;
  id : Z
}.

(** A zero-initialised [struct Incident], as the global array holds at start. *)
Definition zero_incident : Incident := mkIncident [] [] [] 0.

(** What the program prints, as far as the properties below need it. *)
Inductive message : Type :=
  | MaxReached                 (* "Error: Maximum number of incidents reached." *)
  | CouldNotOpen               (* "Error: Could not open file for writing." *)
  | Reported (new_id : Z)      (* "Incident reported successfully with ID: %d" *)
  | NoneReported               (* "No incidents have been reported yet." *)
  | TableHead                  (* column heads of the table of all incidents *)
  | Heading (needle : cstring) (* title and column heads of a filtered table *)
  | Row (inc : Incident)       (* one line of a table *)
  | NoneInArea                 (* "No incidents found in this area." *)
  | NoneOfType.                (* "No incidents found of this type." *)

(** The file [DATA_FILE] as [fopen] sees it: [contents] is [None] when
    opening it for reading gives NULL, and [append_ok] tells whether opening
    it for appending succeeds. *)
Record Disk : Type := mkDisk {
  contents : option (list ascii);
  append_ok : bool
}.

(** The two globals and the file.  [incidents] is the array of
    [MAX_INCIDENTS] slots; both writes into it, in [readIncidentsFromFile]
    and in [addIncident], stand behind the test [count < MAX_INCIDENTS], so
    the index is inside the array (on a shorter list the update of
    [addIncident] would do nothing, and [readIncidentsFromFile] would have
    no slot to store into). *)
Record State : Type := mkState {
  incidents : list Incident;
  incidentCount : nat;
  disk : Disk
}.

(** The records in use: [incidents[0 .. incidentCount-1]]. *)
Definition collection (st : State) : list Incident :=
  take (incidentCount st) (incidents st).

(* ===================================================================== *)
(** ** [fgets]                                                            *)
(* ===================================================================== *)

(** At most [room] characters are read and a newline ends the reading; the
    result is the buffer and what is left of the stream. *)
Fixpoint read_chars (room : nat) (stream : list ascii) : list ascii * list ascii :=
  match room, stream with
  | S room', c :: stream' =>
      if Ascii.eqb c NL then ([c], stream')
      else let '(buf, rest) := read_chars room' stream' in (c :: buf, rest)
  | _, _ => ([], stream)
  end.

(** [fgets(buf, size, stream)]: NULL at end of file. *)
Definition fgets (size : nat) (stream : list ascii) : option (list ascii * list ascii) :=
  match stream with
  | [] => None
  | _ :: _ => Some (read_chars (size - 1) stream)
  end.

(** [len = strlen(line); if (len > 0 && line[len-1] == '\n') line[len-1] = '\0';] *)
Definition strip_newline (line : cstring) : cstring :=
  match last line with
  | Some c => if Ascii.eqb c NL then take (length line - 1) line else line
  | None => line
  end.

(* ===================================================================== *)
(** ** [readIncidentsFromFile]                                            *)
(* ===================================================================== *)

(** Whether the string the [k]-th conversion stores, if it stores one, has
    room with its NUL in an array of [size] characters. *)
Definition fits (vs : list value) (k size : nat) : bool :=
  match vs !! k with
  | Some (Vstr s) => length s <? size
  | _ => true
  end.

(** The strings go to [area], [type] and [time] of the slot. *)
Definition within_arrays (vs : list value) : bool :=
  fits vs 1 MAX_AREA_LENGTH && fits vs 2 MAX_TYPE_LENGTH && fits vs 3 MAX_TIME_LENGTH.

(** The four stores of the [sscanf] call into [incidents[count]].  The
    format gives no width to ["%["], so each string is stored whole through
    the pointer to its array: [None] is a store that runs past the end of
    the array, after which C defines nothing (on the usual targets the
    characters land in the members and the slots behind it). *)
Definition store_conversions (inc : Incident) (vs : list value) : option Incident :=
  if within_arrays vs then
    Some {| id := int_arg vs 0 (id inc);
            area := str_arg vs 1 (area inc);
            type := str_arg vs 2 (type inc);
            time := str_arg vs 3 (time inc) |}
  else None.

(** The [while] loop.  Every turn that does not leave the loop takes at
    least one character off the stream, so [fuel] above its length is never
    used up ([read_loop_fuel]): with such fuel [None] is a store outside an
    array, in the turn in which [sscanf] makes it. *)
Fixpoint read_loop (fuel : nat) (stream : list ascii) (incidents : list Incident)
    (count : nat) : option (nat * list Incident) :=
  match fuel with
  | 0 => None
  | S fuel' =>
      if negb (count <? MAX_INCIDENTS) then Some (count, incidents)
      else match fgets (MAX_STRING_LENGTH * 3) stream with
           | None => Some (count, incidents)
           | Some (buf, stream') =>
               let line := strip_newline (c_str buf) in
               let '(ret, vs) := sscanf line line_format in
               match incidents !! count with
               | None => None
               | Some inc =>
                   match store_conversions inc vs with
                   | None => None
                   | Some inc' =>
                       read_loop fuel' stream' (<[count := inc']> incidents)
                                 (if (ret =? 4)%Z then S count else count)
                   end
               end
           end
  end.

(** Returns the count and the array as the call leaves it; [None] when
    [sscanf] stored past the end of an array. *)
Definition readIncidentsFromFile (d : Disk) (incidents : list Incident)
    : option (nat * list Incident) :=
  match contents d with
  | None => Some (0, incidents)
  | Some file => read_loop (S (length file)) file incidents 0
  end.

(* ===================================================================== *)
(** ** [writeIncidentToFile]                                              *)
(* ===================================================================== *)

(** ["%d|%s|%s|%s\n"] *)
Definition format_line (inc : Incident) : list ascii :=
  print_int (id inc) ++ BAR :: area inc ++ BAR :: type inc ++ BAR :: time inc ++ [NL].

Definition writeIncidentToFile (inc : Incident) (d : Disk) : Disk * list message :=
  if append_ok d then
    ({| contents := Some (default [] (contents d) ++ format_line inc);
        append_ok := append_ok d |}, [])
  else (d, [CouldNotOpen]).

(* ===================================================================== *)
(** ** [getNextIncidentId] and [addIncident]                              *)
(* ===================================================================== *)

Definition getNextIncidentId (st : State) : Z :=
  let maxId :=
    fold_left (fun maxId inc => if (id inc >? maxId)%Z then id inc else maxId)
              (take (incidentCount st) (incidents st)) 0%Z in
  wrap_int (maxId + 1).

(** The three prompts ([validateStringInput] twice, [validateTimeInput])
    belong to the terminal; [addIncident] is given the strings they return. *)
Definition addIncident (new_area new_type new_time : cstring) (st : State)
    : State * list message :=
  if negb (incidentCount st <? MAX_INCIDENTS) then (st, [MaxReached])
  else
    let newIncident :=
      {| area := new_area; type := new_type; time := new_time;
         id := getNextIncidentId st |} in
    let incidents' := <[incidentCount st := newIncident]> (incidents st) in
    let '(disk', out) := writeIncidentToFile newIncident (disk st) in
    ({| incidents := incidents'; incidentCount := S (incidentCount st); disk := disk' |},
     out ++ [Reported (id newIncident)]).

(** A session of reports, one call of [addIncident] per entry. *)
Fixpoint addIncidents (inputs : list (cstring * cstring * cstring)) (st : State)
    : State * list message :=
  match inputs with
  | [] => (st, [])
  | (a, t, tm) :: inputs' =>
      let '(st1, out1) := addIncident a t tm st in
      let '(st2, out2) := addIncidents inputs' st1 in
      (st2, out1 ++ out2)
  end.

(** The ids of the "reported successfully" lines of an output. *)
Fixpoint reported_ids (out : list message) : list Z :=
  match out with
  | Reported i :: out' => i :: reported_ids out'
  | _ :: out' => reported_ids out'
  | [] => []
  end.

(* ===================================================================== *)
(** ** [strContains] and the two filtered views                           *)
(* ===================================================================== *)

(** The copy loop: [i < strlen(s) && i < MAX_STRING_LENGTH - 1]. *)
Definition lower_copy (s : cstring) : cstring :=
  map tolower (take (MAX_STRING_LENGTH - 1) s).

Definition strContains (str substr : cstring) : bool :=
  match strstr (lower_copy str) (lower_copy substr) with
  | Some _ => true
  | None => false
  end.

Definition viewAllIncidents (st : State) : list message :=
  if incidentCount st =? 0 then [NoneReported]
  else TableHead :: map Row (collection st).

(** The [for] loop of a filtered view over the records in use: a row for
    each match, and the [found] flag. *)
Fixpoint print_matches (matches : Incident -> bool) (l : list Incident) (found : bool)
    : list message * bool :=
  match l with
  | [] => ([], found)
  | inc :: l' =>
      if matches inc then
        let '(out, found') := print_matches matches l' true in (Row inc :: out, found')
      else print_matches matches l' found
  end.

(** The needle is what [validateStringInput] returned. *)
Definition viewIncidentsByArea (searchArea : cstring) (st : State) : list message :=
  if incidentCount st =? 0 then [NoneReported]
  else
    let '(out, found) :=
      print_matches (fun inc => strContains (area inc) searchArea) (collection st) false in
    Heading searchArea :: out ++ (if found then [] else [NoneInArea]).

Definition viewIncidentsByType (searchType : cstring) (st : State) : list message :=
  if incidentCount st =? 0 then [NoneReported]
  else
    let '(out, found) :=
      print_matches (fun inc => strContains (type inc) searchType) (collection st) false in
    Heading searchType :: out ++ (if found then [] else [NoneOfType]).

(** The incidents an output lists, in the order of their rows. *)
Fixpoint rows (out : list message) : list Incident :=
  match out with
  | Row inc :: out' => inc :: rows out'
  | _ :: out' => rows out'
  | [] => []
  end.

(* ===================================================================== *)
(** ** [isValidTimeFormat]                                                *)
(* ===================================================================== *)

Definition isValidTimeFormat (time : cstring) : bool :=
  let '(ret, vs) := sscanf time time_format in
  let hour := int_arg vs 0 0 in
  let minute := int_arg vs 1 0 in
  if negb (ret =? 2)%Z then false
  else if (hour <? 0)%Z || (hour >? 23)%Z || (minute <? 0)%Z || (minute >? 59)%Z then false
  else true.

(* ===================================================================== *)
(** ** The prompts: [validateStringInput] and [validateTimeInput]         *)
(* ===================================================================== *)

(** One turn of the loop of [validateStringInput] on the standard input:
    the string accepted, if the turn sets [valid], and the input left. *)
Definition string_turn (maxLength : nat) (stdin : list ascii) : option cstring * list ascii :=
  match fgets maxLength stdin with
  | None => (None, stdin)
  | Some (buf, rest) =>
      let input := strip_newline (c_str buf) in
      if length input =? 0 then (None, rest)
      else if maxLength - 1 <=? length input then (None, rest)
      else (Some input, rest)
  end.

(** The loop asks again until a turn accepts; [None] is the loop still
    asking when [fuel] turns have gone by. *)
Fixpoint validateStringInput (fuel maxLength : nat) (stdin : list ascii)
    : option (cstring * list ascii) :=
  match fuel with
  | 0 => None
  | S fuel' =>
      match string_turn maxLength stdin with
      | (Some input, rest) => Some (input, rest)
      | (None, rest) => validateStringInput fuel' maxLength rest
      end
  end.

Definition time_turn (maxLength : nat) (stdin : list ascii) : option cstring * list ascii :=
  match fgets maxLength stdin with
  | None => (None, stdin)
  | Some (buf, rest) =>
      let input := strip_newline (c_str buf) in
      if length input =? 0 then (None, rest)
      else if negb (isValidTimeFormat input) then (None, rest)
      else (Some input, rest)
  end.

Fixpoint validateTimeInput (fuel maxLength : nat) (stdin : list ascii)
    : option (cstring * list ascii) :=
  match fuel with
  | 0 => None
  | S fuel' =>
      match time_turn maxLength stdin with
      | (Some input, rest) => Some (input, rest)
      | (None, rest) => validateTimeInput fuel' maxLength rest
      end
  end.

(* ===================================================================== *)
(** ** Vocabulary of the properties                                       *)
(* ===================================================================== *)

(** The loop of [readIncidentsFromFile] on a stream, with fuel to spare. *)
Definition load (stream : list ascii) (incidents : list Incident) (count : nat)
    : option (nat * list Incident) :=
  read_loop (S (length stream)) stream incidents count.

(** A string held in a [char] array: no NUL inside. *)
Definition is_cstring (s : cstring) : Prop := NUL ∉ s.

(** A field as the round trip is specified: not empty, within [bound]
    characters, free of the field delimiter.  [one_line] is freedom from the
    record delimiter. *)
Definition bounded_field (bound : nat) (s : cstring) : Prop :=
  s <> [] /\ length s <= bound /\ BAR ∉ s.

Definition one_line (s : cstring) : Prop := NL ∉ s.

Record storable (x : Incident) : Prop := mkStorable {
  storable_area : bounded_field (MAX_AREA_LENGTH - 1) (area x);
  storable_type : bounded_field (MAX_TYPE_LENGTH - 1) (type x);
  storable_time : bounded_field (MAX_TIME_LENGTH - 1) (time x);
  storable_id : in_int (id x);
  storable_cstrings : is_cstring (area x) /\ is_cstring (type x) /\ is_cstring (time x)
}.

Definition on_one_line (x : Incident) : Prop :=
  one_line (area x) /\ one_line (type x) /\ one_line (time x).

(** A store that is absent, empty, or whose last line is complete. *)
Definition terminated (file : list ascii) : Prop :=
  file = [] \/ last file = Some NL.

Definition store_terminated (d : Disk) : Prop :=
  match contents d with
  | None => True
  | Some file => terminated file
  end.

(** A text file made of the given lines. *)
Definition file_of_lines (lines : list (list ascii)) : list ascii :=
  concat (map (fun l => l ++ [NL]) lines).

(** A line that [fgets] reads in one piece: no newline inside and, with its
    newline, within the [MAX_STRING_LENGTH * 3 - 1] characters of the buffer. *)
Definition whole_line (l : list ascii) : Prop :=
  (NL ∉ l) /\ length l + 1 <= MAX_STRING_LENGTH * 3 - 1.

(** The test of the loop on one line, whether what the scan of the line
    stores has room in the arrays, and the slot a line leaves. *)
Definition parses (l : list ascii) : bool :=
  ((sscanf (c_str l) line_format).1 =? 4)%Z.

Definition line_fits (l : list ascii) : bool :=
  within_arrays (sscanf (c_str l) line_format).2.

Definition record_of_line (l : list ascii) : option Incident :=
  store_conversions zero_incident (sscanf (c_str l) line_format).2.

(** The pieces of a stream as [fgets] hands them to the loop, one a turn:
    up to a newline or to the [MAX_STRING_LENGTH * 3 - 1] characters of the
    buffer. *)
Fixpoint pieces (fuel : nat) (stream : list ascii) : list (list ascii) :=
  match fuel with
  | 0 => []
  | S fuel' =>
      match fgets (MAX_STRING_LENGTH * 3) stream with
      | None => []
      | Some (buf, rest) => buf :: pieces fuel' rest
      end
  end.

(** What the scan of a piece stores has room in the arrays; a store of
    which this holds for every piece. *)
Definition piece_fits (buf : list ascii) : bool :=
  within_arrays (sscanf (strip_newline (c_str buf)) line_format).2.

Definition store_fits (d : Disk) : Prop :=
  match contents d with
  | None => True
  | Some file => Forall (fun buf => piece_fits buf = true) (pieces (S (length file)) file)
  end.

(** The fields of a line as the specification counts them: the pieces of
    the line between its [|]. *)
Fixpoint bar_fields (s : cstring) : list cstring :=
  match s with
  | [] => [[]]
  | c :: s' =>
      if Ascii.eqb c BAR then [] :: bar_fields s'
      else match bar_fields s' with
           | f :: fs => (c :: f) :: fs
           | [] => [[c]]
           end
  end.

(** The fields of a record have room in the arrays of [struct Incident]. *)
Definition in_arrays (x : Incident) : Prop :=
  length (area x) < MAX_AREA_LENGTH /\
  length (type x) < MAX_TYPE_LENGTH /\
  length (time x) < MAX_TIME_LENGTH.

(** [needle] occurs in [haystack]. *)
Definition substring (needle haystack : cstring) : Prop :=
  exists before after, haystack = before ++ needle ++ after.

(** ASCII case folding of a whole string. *)
Definition lowercase (s : cstring) : cstring := map tolower s.

(** [m] is the largest id of the records in [l]. *)
Definition max_id (l : list Incident) (m : Z) : Prop :=
  (exists inc, inc ∈ l /\ id inc = m) /\ forall inc, inc ∈ l -> (id inc <= m)%Z.

(** The two digits of [n < 100]. *)
Definition two_digits (n : nat) : cstring :=
  [digit_char (Z.of_nat (n / 10)); digit_char (Z.of_nat (n mod 10))].

Definition hh_mm (h m : nat) : cstring := two_digits h ++ COLON :: two_digits m.

(** The line of a record without its newline. *)
Definition line_body (x : Incident) : list ascii :=
  print_int (id x) ++ BAR :: area x ++ BAR :: type x ++ BAR :: time x.

(** A record whose line the loop scans back: an [int], an area and a type
    that are not empty and free of [|], a time that is not empty, and every
    field within its array and without newline or NUL.  Neither the sign of
    the id nor the text of the time matters. *)
Definition scannable (x : Incident) : Prop :=
  in_int (id x) /\
  area x <> [] /\ (BAR ∉ area x) /\
  type x <> [] /\ (BAR ∉ type x) /\
  time x <> [] /\
  in_arrays x /\ on_one_line x /\
  is_cstring (area x) /\ is_cstring (type x) /\ is_cstring (time x).

(** The global array before [main] runs. *)
Definition zero_array : list Incident := replicate MAX_INCIDENTS zero_incident.

(** The first statement of [main]:
    [incidentCount = readIncidentsFromFile(incidents)]. *)
Definition startup (d : Disk) : option State :=
  match readIncidentsFromFile d zero_array with
  | Some (n, arr) => Some (mkState arr n d)
  | None => None
  end.

(** Concrete stores and records used as examples. *)
Definition no_file : Disk := mkDisk None true.

Definition read_only_dir : Disk := mkDisk None false.

Definition file_with (text : list ascii) : Disk := mkDisk (Some text) true.

Definition pothole : Incident := mkIncident (lit "Main St") (lit "pothole") (lit "08:15") 1.

Definition two_line_area : Incident :=
  mkIncident (lit "Main" ++ NL :: lit "St") (lit "pothole") (lit "08:15") 1.

Definition good_and_bad_lines : list (list ascii) :=
  [lit "1|Main St|pothole|08:15"; lit "2|Oak Ave|streetlight"].

(** Three answers of which the type holds a [|], and the line the program
    writes for them as the first record of a new file. *)
Definition crack_answers : list ascii :=
  lit "Main St" ++ NL :: lit "pothole|and a crack in the asphalt" ++ NL :: lit "08:15" ++ [NL].

Definition crack_line : list ascii :=
  lit "1|Main St|pothole|and a crack in the asphalt|08:15" ++ [NL].

(** The program before its first report, on a given disk. *)
Definition empty_session (d : Disk) : State := mkState zero_array 0 d.

(** A session whose array is full. *)
Definition full_session : State := mkState zero_array MAX_INCIDENTS no_file.

Definition minus_five_line : list ascii := lit "-5|Main St|pothole|08:15" ++ [NL].

Definition int_max_line : list ascii := lit "2147483647|Main St|pothole|08:15" ++ [NL].

Definition oak_ave : Incident :=
  mkIncident (lit "Oak Ave") (lit "streetlight") (lit "21:40") 2.

(** Two reports in memory. *)
Definition two_reports : State :=
  mkState (<[1 := oak_ave]> (<[0 := pothole]> zero_array)) 2 no_file.

(** A fresh start: nothing in memory, whatever the array and the file hold. *)
Definition fresh (st : State) : Prop :=
  incidentCount st = 0 /\ length (incidents st) = MAX_INCIDENTS.

(* ===================================================================== *)
(** ** The report with its prompts, and more vocabulary                   *)
(* ===================================================================== *)

(** [addIncident] as the source has it: after the test of the capacity the
    three prompts read the standard input, then the record is built and
    stored.  The result is the new state, the output of the report and the
    input left; [None] is a prompt still asking after [fuel] turns. *)
Definition addIncident_io (fuel : nat) (stdin : list ascii) (st : State)
    : option (State * list message * list ascii) :=
  if negb (incidentCount st <? MAX_INCIDENTS) then Some (st, [MaxReached], stdin)
  else
    match validateStringInput fuel MAX_AREA_LENGTH stdin with
    | None => None
    | Some (new_area, stdin1) =>
        match validateStringInput fuel MAX_TYPE_LENGTH stdin1 with
        | None => None
        | Some (new_type, stdin2) =>
            match validateTimeInput fuel MAX_TIME_LENGTH stdin2 with
            | None => None
            | Some (new_time, stdin3) =>
                let '(st', out) := addIncident new_area new_type new_time st in
                Some (st', out, stdin3)
            end
        end
    end.

(** An answer typed on one line: no newline and no NUL in it. *)
Definition typed (s : cstring) : Prop := one_line s /\ is_cstring s.

(** The number a run of digits spells, as [scan_digits] adds it up. *)
Definition digits_value (ds : cstring) : Z :=
  fold_left (fun acc c => (10 * acc + digit_value c)%Z) ds 0%Z.

(** No digit comes first in [s]: a ["%d"] stops in front of it. *)
Definition no_digit_first (s : cstring) : Prop :=
  match s with
  | c :: _ => isdigit c = false
  | [] => True
  end.

(** [s] is what one ["%d"] takes and [z] the [int] it gives: white space,
    perhaps a sign, and one digit or more; the number they spell is cut to
    the range of [long] and then to the 32 bits of an [int]. *)
Definition numeral (s : cstring) (z : Z) : Prop :=
  exists spaces sign ds,
    s = spaces ++ sign ++ ds /\
    Forall (fun c => isspace c = true) spaces /\
    (sign = [] \/ sign = [MINUS] \/ sign = [PLUS]) /\
    ds <> [] /\ Forall (fun c => isdigit c = true) ds /\
    z = wrap_int (clamp_long (if decide (sign = [MINUS]) then - digits_value ds
                              else digits_value ds)%Z).

(** [s] is a line of four fields that spells the record [x]: a numeral for
    the id, an area and a type that are not empty and hold no [|], and a
    time that is not empty, with a [|] after each of the first three.  The
    time is the rest of the line, whatever it holds. *)
Definition line_of (s : cstring) (x : Incident) : Prop :=
  exists num,
    s = num ++ BAR :: area x ++ BAR :: type x ++ BAR :: time x /\
    numeral num (id x) /\
    area x <> [] /\ (BAR ∉ area x) /\
    type x <> [] /\ (BAR ∉ type x) /\
    time x <> [].

Definition four_fields (s : cstring) : Prop := exists x, line_of s x.

(** The memory mirrors the file: the file can be appended to, its last line
    is complete, and loading it into a zeroed array gives the count and the
    records in use. *)
Definition mirrored (st : State) : Prop :=
  append_ok (disk st) = true /\
  store_terminated (disk st) /\
  length (incidents st) = MAX_INCIDENTS /\
  exists arr,
    readIncidentsFromFile (disk st) zero_array = Some (incidentCount st, arr) /\
    take (incidentCount st) arr = collection st.

(** Three answers that a line of the file can carry: typed on one line,
    within the arrays, area and type not empty and free of [|], time not
    empty. *)
Definition answers_ok (answers : cstring * cstring * cstring) : Prop :=
  let '(a, t, tm) := answers in
  (typed a /\ a <> [] /\ length a <= MAX_AREA_LENGTH - 1 /\ BAR ∉ a) /\
  (typed t /\ t <> [] /\ length t <= MAX_TYPE_LENGTH - 1 /\ BAR ∉ t) /\
  (typed tm /\ tm <> [] /\ length tm <= MAX_TIME_LENGTH - 1).

(** The two filtered views as the source has them: with no record in use
    nothing is asked; otherwise the needle is read by [validateStringInput]
    with the size of the field.  [None] is the prompt still asking. *)
Definition viewIncidentsByArea_io (fuel : nat) (stdin : list ascii) (st : State)
    : option (list message * list ascii) :=
  if incidentCount st =? 0 then Some ([NoneReported], stdin)
  else
    match validateStringInput fuel MAX_AREA_LENGTH stdin with
    | None => None
    | Some (searchArea, rest) => Some (viewIncidentsByArea searchArea st, rest)
    end.

Definition viewIncidentsByType_io (fuel : nat) (stdin : list ascii) (st : State)
    : option (list message * list ascii) :=
  if incidentCount st =? 0 then Some ([NoneReported], stdin)
  else
    match validateStringInput fuel MAX_TYPE_LENGTH stdin with
    | None => None
    | Some (searchType, rest) => Some (viewIncidentsByType searchType st, rest)
    end.

(* ===================================================================== *)
(** ** Characters and decimal numerals                                    *)
(* ===================================================================== *)

Lemma digit_cases (d : Z) :
  (0 <= d < 10)%Z ->
  d = 0%Z \/ d = 1%Z \/ d = 2%Z \/ d = 3%Z \/ d = 4%Z \/
  d = 5%Z \/ d = 6%Z \/ d = 7%Z \/ d = 8%Z \/ d = 9%Z.
Proof. lia. Qed.

Ltac each_digit H :=
  apply digit_cases in H;
  repeat (destruct H as [H | H]; [subst; vm_compute; try tauto; try congruence |]);
  subst; vm_compute; try tauto; try congruence.

Lemma isdigit_digit_char d : (0 <= d < 10)%Z -> isdigit (digit_char d) = true.
Proof. intros H. each_digit H. Qed.

Lemma digit_value_digit_char d : (0 <= d < 10)%Z -> digit_value (digit_char d) = d.
Proof. intros H. each_digit H. Qed.

Lemma isdigit_plain c :
  isdigit c = true ->
  isspace c = false /\ c <> NUL /\ c <> NL /\ c <> BAR /\
  Ascii.eqb c MINUS = false /\ Ascii.eqb c PLUS = false.
Proof.
  unfold isdigit, isspace. intros H.
  assert (Hc : 48 <= code c <= 57).
  { apply andb_true_iff in H as [H1 H2].
    apply Nat.leb_le in H1. apply Nat.leb_le in H2. lia. }
  split.
  { apply orb_false_iff. split.
    - apply Nat.eqb_neq. lia.
    - apply andb_false_iff. right. apply Nat.leb_gt. lia. }
  assert (Hne : forall c', code c' < 48 \/ 57 < code c' -> c <> c').
  { intros c' Hc' ->. lia. }
  repeat split; try (apply Hne; vm_compute; lia);
    apply Ascii.eqb_neq; apply Hne; vm_compute; lia.
Qed.

Lemma scan_digits_stop acc (s : cstring) :
  match s with c :: _ => isdigit c = false | [] => True end ->
  scan_digits acc s = (acc, s).
Proof. destruct s as [|c s]; simpl; [done|]. by intros ->. Qed.

(** The digits [print_digits] puts in front of [acc], read back by
    [scan_digits], give the number again. *)
Lemma print_digits_spec fuel :
  forall n acc, (0 <= n < 10 ^ Z.of_nat fuel)%Z -> 0 < fuel ->
  exists d ds,
    print_digits fuel n acc = (d :: ds) ++ acc /\
    isdigit d = true /\
    Forall (fun c => isdigit c = true) ds /\
    length (d :: ds) <= fuel /\
    forall a rest,
      scan_digits a ((d :: ds) ++ rest)
      = scan_digits (a * 10 ^ Z.of_nat (length (d :: ds)) + n)%Z rest.
Proof.
  induction fuel as [|fuel IH]; intros n acc Hn Hfuel; [lia|].
  assert (Hmod : (0 <= n mod 10 < 10)%Z) by (apply Z.mod_pos_bound; lia).
  cbn [print_digits].
  destruct (n <? 10)%Z eqn:Hlt.
  - apply Z.ltb_lt in Hlt.
    exists (digit_char (n mod 10)), []. repeat split.
    + by apply isdigit_digit_char.
    + constructor.
    + simpl. lia.
    + intros a rest. cbn [app scan_digits length].
      rewrite isdigit_digit_char, digit_value_digit_char by done.
      rewrite Z.mod_small by lia. f_equal. lia.
  - apply Z.ltb_ge in Hlt.
    destruct fuel as [|fuel'].
    { change (10 ^ Z.of_nat 1)%Z with 10%Z in Hn. lia. }
    destruct (IH (n / 10)%Z (digit_char (n mod 10) :: acc)) as (d & ds & Heq & Hd & Hds & Hlen & Hscan).
    { split; [apply Z.div_pos; lia|].
      apply Z.div_lt_upper_bound; [lia|].
      rewrite Nat2Z.inj_succ, Z.pow_succ_r in Hn by lia. lia. }
    { lia. }
    exists d, (ds ++ [digit_char (n mod 10)]). repeat split.
    + rewrite Heq. simpl. by rewrite <- app_assoc.
    + done.
    + apply Forall_app. split; [done|]. constructor; [|constructor].
      by apply isdigit_digit_char.
    + simpl in *. rewrite length_app. simpl. lia.
    + intros a rest.
      change ((d :: ds ++ [digit_char (n mod 10)]) ++ rest)
        with ((d :: ds ++ [digit_char (n mod 10)]) ++ rest).
      replace ((d :: ds ++ [digit_char (n mod 10)]) ++ rest)
        with ((d :: ds) ++ digit_char (n mod 10) :: rest)
        by (simpl; rewrite <- app_assoc; reflexivity).
      rewrite Hscan. cbn [scan_digits].
      rewrite isdigit_digit_char, digit_value_digit_char by done.
      f_equal.
      replace (length (d :: ds ++ [digit_char (n mod 10)])) with (S (length (d :: ds)))
        by (simpl; rewrite length_app; simpl; lia).
      rewrite Nat2Z.inj_succ, Z.pow_succ_r by lia.
      pose proof (Z.div_mod n 10). lia.
Qed.

Lemma wrap_int_id z : in_int z -> wrap_int z = z.
Proof.
  unfold in_int, INT_MIN, INT_MAX, wrap_int. intros H.
  rewrite Z.mod_small; lia.
Qed.

Lemma wrap_int_in_int z : in_int (wrap_int z).
Proof.
  unfold in_int, INT_MIN, INT_MAX, wrap_int.
  pose proof (Z.mod_pos_bound (z + 2147483648) 4294967296). lia.
Qed.

Lemma clamp_long_id z : (LONG_MIN <= z <= LONG_MAX)%Z -> clamp_long z = z.
Proof. unfold clamp_long. lia. Qed.

(** An [int] goes through ["%d"] unchanged. *)
Lemma clamp_int z : in_int z -> wrap_int (clamp_long z) = z.
Proof.
  intros H. rewrite clamp_long_id; [by apply wrap_int_id|].
  unfold in_int, INT_MIN, INT_MAX, LONG_MIN, LONG_MAX in *. lia.
Qed.

(** The characters of a printed [int]: a sign or a digit first, then digits. *)
Lemma print_int_chars z c :
  in_int z -> c ∈ print_int z -> c = MINUS \/ isdigit c = true.
Proof.
  unfold in_int, INT_MIN, INT_MAX, print_int. intros Hz Hc.
  destruct (z <? 0)%Z eqn:Hneg.
  - apply Z.ltb_lt in Hneg.
    destruct (print_digits_spec 10 (- z) []) as (d & ds & Heq & Hd & Hds & _);
      [change (10 ^ Z.of_nat 10)%Z with 10000000000%Z; lia | lia |].
    rewrite Heq, app_nil_r in Hc.
    apply elem_of_cons in Hc as [->|Hc]; [by left|right].
    apply elem_of_cons in Hc as [->|Hc]; [done|].
    rewrite Forall_forall in Hds. by apply Hds.
  - apply Z.ltb_ge in Hneg.
    destruct (print_digits_spec 10 z []) as (d & ds & Heq & Hd & Hds & _);
      [change (10 ^ Z.of_nat 10)%Z with 10000000000%Z; lia | lia |].
    rewrite Heq, app_nil_r in Hc. right.
    apply elem_of_cons in Hc as [->|Hc]; [done|].
    rewrite Forall_forall in Hds. by apply Hds.
Qed.

Lemma print_int_length z : in_int z -> length (print_int z) <= 11.
Proof.
  unfold in_int, INT_MIN, INT_MAX, print_int. intros Hz.
  destruct (z <? 0)%Z eqn:Hneg.
  - apply Z.ltb_lt in Hneg.
    destruct (print_digits_spec 10 (- z) []) as (d & ds & Heq & _ & _ & Hlen & _);
      [change (10 ^ Z.of_nat 10)%Z with 10000000000%Z; lia | lia |].
    rewrite Heq, app_nil_r. simpl in *. lia.
  - apply Z.ltb_ge in Hneg.
    destruct (print_digits_spec 10 z []) as (d & ds & Heq & _ & _ & Hlen & _);
      [change (10 ^ Z.of_nat 10)%Z with 10000000000%Z; lia | lia |].
    rewrite Heq, app_nil_r. simpl in *. lia.
Qed.

(** ["%d"] printed and scanned: the [int] comes back and the scan stops at
    the first character after it, when that is no digit. *)
Lemma scan_int_print_int z (rest : cstring) :
  in_int z ->
  match rest with c :: _ => isdigit c = false | [] => True end ->
  scan_int (print_int z ++ rest) = Assigned (Vint z) rest.
Proof.
  intros Hz Hrest. pose proof Hz as Hz'.
  unfold in_int, INT_MIN, INT_MAX in Hz'. unfold print_int.
  destruct (z <? 0)%Z eqn:Hneg.
  - apply Z.ltb_lt in Hneg.
    destruct (print_digits_spec 10 (- z) []) as (d & ds & Heq & Hd & _ & _ & Hscan);
      [change (10 ^ Z.of_nat 10)%Z with 10000000000%Z; lia | lia |].
    rewrite Heq, app_nil_r. unfold scan_int.
    cbn [app skip_space]. change (isspace MINUS) with false. cbv iota.
    rewrite Ascii.eqb_refl, Hd.
    change (d :: ds ++ rest) with ((d :: ds) ++ rest).
    rewrite Hscan, scan_digits_stop by done.
    rewrite Z.mul_0_l, Z.add_0_l, Z.opp_involutive. by rewrite clamp_int.
  - apply Z.ltb_ge in Hneg.
    destruct (print_digits_spec 10 z []) as (d & ds & Heq & Hd & _ & _ & Hscan);
      [change (10 ^ Z.of_nat 10)%Z with 10000000000%Z; lia | lia |].
    rewrite Heq, app_nil_r. unfold scan_int.
    destruct (isdigit_plain d Hd) as (Hsp & _ & _ & _ & Hm & Hp).
    change ((d :: ds) ++ rest) with (d :: ds ++ rest).
    cbn [skip_space]. rewrite Hsp, Hm, Hp. rewrite Hd.
    change (d :: ds ++ rest) with ((d :: ds) ++ rest).
    rewrite Hscan, scan_digits_stop by done.
    rewrite Z.mul_0_l, Z.add_0_l. by rewrite clamp_int.
Qed.

Lemma scan_digits_app (ds rest : cstring) :
  forall acc, Forall (fun c => isdigit c = true) ds -> no_digit_first rest ->
  scan_digits acc (ds ++ rest)
  = (fold_left (fun acc c => (10 * acc + digit_value c)%Z) ds acc, rest).
Proof.
  induction ds as [|d ds IH]; intros acc Hds Hrest.
  - cbn [app fold_left]. by apply scan_digits_stop.
  - apply Forall_cons in Hds as [Hd Hds]. cbn [app scan_digits fold_left].
    rewrite Hd. by apply IH.
Qed.

Lemma scan_digits_split (s : cstring) :
  exists ds rest,
    s = ds ++ rest /\ Forall (fun c => isdigit c = true) ds /\ no_digit_first rest.
Proof.
  induction s as [|c s IH].
  - by exists [], [].
  - destruct IH as (ds & rest & -> & Hds & Hrest). destruct (isdigit c) eqn:E.
    + exists (c :: ds), rest. split; [done|]. split; [by constructor|done].
    + exists [], (c :: ds ++ rest). split; [done|]. split; [constructor|done].
Qed.

Lemma skip_space_app (spaces rest : cstring) :
  Forall (fun c => isspace c = true) spaces ->
  match rest with c :: _ => isspace c = false | [] => True end ->
  skip_space (spaces ++ rest) = rest.
Proof.
  induction spaces as [|w spaces IH]; intros Hw Hrest.
  - cbn [app]. destruct rest as [|c rest]; [done|]. cbn [skip_space]. by rewrite Hrest.
  - apply Forall_cons in Hw as [Hw Hws]. cbn [app skip_space]. rewrite Hw. by apply IH.
Qed.

Lemma skip_space_split (s : cstring) :
  exists spaces,
    s = spaces ++ skip_space s /\ Forall (fun c => isspace c = true) spaces.
Proof.
  induction s as [|c s IH]; [by exists []|].
  destruct IH as (spaces & Hs & Hsp).
  cbn [skip_space]. destruct (isspace c) eqn:E.
  - exists (c :: spaces). split; [cbn [app]; by rewrite <- Hs|by constructor].
  - exists []. split; [done|constructor].
Qed.

(** ["%d"] takes exactly a numeral and stops in front of a character that
    is no digit. *)
Lemma scan_int_numeral (pre rest : cstring) z :
  numeral pre z -> no_digit_first rest ->
  scan_int (pre ++ rest) = Assigned (Vint z) rest.
Proof.
  intros (spaces & sign & ds & -> & Hsp & Hsign & Hne & Hds & ->) Hrest.
  destruct ds as [|d ds]; [done|]. pose proof Hds as Hds'.
  apply Forall_cons in Hds' as [Hd _].
  destruct (isdigit_plain d Hd) as (Hdsp & _ & _ & _ & Hdm & Hdp).
  unfold scan_int. rewrite <- !app_assoc.
  destruct Hsign as [-> | [-> | ->]].
  - rewrite skip_space_app by done. cbn [app]. rewrite Hdm, Hdp, Hd.
    change (d :: ds ++ rest) with ((d :: ds) ++ rest).
    rewrite scan_digits_app by done. by destruct (decide _).
  - rewrite skip_space_app by done. cbn [app]. rewrite Ascii.eqb_refl, Hd.
    change (d :: ds ++ rest) with ((d :: ds) ++ rest).
    rewrite scan_digits_app by done. by destruct (decide _).
  - rewrite skip_space_app by done. cbn [app].
    change (Ascii.eqb PLUS MINUS) with false. rewrite Ascii.eqb_refl, Hd.
    change (d :: ds ++ rest) with ((d :: ds) ++ rest).
    rewrite scan_digits_app by done. by destruct (decide _).
Qed.

Lemma scan_int_is_numeral (s : cstring) v rest :
  scan_int s = Assigned v rest ->
  exists pre z, v = Vint z /\ s = pre ++ rest /\ numeral pre z /\ no_digit_first rest.
Proof.
  unfold scan_int. destruct (skip_space_split s) as (spaces & Hs & Hsp).
  destruct (skip_space s) as [|c s1]; [done|].
  assert (Hshape : forall sign s2,
    (sign = [] \/ sign = [MINUS] \/ sign = [PLUS]) -> c :: s1 = sign ++ s2 ->
    match s2 with
    | [] => MatchingFailure
    | d :: _ =>
        if isdigit d then
          let '(n, rest0) := scan_digits 0 s2 in
          Assigned (Vint (wrap_int (clamp_long (if decide (sign = [MINUS]) then - n
                                                else n)%Z))) rest0
        else MatchingFailure
    end = Assigned v rest ->
    exists pre z, v = Vint z /\ s = pre ++ rest /\ numeral pre z /\ no_digit_first rest).
  { intros sign s2 Hsign Hcs. destruct s2 as [|d s2]; [done|].
    destruct (isdigit d) eqn:Hd; [|done].
    destruct (scan_digits_split (d :: s2)) as (ds & r & Hsplit & Hds & Hr).
    rewrite Hsplit, scan_digits_app by done. intros [= <- <-].
    assert (Hne : ds <> []).
    { intros ->. cbn [app] in Hsplit. subst r. cbn in Hr. congruence. }
    exists (spaces ++ sign ++ ds),
      (wrap_int (clamp_long (if decide (sign = [MINUS])
                             then - digits_value ds else digits_value ds)%Z)).
    split; [done|]. split.
    - rewrite Hs, Hcs, Hsplit. by rewrite <- !app_assoc.
    - split; [|done]. by exists spaces, sign, ds. }
  destruct (Ascii.eqb_spec c MINUS) as [->|Hm].
  - intros H. apply (Hshape [MINUS] s1); [by right; left|done|].
    destruct s1 as [|d s1']; [done|]. destruct (isdigit d); [|done].
    destruct (scan_digits 0 (d :: s1')). by destruct (decide _).
  - destruct (Ascii.eqb_spec c PLUS) as [->|Hp].
    + intros H. apply (Hshape [PLUS] s1); [by right; right|done|].
      destruct s1 as [|d s1']; [done|]. destruct (isdigit d); [|done].
      destruct (scan_digits 0 (d :: s1')). by destruct (decide _).
    + intros H. apply (Hshape [] (c :: s1)); [by left|done|].
      destruct (isdigit c); [|done].
      destruct (scan_digits 0 (c :: s1)). by destruct (decide _).
Qed.

(* ===================================================================== *)
(** ** One line written and scanned                                       *)
(* ===================================================================== *)

Lemma span_not_app stop (run rest : cstring) :
  stop ∉ run -> span_not stop (run ++ stop :: rest) = (run, stop :: rest).
Proof.
  induction run as [|c run IH]; intros Hrun; simpl.
  - by rewrite Ascii.eqb_refl.
  - apply not_elem_of_cons in Hrun as [Hc Hrun].
    destruct (Ascii.eqb_spec c stop) as [->|_]; [done|].
    by rewrite IH.
Qed.

Lemma span_not_all stop (run : cstring) :
  stop ∉ run -> span_not stop run = (run, []).
Proof.
  induction run as [|c run IH]; intros Hrun; simpl; [done|].
  apply not_elem_of_cons in Hrun as [Hc Hrun].
  destruct (Ascii.eqb_spec c stop) as [->|_]; [done|].
  by rewrite IH.
Qed.

Lemma scan_set_not_app stop (run rest : cstring) :
  run <> [] -> stop ∉ run ->
  scan_set_not stop (run ++ stop :: rest) = Assigned (Vstr run) (stop :: rest).
Proof.
  intros Hne Hrun. unfold scan_set_not. rewrite span_not_app by done.
  by destruct run.
Qed.

Lemma scan_set_not_all stop (run : cstring) :
  run <> [] -> stop ∉ run -> scan_set_not stop run = Assigned (Vstr run) [].
Proof.
  intros Hne Hrun. unfold scan_set_not. rewrite span_not_all by done.
  by destruct run.
Qed.

(** The body of a written line scans into its four fields. *)
Lemma sscanf_written_line i (a t tm : cstring) :
  in_int i -> a <> [] -> BAR ∉ a -> t <> [] -> BAR ∉ t -> tm <> [] -> NL ∉ tm ->
  sscanf (print_int i ++ BAR :: a ++ BAR :: t ++ BAR :: tm) line_format
  = (4%Z, [Vint i; Vstr a; Vstr t; Vstr tm]).
Proof.
  intros Hi Ha Ha' Ht Ht' Htm Htm'.
  unfold sscanf, line_format. cbn [scan conv].
  rewrite scan_int_print_int by done. cbn [app]. rewrite Ascii.eqb_refl.
  rewrite scan_set_not_app by done. rewrite Ascii.eqb_refl. cbn [app].
  rewrite scan_set_not_app by done. rewrite Ascii.eqb_refl. cbn [app].
  by rewrite scan_set_not_all by done.
Qed.

(** A successful scan of a line: four values of the right kinds, and the
    three strings are not empty. *)
Lemma scan_set_not_Assigned stop s v rest :
  scan_set_not stop s = Assigned v rest -> exists run, v = Vstr run /\ run <> [].
Proof.
  unfold scan_set_not. destruct s as [|c s]; [done|].
  destruct (span_not stop (c :: s)) as [[|r run] rest'] eqn:E; [done|].
  intros [= <- <-]. by exists (r :: run).
Qed.

Lemma scan_int_Assigned s v rest :
  scan_int s = Assigned v rest -> exists z, v = Vint z /\ in_int z.
Proof.
  unfold scan_int. destruct (skip_space s) as [|c s1]; [done|].
  destruct (if Ascii.eqb c MINUS then _ else _) as [negative [|d s2]]; [done|].
  destruct (isdigit d); [|done].
  destruct (scan_digits 0 (d :: s2)) as [n r]. intros [= <- <-].
  eexists. split; [done|]. apply wrap_int_in_int.
Qed.

Lemma scan_int_not_Skipped s rest : scan_int s <> Skipped rest.
Proof.
  unfold scan_int. destruct (skip_space s) as [|c s1]; [done|].
  destruct (if Ascii.eqb c MINUS then _ else _) as [negative [|d s2]]; [done|].
  destruct (isdigit d); [|done].
  by destruct (scan_digits 0 (d :: s2)).
Qed.

Lemma scan_set_not_not_Skipped stop s rest : scan_set_not stop s <> Skipped rest.
Proof.
  unfold scan_set_not. destruct s as [|c s]; [done|].
  by destruct (span_not stop (c :: s)) as [[|r run] rest'].
Qed.

Lemma sscanf_line_four s ret vs :
  sscanf s line_format = (ret, vs) -> ret = 4%Z ->
  exists i a t tm,
    vs = [Vint i; Vstr a; Vstr t; Vstr tm] /\
    in_int i /\ a <> [] /\ t <> [] /\ tm <> [].
Proof.
  unfold sscanf, line_format. cbn [scan conv app length].
  destruct (scan_int s) as [v0 r0| |  | ] eqn:E0;
    try (intros [= <- <-]; discriminate);
    try (by destruct (scan_int_not_Skipped _ _ E0)).
  apply scan_int_Assigned in E0 as (i & -> & Hi).
  destruct r0 as [|c0 r0]; [intros [= <- <-]; discriminate|].
  destruct (Ascii.eqb c0 BAR); [|intros [= <- <-]; discriminate].
  destruct (scan_set_not BAR r0) as [v1 r1| |  | ] eqn:E1;
    try (intros [= <- <-]; discriminate);
    try (by destruct (scan_set_not_not_Skipped _ _ _ E1)).
  apply scan_set_not_Assigned in E1 as (a & -> & Ha).
  destruct r1 as [|c1 r1]; [intros [= <- <-]; discriminate|].
  destruct (Ascii.eqb c1 BAR); [|intros [= <- <-]; discriminate].
  destruct (scan_set_not BAR r1) as [v2 r2| |  | ] eqn:E2;
    try (intros [= <- <-]; discriminate);
    try (by destruct (scan_set_not_not_Skipped _ _ _ E2)).
  apply scan_set_not_Assigned in E2 as (t & -> & Ht).
  destruct r2 as [|c2 r2]; [intros [= <- <-]; discriminate|].
  destruct (Ascii.eqb c2 BAR); [|intros [= <- <-]; discriminate].
  destruct (scan_set_not NL r2) as [v3 r3| |  | ] eqn:E3;
    try (intros [= <- <-]; discriminate);
    try (by destruct (scan_set_not_not_Skipped _ _ _ E3)).
  apply scan_set_not_Assigned in E3 as (tm & -> & Htm).
  intros [= <- <-] _. by exists i, a, t, tm.
Qed.

(** What ["%[^c]"] takes: the longest run without [c], which is not empty. *)
Lemma span_not_spec stop (s : cstring) :
  forall run rest, span_not stop s = (run, rest) ->
  s = run ++ rest /\ (stop ∉ run) /\ match rest with c :: _ => c = stop | [] => True end.
Proof.
  induction s as [|c s IH]; intros run rest; cbn [span_not].
  - intros [= <- <-]. split; [done|]. split; [apply not_elem_of_nil|done].
  - destruct (Ascii.eqb_spec c stop) as [->|Hc].
    + intros [= <- <-]. split; [done|]. split; [apply not_elem_of_nil|done].
    + destruct (span_not stop s) as [r0 rest0]. intros [= <- <-].
      destruct (IH r0 rest0 eq_refl) as (-> & Hrun & Hrest).
      split; [done|]. split; [|done]. apply not_elem_of_cons. by split.
Qed.

Lemma scan_set_not_inv stop s v rest :
  scan_set_not stop s = Assigned v rest ->
  exists run,
    v = Vstr run /\ run <> [] /\ (stop ∉ run) /\ s = run ++ rest /\
    match rest with c :: _ => c = stop | [] => True end.
Proof.
  unfold scan_set_not. destruct s as [|c s]; [done|].
  destruct (span_not stop (c :: s)) as [[|r run] rest'] eqn:E; [done|].
  intros [= <- <-]. apply span_not_spec in E as (E & Hrun & Hrest).
  by exists (r :: run).
Qed.

(** The scan of a line of four fields. *)
Lemma sscanf_line_of (s : cstring) x :
  line_of s x -> NL ∉ s ->
  sscanf s line_format = (4%Z, [Vint (id x); Vstr (area x); Vstr (type x); Vstr (time x)]).
Proof.
  intros (num & -> & Hnum & Ha & Ba & Ht & Bt & Htm) Hnl.
  assert (Ntm : NL ∉ time x).
  { rewrite !not_elem_of_app, !not_elem_of_cons, !not_elem_of_app, !not_elem_of_cons in Hnl.
    rewrite !not_elem_of_app, !not_elem_of_cons in Hnl. tauto. }
  unfold sscanf, line_format. cbn [scan conv].
  rewrite (scan_int_numeral num _ (id x)) by done. cbn [app]. rewrite Ascii.eqb_refl.
  rewrite scan_set_not_app by done. rewrite Ascii.eqb_refl. cbn [app].
  rewrite scan_set_not_app by done. rewrite Ascii.eqb_refl. cbn [app].
  by rewrite scan_set_not_all by done.
Qed.

(** A scan that converts four fields was given a line of four fields. *)
Lemma sscanf_four_fields (s : cstring) :
  NL ∉ s -> (sscanf s line_format).1 = 4%Z ->
  exists x,
    line_of s x /\
    (sscanf s line_format).2 = [Vint (id x); Vstr (area x); Vstr (type x); Vstr (time x)].
Proof.
  intros Hnl. unfold sscanf, line_format. cbn [scan conv app length].
  destruct (scan_int s) as [v0 r0| |  | ] eqn:E0; try discriminate;
    try (by destruct (scan_int_not_Skipped _ _ E0)).
  apply scan_int_is_numeral in E0 as (num & i & -> & -> & Hnum & _).
  destruct r0 as [|c0 r0]; [discriminate|].
  destruct (Ascii.eqb_spec c0 BAR) as [->|_]; [|discriminate].
  destruct (scan_set_not BAR r0) as [v1 r1| |  | ] eqn:E1; try discriminate;
    try (by destruct (scan_set_not_not_Skipped _ _ _ E1)).
  apply scan_set_not_inv in E1 as (a & -> & Ha & Ba & -> & _).
  destruct r1 as [|c1 r1]; [discriminate|].
  destruct (Ascii.eqb_spec c1 BAR) as [->|_]; [|discriminate].
  destruct (scan_set_not BAR r1) as [v2 r2| |  | ] eqn:E2; try discriminate;
    try (by destruct (scan_set_not_not_Skipped _ _ _ E2)).
  apply scan_set_not_inv in E2 as (t & -> & Ht & Bt & -> & _).
  destruct r2 as [|c2 r2]; [discriminate|].
  destruct (Ascii.eqb_spec c2 BAR) as [->|_]; [|discriminate].
  destruct (scan_set_not NL r2) as [v3 r3| |  | ] eqn:E3; try discriminate;
    try (by destruct (scan_set_not_not_Skipped _ _ _ E3)).
  apply scan_set_not_inv in E3 as (tm & -> & Htm & Ntm & -> & Hrest).
  intros _.
  assert (r3 = []) as ->.
  { destruct r3 as [|c r3]; [done|]. subst c. exfalso. apply Hnl.
    repeat first [rewrite elem_of_app | rewrite elem_of_cons]. tauto. }
  exists (mkIncident a t tm i). split; [|done].
  exists num. rewrite app_nil_r. cbn [area type time id]. done.
Qed.

(** After a successful scan nothing of the slot's old contents is left. *)
Lemma store_conversions_four inc i a t tm :
  store_conversions inc [Vint i; Vstr a; Vstr t; Vstr tm]
  = if within_arrays [Vint i; Vstr a; Vstr t; Vstr tm] then Some (mkIncident a t tm i)
    else None.
Proof. reflexivity. Qed.

Lemma within_arrays_four i a t tm :
  within_arrays [Vint i; Vstr a; Vstr t; Vstr tm] = true <->
  in_arrays (mkIncident a t tm i).
Proof.
  unfold within_arrays, fits, in_arrays. cbn [lookup list_lookup area type time].
  rewrite !andb_true_iff, !Nat.ltb_lt. tauto.
Qed.

(** Whether the stores have room does not depend on what the slot held. *)
Lemma store_conversions_Some inc vs :
  within_arrays vs = true -> exists inc', store_conversions inc vs = Some inc'.
Proof. intros H. unfold store_conversions. rewrite H. by eexists. Qed.

Lemma store_conversions_None inc vs :
  within_arrays vs = false -> store_conversions inc vs = None.
Proof. intros H. unfold store_conversions. by rewrite H. Qed.

Lemma store_conversions_within inc vs inc' :
  store_conversions inc vs = Some inc' -> within_arrays vs = true.
Proof. unfold store_conversions. by destruct (within_arrays vs). Qed.

(* ===================================================================== *)
(** ** Buffers: [fgets], the first NUL, the trailing newline              *)
(* ===================================================================== *)

Lemma read_chars_app room (stream : list ascii) :
  forall buf rest, read_chars room stream = (buf, rest) -> buf ++ rest = stream.
Proof.
  revert stream. induction room as [|room IH]; intros [|c stream] buf rest; simpl;
    try (intros [= <- <-]; done).
  destruct (Ascii.eqb c NL); [intros [= <- <-]; done|].
  destruct (read_chars room stream) as [b r] eqn:E. intros [= <- <-].
  simpl. f_equal. by apply IH.
Qed.

Lemma read_chars_progress room (c : ascii) (stream : list ascii) :
  forall buf rest, 0 < room -> read_chars room (c :: stream) = (buf, rest) ->
  length rest <= length stream.
Proof.
  intros buf rest Hroom. destruct room as [|room]; [lia|]. simpl.
  destruct (Ascii.eqb c NL); [intros [= <- <-]; done|].
  destruct (read_chars room stream) as [b r] eqn:E. intros [= <- <-].
  apply read_chars_app in E. rewrite <- E, length_app. lia.
Qed.

Lemma fgets_progress (stream buf rest : list ascii) :
  fgets (MAX_STRING_LENGTH * 3) stream = Some (buf, rest) ->
  length rest < length stream.
Proof.
  unfold fgets. destruct stream as [|c stream]; [done|].
  assert (Hroom : 0 < MAX_STRING_LENGTH * 3 - 1) by (vm_compute; lia).
  revert Hroom. generalize (MAX_STRING_LENGTH * 3 - 1). intros room Hroom H.
  assert (H' : read_chars room (c :: stream) = (buf, rest)) by congruence.
  apply read_chars_progress in H'; [simpl; lia|done].
Qed.

(** A whole line is read in one piece. *)
Lemma read_chars_line room (body tail : list ascii) :
  NL ∉ body -> length body < room ->
  read_chars room (body ++ NL :: tail) = (body ++ [NL], tail).
Proof.
  revert room. induction body as [|c body IH]; intros room Hnl Hlen.
  - destruct room as [|room]; [simpl in Hlen; lia|]. cbn [read_chars app].
    by rewrite Ascii.eqb_refl.
  - apply not_elem_of_cons in Hnl as [Hc Hnl].
    destruct room as [|room]; [simpl in Hlen; lia|]. cbn [read_chars app].
    destruct (Ascii.eqb_spec c NL) as [->|_]; [done|].
    rewrite IH; [done|done|simpl in Hlen; lia].
Qed.

Lemma fgets_line (body tail : list ascii) :
  whole_line body ->
  fgets (MAX_STRING_LENGTH * 3) (body ++ NL :: tail) = Some (body ++ [NL], tail).
Proof.
  intros [Hnl Hlen]. unfold fgets.
  destruct (body ++ NL :: tail) eqn:E; [by destruct body|]. rewrite <- E.
  revert Hlen. generalize (MAX_STRING_LENGTH * 3 - 1). intros room Hlen.
  rewrite read_chars_line; [done|done|]. lia.
Qed.

(** Reading from a stream whose last line is complete does not look at what
    follows it. *)
Lemma read_chars_terminated room (stream tail : list ascii) :
  forall buf rest, last stream = Some NL ->
  read_chars room stream = (buf, rest) ->
  read_chars room (stream ++ tail) = (buf, rest ++ tail) /\ terminated rest.
Proof.
  revert stream. induction room as [|room IH]; intros stream buf rest Hlast.
  - destruct stream; simpl; intros [= <- <-]; (split; [done|by right]).
  - destruct stream as [|c stream]; [done|]. simpl.
    destruct (Ascii.eqb_spec c NL) as [->|Hc].
    + intros [= <- <-]. split; [done|].
      destruct stream as [|c' stream]; [by left|right].
      by rewrite last_cons_cons in Hlast.
    + destruct stream as [|c' stream]; [simpl in Hlast; congruence|].
      rewrite last_cons_cons in Hlast.
      destruct (read_chars room (c' :: stream)) as [b r] eqn:E. intros [= <- <-].
      destruct (IH (c' :: stream) b r Hlast E) as [-> Hr]. done.
Qed.

Lemma fgets_terminated (stream tail buf rest : list ascii) :
  terminated stream ->
  fgets (MAX_STRING_LENGTH * 3) stream = Some (buf, rest) ->
  fgets (MAX_STRING_LENGTH * 3) (stream ++ tail) = Some (buf, rest ++ tail) /\
  terminated rest.
Proof.
  intros [->|Hlast]; [done|]. unfold fgets.
  destruct stream as [|c stream]; [done|].
  generalize (MAX_STRING_LENGTH * 3 - 1). intros room H.
  assert (H0 : read_chars room (c :: stream) = (buf, rest)) by congruence.
  destruct (read_chars_terminated _ _ tail _ _ Hlast H0) as [H' Hr].
  cbn [app]. change (c :: stream ++ tail) with ((c :: stream) ++ tail).
  by rewrite H'.
Qed.

Lemma c_str_cstring (s : cstring) : is_cstring s -> c_str s = s.
Proof.
  unfold is_cstring. induction s as [|c s IH]; intros H; simpl; [done|].
  apply not_elem_of_cons in H as [Hc Hs].
  destruct (Ascii.eqb_spec c NUL) as [->|_]; [done|]. by rewrite IH.
Qed.

Lemma c_str_elem (buf : list ascii) c : c ∈ c_str buf -> c ∈ buf.
Proof.
  induction buf as [|b buf IH]; simpl; [done|].
  destruct (Ascii.eqb b NUL); [by intros ?%elem_of_nil|].
  intros [->|H]%elem_of_cons; [left|right; auto].
Qed.

Lemma strip_newline_snoc (s : cstring) : strip_newline (s ++ [NL]) = s.
Proof.
  unfold strip_newline. rewrite last_snoc, Ascii.eqb_refl.
  rewrite length_app. simpl. replace (length s + 1 - 1) with (length s) by lia.
  apply take_app_length.
Qed.

Lemma strip_newline_id (s : cstring) : NL ∉ s -> strip_newline s = s.
Proof.
  intros H. unfold strip_newline. destruct (last s) as [c|] eqn:E; [|done].
  destruct (Ascii.eqb_spec c NL) as [->|_]; [|done].
  apply last_Some_elem_of in E. done.
Qed.

(** The string the loop scans for a line read with its newline. *)
Lemma strip_newline_c_str (body : list ascii) :
  NL ∉ body -> strip_newline (c_str (body ++ [NL])) = c_str body.
Proof.
  intros Hnl.
  assert (H : c_str (body ++ [NL]) = c_str body ++ [NL] \/
              c_str (body ++ [NL]) = c_str body).
  { clear Hnl. induction body as [|b body IH]; simpl; [by left|].
    destruct (Ascii.eqb b NUL); [by right|].
    destruct IH as [-> | ->]; [by left|by right]. }
  destruct H as [-> | ->]; [apply strip_newline_snoc|].
  apply strip_newline_id. intros H. by apply c_str_elem in H.
Qed.

(* ===================================================================== *)
(** ** The loop of [readIncidentsFromFile]                                *)
(* ===================================================================== *)

(** Fuel above the length of the stream is never used up, so its amount
    does not matter. *)
Lemma read_loop_fuel f1 :
  forall f2 stream arr c, length stream < f1 -> length stream < f2 ->
  read_loop f1 stream arr c = read_loop f2 stream arr c.
Proof.
  induction f1 as [|f1 IH]; intros f2 stream arr c H1 H2; [lia|].
  destruct f2 as [|f2]; [lia|]. cbn [read_loop].
  destruct (negb (c <? MAX_INCIDENTS)); [done|].
  destruct (fgets (MAX_STRING_LENGTH * 3) stream) as [[buf rest]|] eqn:E; [|done].
  apply fgets_progress in E.
  destruct (sscanf (strip_newline (c_str buf)) line_format) as [ret vs].
  destruct (arr !! c) as [inc|]; [|done].
  destruct (store_conversions inc vs) as [inc'|]; [|done].
  apply IH; lia.
Qed.

(** One turn of the loop. *)
Lemma load_step stream arr c :
  load stream arr c =
  if negb (c <? MAX_INCIDENTS) then Some (c, arr)
  else match fgets (MAX_STRING_LENGTH * 3) stream with
       | None => Some (c, arr)
       | Some (buf, stream') =>
           let r := sscanf (strip_newline (c_str buf)) line_format in
           match arr !! c with
           | None => None
           | Some inc =>
               match store_conversions inc r.2 with
               | None => None
               | Some inc' =>
                   load stream' (<[c := inc']> arr) (if (r.1 =? 4)%Z then S c else c)
               end
           end
       end.
Proof.
  unfold load at 1. cbn [read_loop].
  destruct (negb (c <? MAX_INCIDENTS)); [done|].
  destruct (fgets (MAX_STRING_LENGTH * 3) stream) as [[buf rest]|] eqn:E; [|done].
  apply fgets_progress in E.
  destruct (sscanf (strip_newline (c_str buf)) line_format) as [ret vs].
  cbn [fst snd]. destruct (arr !! c) as [inc|]; [|done].
  destruct (store_conversions inc vs) as [inc'|]; [|done].
  unfold load. apply read_loop_fuel; lia.
Qed.

Lemma readIncidentsFromFile_load d arr :
  readIncidentsFromFile d arr =
  match contents d with
  | None => Some (0, arr)
  | Some file => load file arr 0
  end.
Proof. reflexivity. Qed.

(** A property of the count and the array that every turn keeps holds when
    the loop is left. *)
Lemma read_loop_invariant (I : nat -> list Incident -> Prop) :
  (forall c arr line inc inc',
      c < MAX_INCIDENTS -> I c arr ->
      let r := sscanf line line_format in
      arr !! c = Some inc -> store_conversions inc r.2 = Some inc' ->
      I (if (r.1 =? 4)%Z then S c else c) (<[c := inc']> arr)) ->
  forall fuel stream arr c n arr',
    I c arr -> read_loop fuel stream arr c = Some (n, arr') -> I n arr'.
Proof.
  intros Hstep. induction fuel as [|fuel IH]; intros stream arr c n arr' HI; [done|].
  cbn [read_loop].
  destruct (c <? MAX_INCIDENTS) eqn:Hc; cbn [negb]; [|by intros [= <- <-]].
  apply Nat.ltb_lt in Hc.
  destruct (fgets (MAX_STRING_LENGTH * 3) stream) as [[buf rest]|];
    [|by intros [= <- <-]].
  pose proof (Hstep c arr (strip_newline (c_str buf))) as H.
  destruct (sscanf (strip_newline (c_str buf)) line_format) as [ret vs].
  cbn [fst snd] in H.
  destruct (arr !! c) as [inc|]; [|done].
  destruct (store_conversions inc vs) as [inc'|] eqn:Hstore; [|done].
  intros Hrun. eapply IH; [|done]. by eapply H.
Qed.

Lemma read_loop_shape fuel stream arr c n arr' :
  read_loop fuel stream arr c = Some (n, arr') ->
  length arr' = length arr /\ (c <= MAX_INCIDENTS -> n <= MAX_INCIDENTS).
Proof.
  intros H.
  apply (read_loop_invariant
           (fun n arr' => length arr' = length arr /\
                          (c <= MAX_INCIDENTS -> n <= MAX_INCIDENTS)))
    with (fuel := fuel) (stream := stream) (arr := arr) (c := c); [|done|done].
  intros c0 arr0 line inc inc' Hc [Hlen Hle] r _ _. rewrite length_insert.
  split; [done|]. intros. destruct (r.1 =? 4)%Z; lia.
Qed.

(** What a turn adds to the records in use. *)
Lemma take_turn (arr : list Incident) c (ret : Z) inc inc' :
  arr !! c = Some inc ->
  take (if (ret =? 4)%Z then S c else c) (<[c := inc']> arr)
  = take c arr ++ (if (ret =? 4)%Z then [inc'] else []).
Proof.
  intros E. apply lookup_lt_Some in E. destruct (ret =? 4)%Z.
  - rewrite (take_S_r _ _ inc').
    + by rewrite take_insert_ge by lia.
    + by apply list_lookup_insert_eq.
  - by rewrite take_insert_ge, app_nil_r by lia.
Qed.

(** Every record the loop counts has the three strings of a successful scan. *)
Lemma read_loop_nonempty fuel stream arr c n arr' :
  (forall inc, inc ∈ take c arr -> area inc <> [] /\ type inc <> [] /\ time inc <> []) ->
  read_loop fuel stream arr c = Some (n, arr') ->
  forall inc, inc ∈ take n arr' -> area inc <> [] /\ type inc <> [] /\ time inc <> [].
Proof.
  intros H0 Hrun.
  apply (read_loop_invariant
           (fun n arr' => forall inc, inc ∈ take n arr' ->
                          area inc <> [] /\ type inc <> [] /\ time inc <> []))
    with (fuel := fuel) (stream := stream) (arr := arr) (c := c); [|done|done].
  intros c0 arr0 line old new Hc HI r Hold Hnew inc.
  rewrite (take_turn _ _ _ old) by done.
  intros [Hin|Hin]%elem_of_app; [by apply HI|].
  destruct (r.1 =? 4)%Z eqn:Hret; [|by apply elem_of_nil in Hin].
  apply Z.eqb_eq in Hret.
  destruct (sscanf_line_four line r.1 r.2) as (i & a & t & tm & Hvs & _ & Ha & Ht & Htm);
    [apply surjective_pairing|done|].
  apply list_elem_of_singleton in Hin as ->.
  rewrite Hvs, store_conversions_four in Hnew.
  destruct (within_arrays _); [|done]. by injection Hnew as <-.
Qed.

Lemma load_end arr c : load [] arr c = Some (c, arr).
Proof. rewrite load_step. by destruct (negb (c <? MAX_INCIDENTS)). Qed.

Lemma load_full stream arr c : MAX_INCIDENTS <= c -> load stream arr c = Some (c, arr).
Proof.
  intros H. rewrite load_step.
  destruct (c <? MAX_INCIDENTS) eqn:E; [apply Nat.ltb_lt in E; lia|done].
Qed.

(** A turn on a whole line. *)
Lemma load_whole_line l tail arr c :
  whole_line l -> c < MAX_INCIDENTS ->
  load (l ++ NL :: tail) arr c =
  let r := sscanf (c_str l) line_format in
  match arr !! c with
  | None => None
  | Some inc =>
      match store_conversions inc r.2 with
      | None => None
      | Some inc' => load tail (<[c := inc']> arr) (if (r.1 =? 4)%Z then S c else c)
      end
  end.
Proof.
  intros Hl Hc. rewrite load_step.
  apply Nat.ltb_lt in Hc. rewrite Hc. cbn [negb].
  rewrite fgets_line by done.
  destruct Hl as [Hnl _]. by rewrite strip_newline_c_str.
Qed.

Lemma record_of_parsed inc l :
  parses l = true ->
  store_conversions inc (sscanf (c_str l) line_format).2 = record_of_line l.
Proof.
  unfold parses, record_of_line. intros H%Z.eqb_eq.
  destruct (sscanf_line_four (c_str l) _ _ (surjective_pairing _) H)
    as (i & a & t & tm & -> & _).
  reflexivity.
Qed.

(** Loading a file of whole lines, when what the scan of each line stores
    has room in the arrays: the records of the lines that scan into four
    fields, in their order, as long as there is room. *)
Lemma load_lines lines :
  forall arr c, length arr = MAX_INCIDENTS -> c <= MAX_INCIDENTS ->
  Forall whole_line lines -> Forall (fun l => line_fits l = true) lines ->
  exists n arr',
    load (file_of_lines lines) arr c = Some (n, arr') /\
    take n arr' =
      take MAX_INCIDENTS (take c arr ++ omap record_of_line (List.filter parses lines)).
Proof.
  induction lines as [|l lines IH]; intros arr c Hlen Hc Hlines Hfits.
  - exists c, arr. split; [apply load_end|].
    cbn. rewrite app_nil_r, take_take. f_equal; lia.
  - destruct (decide (c = MAX_INCIDENTS)) as [->|Hne].
    { exists MAX_INCIDENTS, arr. split; [by apply load_full|].
      rewrite take_app_le; [|rewrite length_take; lia].
      rewrite take_take. f_equal; lia. }
    apply Forall_cons in Hlines as [Hl Hlines].
    apply Forall_cons in Hfits as [Hfit Hfits].
    unfold file_of_lines. cbn [map concat]. rewrite <- app_assoc. cbn [app].
    rewrite load_whole_line by (done || lia). cbv zeta.
    fold (file_of_lines lines).
    destruct (lookup_lt_is_Some_2 arr c) as [inc Hinc]; [lia|]. rewrite Hinc.
    destruct (store_conversions_Some inc _ Hfit) as [inc' Hinc']. rewrite Hinc'.
    destruct (IH (<[c := inc']> arr)
                 (if ((sscanf (c_str l) line_format).1 =? 4)%Z then S c else c))
      as (n & arr' & Hrun & Htake).
    { by rewrite length_insert. }
    { destruct (_ =? 4)%Z; lia. }
    { done. }
    { done. }
    exists n, arr'. split; [done|]. rewrite Htake, (take_turn _ _ _ inc) by done. f_equal.
    cbn [List.filter]. fold (parses l).
    destruct (parses l) eqn:Hp.
    + rewrite (record_of_parsed inc) in Hinc' by done.
      cbn [omap list_omap]. rewrite Hinc'. by rewrite <- app_assoc.
    + by rewrite app_nil_r.
Qed.

(** Loading a store whose last line is complete, followed by more text:
    the loop goes through the store as it would alone and carries on. *)
Lemma read_loop_app fuel :
  forall stream tail arr c n arr1,
  terminated stream -> length stream < fuel ->
  read_loop fuel stream arr c = Some (n, arr1) -> n < MAX_INCIDENTS ->
  load (stream ++ tail) arr c = load tail arr1 n.
Proof.
  induction fuel as [|fuel IH]; intros stream tail arr c n arr1 Hterm Hfuel; [lia|].
  cbn [read_loop].
  destruct (c <? MAX_INCIDENTS) eqn:Hc; cbn [negb].
  2:{ apply Nat.ltb_ge in Hc. intros [= <- <-]. lia. }
  destruct (fgets (MAX_STRING_LENGTH * 3) stream) as [[buf rest]|] eqn:E.
  - destruct (fgets_terminated _ tail _ _ Hterm E) as [E' Hrest].
    apply fgets_progress in E.
    rewrite (load_step (stream ++ tail)), Hc, E'. cbn [negb]. cbv zeta.
    destruct (sscanf (strip_newline (c_str buf)) line_format) as [ret vs].
    cbn [fst snd]. destruct (arr !! c) as [inc|]; [|done].
    destruct (store_conversions inc vs) as [inc'|]; [|done].
    intros Hrun Hn. eapply IH; [done|lia|done|done].
  - destruct stream; [|done]. by intros [= <- <-].
Qed.

Lemma load_app stream tail arr n arr1 :
  terminated stream -> load stream arr 0 = Some (n, arr1) -> n < MAX_INCIDENTS ->
  load (stream ++ tail) arr 0 = load tail arr1 n.
Proof. intros Hterm Hrun Hn. eapply read_loop_app; [done| |done|done]. lia. Qed.

(* ===================================================================== *)
(** ** A written line read back                                           *)
(* ===================================================================== *)

Lemma print_int_plain z :
  in_int z -> (NL ∉ print_int z) /\ (NUL ∉ print_int z).
Proof.
  intros Hz. split; intros H; apply print_int_chars in H as [H|H]; try done.
Qed.

Lemma format_line_body x : format_line x = line_body x ++ [NL].
Proof.
  unfold format_line, line_body.
  repeat (rewrite <- ?app_assoc; cbn [app]; f_equal).
Qed.

(** The line of a record within the arrays is one that [fgets] and the
    string functions take in one piece. *)
Lemma scannable_whole x :
  scannable x -> whole_line (line_body x) /\ is_cstring (line_body x).
Proof.
  intros (Hid & _ & _ & _ & _ & _ & (Hla & Hlt & Hltm) & (Na & Nt & Ntm) & Ca & Ct & Ctm).
  destruct (print_int_plain _ Hid) as [Hnl Hnul].
  pose proof (print_int_length _ Hid) as Hlen.
  unfold whole_line, is_cstring, line_body, one_line, is_cstring in *.
  repeat split.
  - rewrite !not_elem_of_app, !not_elem_of_cons, !not_elem_of_app, !not_elem_of_cons.
    rewrite !not_elem_of_app, !not_elem_of_cons. done.
  - rewrite !length_app, !length_cons, !length_app, !length_cons, !length_app, !length_cons.
    change (MAX_STRING_LENGTH * 3 - 1) with 299.
    change MAX_AREA_LENGTH with 50 in Hla.
    change MAX_TYPE_LENGTH with 50 in Hlt.
    change MAX_TIME_LENGTH with 20 in Hltm. lia.
  - rewrite !not_elem_of_app, !not_elem_of_cons, !not_elem_of_app, !not_elem_of_cons.
    rewrite !not_elem_of_app, !not_elem_of_cons. done.
Qed.

Lemma storable_scannable x : storable x -> on_one_line x -> scannable x.
Proof.
  intros [(Ha & La & Ba) (Ht & Lt & Bt) (Htm & Ltm & _) Hid (Ca & Ct & Ctm)] Hline.
  assert (Harr : in_arrays x).
  { unfold in_arrays.
    change (MAX_AREA_LENGTH - 1) with 49 in La. change MAX_AREA_LENGTH with 50.
    change (MAX_TYPE_LENGTH - 1) with 49 in Lt. change MAX_TYPE_LENGTH with 50.
    change (MAX_TIME_LENGTH - 1) with 19 in Ltm. change MAX_TIME_LENGTH with 20. lia. }
  unfold scannable. tauto.
Qed.

(** The body of the line of such a record scans into its four fields, which
    have room in the slot. *)
Lemma sscanf_scannable x :
  scannable x ->
  sscanf (c_str (line_body x)) line_format
  = (4%Z, [Vint (id x); Vstr (area x); Vstr (type x); Vstr (time x)]) /\
  forall inc, store_conversions inc [Vint (id x); Vstr (area x); Vstr (type x); Vstr (time x)]
              = Some x.
Proof.
  intros Hx. destruct (scannable_whole x Hx) as [_ Hcstr].
  destruct Hx as (Hid & Ha & Ba & Ht & Bt & Htm & Harr & (_ & _ & Ntm) & _).
  rewrite c_str_cstring by done. unfold line_body.
  rewrite sscanf_written_line by done. split; [done|]. intros inc.
  rewrite store_conversions_four.
  destruct x as [a t tm i]. cbn [area type time id] in *.
  by rewrite (proj2 (within_arrays_four i a t tm) Harr).
Qed.

(** The loop on the one line [writeIncidentToFile] appends. *)
Lemma load_scannable_line x arr n :
  scannable x -> n < MAX_INCIDENTS -> n < length arr ->
  exists arr2,
    load (format_line x) arr n = Some (S n, arr2) /\
    take (S n) arr2 = take n arr ++ [x].
Proof.
  intros Hx Hn Hlen.
  destruct (scannable_whole x Hx) as [Hwhole _].
  destruct (sscanf_scannable x Hx) as [Hscan Hstore].
  rewrite format_line_body, load_whole_line by done. cbv zeta.
  destruct (lookup_lt_is_Some_2 arr n Hlen) as [old Hold].
  rewrite Hold, Hscan. cbn [fst snd]. rewrite Hstore.
  change (4 =? 4)%Z with true. cbv iota.
  eexists. split; [apply load_end|].
  rewrite (take_S_r _ _ x).
  - by rewrite take_insert_ge by lia.
  - by apply list_lookup_insert_eq.
Qed.

Lemma load_written_line x arr n :
  storable x -> on_one_line x -> n < MAX_INCIDENTS -> n < length arr ->
  exists arr2,
    load (format_line x) arr n = Some (S n, arr2) /\
    take (S n) arr2 = take n arr ++ [x].
Proof. intros Hx Hline. apply load_scannable_line. by apply storable_scannable. Qed.

(** Two arrays that agree on the records in use are loaded alike. *)
Lemma read_loop_agree fuel :
  forall stream a b c n a',
  length a = length b -> take c a = take c b ->
  read_loop fuel stream a c = Some (n, a') ->
  exists b', read_loop fuel stream b c = Some (n, b') /\ take n a' = take n b'.
Proof.
  induction fuel as [|fuel IH]; intros stream a b c n a' Hlen Htake; [done|].
  cbn [read_loop].
  destruct (negb (c <? MAX_INCIDENTS)); [intros [= <- <-]; by eauto|].
  destruct (fgets (MAX_STRING_LENGTH * 3) stream) as [[buf rest]|];
    [|intros [= <- <-]; by eauto].
  destruct (sscanf (strip_newline (c_str buf)) line_format) as [ret vs] eqn:E.
  destruct (a !! c) as [ia|] eqn:Ea; [|done].
  destruct (lookup_lt_is_Some_2 b c) as [ib Eb];
    [apply lookup_lt_Some in Ea; lia|]. rewrite Eb.
  destruct (store_conversions ia vs) as [ia'|] eqn:Sa; [|done].
  destruct (store_conversions_Some ib vs (store_conversions_within _ _ _ Sa)) as [ib' Sb].
  rewrite Sb. apply IH; [by rewrite !length_insert|].
  rewrite (take_turn _ _ _ ia), (take_turn _ _ _ ib), Htake by done. f_equal.
  destruct (ret =? 4)%Z eqn:Hret; [|done]. apply Z.eqb_eq in Hret.
  destruct (sscanf_line_four _ _ _ E Hret) as (i & x & t & tm & -> & _).
  rewrite store_conversions_four in Sa, Sb.
  destruct (within_arrays _); [|done]. congruence.
Qed.

(* ===================================================================== *)
(** ** What the prompts return                                            *)
(* ===================================================================== *)

(** In a buffer filled by [fgets] a newline can only be the last character. *)
Lemma read_chars_newline room (stream : list ascii) :
  forall buf rest, read_chars room stream = (buf, rest) ->
  length buf <= room /\
  forall before after, buf = before ++ NL :: after -> after = [].
Proof.
  revert stream. induction room as [|room IH]; intros [|c stream] buf rest;
    cbn [read_chars]; try (intros [= <- <-]; split; [cbn; lia|by intros [|??] ?]).
  destruct (Ascii.eqb_spec c NL) as [->|Hc].
  - intros [= <- <-]. split; [cbn; lia|].
    intros [|b before] after; [by intros [= <-]|]. intros [= _ H]. by destruct before.
  - destruct (read_chars room stream) as [b r] eqn:E. intros [= <- <-].
    destruct (IH _ _ _ E) as [Hlen Hnl]. split; [cbn; lia|].
    intros [|b' before] after; [by intros [= ? _]|]. intros [= _ H]. by eapply Hnl.
Qed.

Lemma c_str_prefix (buf : list ascii) : exists tail, buf = c_str buf ++ tail.
Proof.
  induction buf as [|b buf [tail IH]]; cbn [c_str]; [by exists []|].
  destruct (Ascii.eqb b NUL); [by exists (b :: buf)|].
  exists tail. cbn [app]. by rewrite <- IH.
Qed.

Lemma c_str_is_cstring (buf : list ascii) : is_cstring (c_str buf).
Proof.
  unfold is_cstring. induction buf as [|b buf IH]; cbn [c_str]; [apply not_elem_of_nil|].
  destruct (Ascii.eqb_spec b NUL) as [->|Hb]; [apply not_elem_of_nil|].
  apply not_elem_of_cons. by split.
Qed.

Lemma strip_newline_sub (s : cstring) c : c ∈ strip_newline s -> c ∈ s.
Proof.
  unfold strip_newline. destruct (last s) as [l|]; [|done].
  destruct (Ascii.eqb l NL); [|done]. intros H.
  apply elem_of_take in H as (i & H & _). by eapply list_elem_of_lookup_2.
Qed.

Lemma strip_newline_length (s : cstring) : length (strip_newline s) <= length s.
Proof.
  unfold strip_newline. destruct (last s) as [l|]; [|done].
  destruct (Ascii.eqb l NL); [|done]. rewrite length_take. lia.
Qed.

(** The string a turn works on: at most [size - 1] characters, one line, no
    NUL. *)
Lemma fgets_input_plain size (stdin buf rest : list ascii) :
  fgets size stdin = Some (buf, rest) ->
  length (strip_newline (c_str buf)) <= size - 1 /\
  one_line (strip_newline (c_str buf)) /\
  is_cstring (strip_newline (c_str buf)).
Proof.
  unfold fgets. destruct stdin as [|c stdin]; [done|].
  generalize (size - 1). intros room H.
  assert (H0 : read_chars room (c :: stdin) = (buf, rest)) by congruence.
  apply read_chars_newline in H0 as [Hlen Hnl].
  destruct (c_str_prefix buf) as [tail Hbuf].
  split; [|split].
  - pose proof (strip_newline_length (c_str buf)).
    assert (length (c_str buf) <= length buf)
      by (rewrite Hbuf at 2; rewrite length_app; lia).
    lia.
  - unfold one_line, strip_newline.
    destruct (last (c_str buf)) as [l|] eqn:El.
    + apply last_Some in El as [s Es].
      destruct (Ascii.eqb_spec l NL) as [->|Hl].
      * rewrite Es, length_app. cbn [length].
        replace (length s + 1 - 1) with (length s) by lia.
        rewrite take_app_length. intros Hin.
        apply list_elem_of_split in Hin as (p & q & ->).
        specialize (Hnl p (q ++ [NL] ++ tail)).
        rewrite Hbuf, Es, <- !app_assoc in Hnl. cbn [app] in Hnl.
        specialize (Hnl eq_refl). by destruct q.
      * intros Hin. apply list_elem_of_split in Hin as (p & q & Hpq).
        destruct q as [|q0 q].
        { rewrite Es in Hpq. apply app_inj_tail in Hpq as [_ ->]. done. }
        specialize (Hnl p ((q0 :: q) ++ tail)).
        rewrite Hbuf, Hpq, <- !app_assoc in Hnl. cbn [app] in Hnl.
        specialize (Hnl eq_refl). done.
    + apply last_None in El. rewrite El. apply not_elem_of_nil.
  - unfold is_cstring. intros Hin. apply strip_newline_sub in Hin.
    by apply c_str_is_cstring in Hin.
Qed.

(** A string [validateStringInput] returns is not empty, has at most
    [maxLength - 2] characters, and holds neither a newline nor a NUL. *)
Lemma validateStringInput_plain fuel maxLength :
  forall stdin input rest,
  validateStringInput fuel maxLength stdin = Some (input, rest) ->
  input <> [] /\ length input + 2 <= maxLength /\ one_line input /\ is_cstring input.
Proof.
  induction fuel as [|fuel IH]; intros stdin input rest; [done|].
  cbn [validateStringInput]. unfold string_turn.
  destruct (fgets maxLength stdin) as [[buf r]|] eqn:E; [|by apply IH].
  destruct (fgets_input_plain _ _ _ _ E) as (_ & Hline & Hcstr).
  destruct (length (strip_newline (c_str buf)) =? 0) eqn:E0; [by apply IH|].
  destruct (maxLength - 1 <=? length (strip_newline (c_str buf))) eqn:E1; [by apply IH|].
  intros [= <- <-]. apply Nat.eqb_neq in E0. apply Nat.leb_gt in E1.
  repeat split; [|lia|done|done].
  intros Hnil. by rewrite Hnil in E0.
Qed.

(** A string [validateTimeInput] returns passes [isValidTimeFormat], has at
    most [maxLength - 1] characters, and holds neither a newline nor a NUL. *)
Lemma validateTimeInput_plain fuel maxLength :
  forall stdin input rest,
  validateTimeInput fuel maxLength stdin = Some (input, rest) ->
  isValidTimeFormat input = true /\
  input <> [] /\ length input <= maxLength - 1 /\ one_line input /\ is_cstring input.
Proof.
  induction fuel as [|fuel IH]; intros stdin input rest; [done|].
  cbn [validateTimeInput]. unfold time_turn.
  destruct (fgets maxLength stdin) as [[buf r]|] eqn:E; [|by apply IH].
  destruct (fgets_input_plain _ _ _ _ E) as (Hlen & Hline & Hcstr).
  destruct (length (strip_newline (c_str buf)) =? 0) eqn:E0; [by apply IH|].
  destruct (isValidTimeFormat (strip_newline (c_str buf))) eqn:E1; cbn [negb];
    [|by apply IH].
  intros [= <- <-]. apply Nat.eqb_neq in E0.
  repeat split; [done| |done|done|done].
  intros Hnil. by rewrite Hnil in E0.
Qed.

(** An empty line and a line of 49 characters are refused (the latter in
    two turns, its newline being read as an empty line), then "Main St" is
    returned. *)
Example prompt_asks_again :
  validateStringInput 4 MAX_AREA_LENGTH
    (NL :: replicate 49 "x"%char ++ NL :: lit "Main St" ++ NL :: lit "pothole" ++ [NL])
  = Some (lit "Main St", lit "pothole" ++ [NL]).
Proof. vm_compute. reflexivity. Qed.

(** The record [addIncident] builds from what the three prompts return can
    be stored and read back as soon as no field holds the delimiter [|]. *)
Lemma prompted_incident_storable f1 f2 f3 in0 in1 in2 in3 a t tm st :
  validateStringInput f1 MAX_AREA_LENGTH in0 = Some (a, in1) ->
  validateStringInput f2 MAX_TYPE_LENGTH in1 = Some (t, in2) ->
  validateTimeInput f3 MAX_TIME_LENGTH in2 = Some (tm, in3) ->
  BAR ∉ a -> BAR ∉ t -> BAR ∉ tm ->
  storable (mkIncident a t tm (getNextIncidentId st)) /\
  on_one_line (mkIncident a t tm (getNextIncidentId st)).
Proof.
  intros Ha Ht Htm Ba Bt Btm.
  apply validateStringInput_plain in Ha as (Ha1 & Ha2 & Ha3 & Ha4).
  apply validateStringInput_plain in Ht as (Ht1 & Ht2 & Ht3 & Ht4).
  apply validateTimeInput_plain in Htm as (_ & Htm1 & Htm2 & Htm3 & Htm4).
  split; [constructor|]; cbn [area type time id].
  - repeat split; [done| |done]. change (MAX_AREA_LENGTH - 1) with 49.
    change MAX_AREA_LENGTH with 50 in Ha2. lia.
  - repeat split; [done| |done]. change (MAX_TYPE_LENGTH - 1) with 49.
    change MAX_TYPE_LENGTH with 50 in Ht2. lia.
  - by repeat split.
  - apply wrap_int_in_int.
  - done.
  - done.
Qed.

(* ===================================================================== *)
(** ** The store: loading, appending, reloading                           *)
(* ===================================================================== *)

(** C1.  Round trip of one appended record.  For an incident whose three
    strings are not empty, respect the bounds of their arrays, contain no
    field delimiter and no newline, appended to a store that is absent,
    empty or ends in a newline and from which fewer than [MAX_INCIDENTS]
    records load: the reload returns the records loaded before followed by a
    record equal to the incident in all four fields. *)
Theorem append_then_load (x : Incident) (d : Disk) (arr : list Incident) n arr1 :
  storable x -> on_one_line x ->
  append_ok d = true -> store_terminated d ->
  length arr = MAX_INCIDENTS ->
  readIncidentsFromFile d arr = Some (n, arr1) -> n < MAX_INCIDENTS ->
  exists arr2,
    readIncidentsFromFile (writeIncidentToFile x d).1 arr = Some (S n, arr2) /\
    take (S n) arr2 = take n arr1 ++ [x].
Proof.
  intros Hx Hline Hopen Hterm Hlen Hread Hn.
  unfold writeIncidentToFile. rewrite Hopen. cbn [fst].
  rewrite readIncidentsFromFile_load in *. cbn [contents].
  unfold store_terminated in Hterm.
  assert (Hlen1 : length arr1 = length arr).
  { destruct (contents d); [|congruence]. by apply read_loop_shape in Hread as [? _]. }
  destruct (contents d) as [file|]; cbn [default].
  - rewrite (load_app file _ arr n arr1) by done.
    apply load_written_line; (done || lia).
  - injection Hread as <- <-. cbn [app].
    apply load_written_line; (done || lia).
Qed.

Lemma pothole_storable : storable pothole /\ on_one_line pothole.
Proof.
  split; [constructor|]; unfold bounded_field, is_cstring, on_one_line, one_line, in_int;
    repeat split; try compute_done; vm_compute; lia.
Qed.

Lemma append_then_load_witness :
  exists arr2,
    readIncidentsFromFile (writeIncidentToFile pothole no_file).1 zero_array = Some (1, arr2) /\
    take 1 arr2 = [pothole].
Proof.
  apply (append_then_load pothole no_file zero_array 0 zero_array).
  - exact (proj1 pothole_storable).
  - exact (proj2 pothole_storable).
  - reflexivity.
  - exact I.
  - reflexivity.
  - reflexivity.
  - vm_compute. lia.
Defined.

Lemma two_line_area_storable : storable two_line_area.
Proof.
  constructor; unfold bounded_field, is_cstring, in_int;
    repeat split; try compute_done; vm_compute; lia.
Qed.

(** C1 as it is stated, without the condition on newlines, fails: the area
    "Main\nSt" is not empty, has 7 characters and no [|], but its line is
    read back as the two lines "1|Main" and "St|pothole|08:15", neither of
    which scans into four fields, and no record is loaded. *)
Lemma append_then_load_newline_lost :
  storable two_line_area /\
  exists n arr2,
    readIncidentsFromFile (writeIncidentToFile two_line_area no_file).1 zero_array
    = Some (n, arr2) /\
    two_line_area ∉ take n arr2.
Proof.
  split; [apply two_line_area_storable|].
  eexists 0, _. split; [vm_compute; reflexivity|]. apply not_elem_of_nil.
Qed.

(** The condition on the store is needed as well: a record appended
    behind an unfinished line is read as the end of that line. *)
Example append_behind_unfinished_line :
  exists arr2,
    readIncidentsFromFile (writeIncidentToFile pothole (file_with (lit "7|Oak Ave"))).1
                          zero_array
    = Some (1, arr2) /\
    take 1 arr2 = [mkIncident (lit "Oak Ave1") (lit "Main St") (lit "pothole|08:15") 7].
Proof. eexists. split; vm_compute; reflexivity. Qed.

(** On a whole line the test of the loop is the form of the line, and for a
    line of four fields what is stored is the record the line spells. *)
Lemma parses_four_fields l : NL ∉ l -> (parses l = true <-> four_fields (c_str l)).
Proof.
  intros Hnl. assert (Hc : NL ∉ c_str l) by (intros H; by apply c_str_elem in H).
  unfold parses. rewrite Z.eqb_eq. split.
  - intros H. destruct (sscanf_four_fields _ Hc H) as (x & Hx & _). by exists x.
  - intros [x Hx]. by rewrite (sscanf_line_of _ x).
Qed.

Lemma line_of_loaded l x :
  NL ∉ l -> line_of (c_str l) x ->
  parses l = true /\
  (line_fits l = true <-> in_arrays x) /\
  (in_arrays x -> record_of_line l = Some x).
Proof.
  intros Hnl Hx. assert (Hc : NL ∉ c_str l) by (intros H; by apply c_str_elem in H).
  unfold parses, line_fits, record_of_line.
  rewrite (sscanf_line_of _ x) by done. cbn [fst snd]. split; [done|].
  destruct x as [a t tm i]. cbn [area type time id].
  split; [apply within_arrays_four|].
  intros H. rewrite store_conversions_four.
  by rewrite (proj2 (within_arrays_four i a t tm) H).
Qed.

(** The record of a whole line that scans into four fields is the record
    the line spells, when that has room in the arrays, and no other. *)
Lemma record_of_line_spec l x :
  NL ∉ l -> parses l = true ->
  (record_of_line l = Some x <-> line_of (c_str l) x /\ in_arrays x).
Proof.
  intros Hnl Hp. assert (Hc : NL ∉ c_str l) by (intros H; by apply c_str_elem in H).
  unfold parses in Hp. apply Z.eqb_eq in Hp.
  destruct (sscanf_four_fields _ Hc Hp) as (y & Hy & Hvs).
  unfold record_of_line. rewrite Hvs, store_conversions_four.
  destruct y as [a t tm i]. cbn [area type time id] in *.
  pose proof (within_arrays_four i a t tm) as Hw.
  split.
  - destruct (within_arrays _); [|done]. intros [= <-]. split; [done|]. by apply Hw.
  - intros [Hx Harr]. pose proof (sscanf_line_of _ _ Hx Hc) as Hscan.
    rewrite Hscan in Hvs. cbn [snd] in Hvs. injection Hvs as Hi Ha Ht Htm.
    destruct x as [a' t' tm' i']. cbn [area type time id] in *. subst.
    by rewrite (proj2 Hw Harr).
Qed.

(** A file of whole lines: the count is the number of records given. *)
Lemma load_lines_count lines arr :
  length arr = MAX_INCIDENTS -> Forall whole_line lines ->
  Forall (fun l => line_fits l = true) lines ->
  exists n arr',
    load (file_of_lines lines) arr 0 = Some (n, arr') /\
    take n arr' = take MAX_INCIDENTS (omap record_of_line (List.filter parses lines)) /\
    n = length (take MAX_INCIDENTS (omap record_of_line (List.filter parses lines))).
Proof.
  intros Hlen Hlines Hfits.
  destruct (load_lines lines arr 0 Hlen (Nat.le_0_l _) Hlines Hfits)
    as (n & arr' & Hrun & Htake).
  exists n, arr'. change (take 0 arr) with (@nil Incident) in Htake.
  cbn [app] in Htake. split; [done|]. split; [done|].
  apply read_loop_shape in Hrun as [Hlen' Hn]. specialize (Hn (Nat.le_0_l _)).
  rewrite <- Htake, length_take. lia.
Qed.

(** A whole line that does not scan into four fields, and whose fields
    converted before the scan fails have room in the slot, is skipped: the
    loop goes on with the text after it and gives the records of that text. *)
Lemma load_skip l tail arr c n arr1 :
  whole_line l -> parses l = false -> line_fits l = true ->
  length arr = MAX_INCIDENTS ->
  load tail arr c = Some (n, arr1) ->
  exists arr2, load (l ++ NL :: tail) arr c = Some (n, arr2) /\ take n arr2 = take n arr1.
Proof.
  intros Hl Hp Hfit Hlen Hrun.
  destruct (le_lt_dec MAX_INCIDENTS c) as [Hfull|Hc].
  - rewrite load_full in Hrun by done. injection Hrun as <- <-.
    exists arr. split; [by apply load_full|done].
  - rewrite load_whole_line by done. cbv zeta.
    destruct (lookup_lt_is_Some_2 arr c) as [inc Hinc]; [lia|]. rewrite Hinc.
    destruct (store_conversions_Some inc _ Hfit) as [inc' ->].
    unfold parses in Hp. rewrite Hp.
    unfold load in Hrun.
    eapply read_loop_agree in Hrun as (arr2 & Hrun2 & Htake).
    + exists arr2. split; [exact Hrun2|done].
    + by rewrite length_insert.
    + by rewrite take_insert_ge.
Qed.

(** The loop returns when what the scan of every piece stores has room. *)
Lemma read_loop_fits fuel :
  forall stream arr c,
  length stream < fuel -> length arr = MAX_INCIDENTS -> c <= MAX_INCIDENTS ->
  Forall (fun buf => piece_fits buf = true) (pieces fuel stream) ->
  exists n arr', read_loop fuel stream arr c = Some (n, arr').
Proof.
  induction fuel as [|fuel IH]; intros stream arr c Hfuel Hlen Hc; [lia|].
  cbn [read_loop pieces].
  destruct (c <? MAX_INCIDENTS) eqn:Ec; cbn [negb]; [|by eauto].
  apply Nat.ltb_lt in Ec.
  destruct (fgets (MAX_STRING_LENGTH * 3) stream) as [[buf rest]|] eqn:E; [|by eauto].
  intros [Hfit Hfits]%Forall_cons. apply fgets_progress in E.
  unfold piece_fits in Hfit.
  destruct (sscanf (strip_newline (c_str buf)) line_format) as [ret vs].
  cbn [snd] in Hfit.
  destruct (lookup_lt_is_Some_2 arr c) as [inc ->]; [lia|].
  destruct (store_conversions_Some inc vs Hfit) as [inc' ->].
  apply IH; [lia|by rewrite length_insert|destruct (ret =? 4)%Z; lia|done].
Qed.

(** A whole line with a field too long for its array: the store of that
    field runs past the end of the array, in the turn that reads the line. *)
Lemma read_loop_overrun l tail arr c fuel :
  whole_line l -> c < MAX_INCIDENTS -> line_fits l = false ->
  read_loop fuel (l ++ NL :: tail) arr c = None.
Proof.
  intros Hl Hc Hfit. destruct fuel as [|fuel]; [done|]. cbn [read_loop].
  apply Nat.ltb_lt in Hc. rewrite Hc. cbn [negb].
  rewrite fgets_line by done. destruct Hl as [Hnl _].
  rewrite strip_newline_c_str by done. unfold line_fits in Hfit.
  destruct (sscanf (c_str l) line_format) as [ret vs]. cbn [snd] in Hfit.
  destruct (arr !! c) as [inc|]; [|done].
  by rewrite store_conversions_None.
Qed.

(** C6.  The tolerance of loading, on stores whose fields, as [sscanf]
    converts them, have room in the arrays of the slot.  On every such
    store [readIncidentsFromFile] returns, with at most [MAX_INCIDENTS]
    records; an absent store gives no record.  On a whole line the loop
    counts a record exactly when the line is a numeral, an area and a type
    that are not empty and hold no [|], and a time that is not empty, with
    a [|] behind each of the first three; the time is all that follows the
    third [|], so a line with a field too many is loaded, its time holding
    the rest.  Any other line, a line with a field missing for instance, is
    skipped: the records are those of the text after it.  A file of whole
    lines gives the records its lines spell, in their order, up to
    [MAX_INCIDENTS]; a file of one line that spells a record and one that
    does not, in either order, gives exactly that record, as the file of
    the two lines "1|Main St|pothole|08:15" and "2|Oak Ave|streetlight"
    does. *)
Theorem load_tolerance :
  (forall d arr,
      store_fits d -> length arr = MAX_INCIDENTS ->
      exists n arr', readIncidentsFromFile d arr = Some (n, arr') /\ n <= MAX_INCIDENTS) /\
  (forall d arr, contents d = None -> readIncidentsFromFile d arr = Some (0, arr)) /\
  (forall l, whole_line l ->
      (parses l = true <-> four_fields (c_str l)) /\
      (forall x, line_of (c_str l) x -> (line_fits l = true <-> in_arrays x)) /\
      (forall x, parses l = true ->
                 (record_of_line l = Some x <-> line_of (c_str l) x /\ in_arrays x))) /\
  (forall l tail arr c n arr1,
      whole_line l -> ~ four_fields (c_str l) -> line_fits l = true ->
      length arr = MAX_INCIDENTS ->
      load tail arr c = Some (n, arr1) ->
      exists arr2,
        load (l ++ NL :: tail) arr c = Some (n, arr2) /\ take n arr2 = take n arr1) /\
  (forall lines arr,
      Forall whole_line lines -> Forall (fun l => line_fits l = true) lines ->
      length arr = MAX_INCIDENTS ->
      exists n arr',
        readIncidentsFromFile (file_with (file_of_lines lines)) arr = Some (n, arr') /\
        take n arr' = take MAX_INCIDENTS (omap record_of_line (List.filter parses lines))) /\
  (forall good bad x arr,
      whole_line good -> line_of (c_str good) x -> in_arrays x ->
      whole_line bad -> ~ four_fields (c_str bad) -> line_fits bad = true ->
      length arr = MAX_INCIDENTS ->
      (exists arr',
          readIncidentsFromFile (file_with (file_of_lines [good; bad])) arr = Some (1, arr') /\
          take 1 arr' = [x]) /\
      (exists arr',
          readIncidentsFromFile (file_with (file_of_lines [bad; good])) arr = Some (1, arr') /\
          take 1 arr' = [x])) /\
  (exists arr',
      readIncidentsFromFile (file_with (file_of_lines good_and_bad_lines)) zero_array
      = Some (1, arr') /\
      take 1 arr' = [pothole]) /\
  (exists arr',
      readIncidentsFromFile (file_with (lit "1|Main St|pothole|08:15|more" ++ [NL]))
                            zero_array
      = Some (1, arr') /\
      take 1 arr' = [mkIncident (lit "Main St") (lit "pothole") (lit "08:15|more") 1]).
Proof.
  split; [|split; [|split; [|split; [|split; [|split; [|split]]]]]].
  - intros d arr Hfits Hlen. rewrite readIncidentsFromFile_load.
    unfold store_fits in Hfits. destruct (contents d) as [file|].
    + destruct (read_loop_fits (S (length file)) file arr 0) as (n & arr' & Hrun);
        [lia|done|lia|done|].
      exists n, arr'. split; [done|].
      apply read_loop_shape in Hrun as [_ Hn]. apply Hn. lia.
    + exists 0, arr. split; [done|lia].
  - intros d arr H. unfold readIncidentsFromFile. by rewrite H.
  - intros l [Hnl _]. split; [by apply parses_four_fields|]. split.
    + intros x Hx. by apply (line_of_loaded l x Hnl Hx).
    + intros x Hp. by apply record_of_line_spec.
  - intros l tail arr c n arr1 Hl Hbad. apply load_skip; [done|].
    destruct (parses l) eqn:Hp; [|done].
    destruct Hl as [Hnl _]. by apply parses_four_fields in Hp.
  - intros lines arr Hlines Hfits Hlen.
    rewrite readIncidentsFromFile_load. cbn [contents file_with].
    destruct (load_lines_count lines arr Hlen Hlines Hfits) as (n & arr' & Hrun & Htake & _).
    by exists n, arr'.
  - intros good bad x arr Hg Hx Harr Hb Hbad Hfit Hlen.
    destruct (line_of_loaded good x (proj1 Hg) Hx) as (Pg & Fg & Rg).
    specialize (Rg Harr). apply Fg in Harr.
    assert (Pb : parses bad = false).
    { destruct (parses bad) eqn:Hp; [|done].
      destruct Hb as [Hnl _]. by apply parses_four_fields in Hp. }
    rewrite !readIncidentsFromFile_load. cbn [contents file_with].
    split.
    + destruct (load_lines_count [good; bad] arr Hlen) as (n & arr' & Hrun & Htake & Hn);
        [repeat (apply Forall_cons_2; [done|]); apply Forall_nil_2..|].
      cbn [List.filter] in Htake, Hn. rewrite Pg, Pb in Htake, Hn.
      cbn [omap list_omap] in Htake, Hn. rewrite Rg in Htake, Hn.
      cbn in Hn. subst n. by exists arr'.
    + destruct (load_lines_count [bad; good] arr Hlen) as (n & arr' & Hrun & Htake & Hn);
        [repeat (apply Forall_cons_2; [done|]); apply Forall_nil_2..|].
      cbn [List.filter] in Htake, Hn. rewrite Pg, Pb in Htake, Hn.
      cbn [omap list_omap] in Htake, Hn. rewrite Rg in Htake, Hn.
      cbn in Hn. subst n. by exists arr'.
  - eexists. split; vm_compute; reflexivity.
  - eexists. split; vm_compute; reflexivity.
Qed.

Lemma load_tolerance_witness :
  (exists n arr',
     readIncidentsFromFile (file_with (lit "no newline at the end")) zero_array
     = Some (n, arr') /\ n <= MAX_INCIDENTS) /\
  readIncidentsFromFile no_file zero_array = Some (0, zero_array) /\
  parses (lit "2|Oak Ave|streetlight") = false /\
  (exists arr2,
     load (lit "2|Oak Ave|streetlight" ++ NL :: format_line pothole) zero_array 0
     = Some (1, arr2) /\
     take 1 arr2 = [pothole]) /\
  (exists arr',
     readIncidentsFromFile
       (file_with (file_of_lines [lit "2|Oak Ave|streetlight"; lit "1|Main St|pothole|08:15"]))
       zero_array
     = Some (1, arr') /\
     take 1 arr' = [pothole]).
Proof.
  destruct load_tolerance as (Hreturn & Habsent & Hform & Hskip & _ & Hpair & _).
  assert (Hbad : whole_line (lit "2|Oak Ave|streetlight"))
    by (split; [compute_done|vm_compute; lia]).
  assert (Pbad : parses (lit "2|Oak Ave|streetlight") = false) by reflexivity.
  assert (Nbad : ~ four_fields (c_str (lit "2|Oak Ave|streetlight"))).
  { intros H. apply (proj1 (Hform _ Hbad)) in H. congruence. }
  split; [|split; [|split; [|split]]].
  - apply (Hreturn (file_with (lit "no newline at the end")) zero_array); [|reflexivity].
    unfold store_fits. cbn [contents file_with].
    apply Forall_forall. intros buf Hbuf. vm_compute in Hbuf.
    apply elem_of_cons in Hbuf as [->|Hbuf]; [reflexivity|].
    by apply elem_of_nil in Hbuf.
  - apply (Habsent no_file zero_array). reflexivity.
  - exact Pbad.
  - destruct (Hskip (lit "2|Oak Ave|streetlight") (format_line pothole) zero_array 0
                    1 (<[0 := pothole]> zero_array)) as (arr2 & Hrun & Htake).
    + exact Hbad.
    + exact Nbad.
    + reflexivity.
    + reflexivity.
    + vm_compute. reflexivity.
    + exists arr2. split; [exact Hrun|]. rewrite Htake. reflexivity.
  - destruct (Hpair (lit "1|Main St|pothole|08:15") (lit "2|Oak Ave|streetlight")
                    pothole zero_array) as (_ & arr' & Hrun & Htake).
    + split; [compute_done|vm_compute; lia].
    + exists (lit "1"). split; [reflexivity|]. split.
      * exists [], [], (lit "1"). split; [reflexivity|]. split; [constructor|].
        split; [by left|]. split; [discriminate|]. split; [|reflexivity].
        constructor; [reflexivity|constructor].
      * repeat split; try discriminate; compute_done.
    + unfold in_arrays. vm_compute. lia.
    + exact Hbad.
    + exact Nbad.
    + reflexivity.
    + reflexivity.
    + exists arr'. split; [exact Hrun|exact Htake].
Defined.

(** C6 as it is stated fails for a line with a field too many: the line
    "1|Main St|pothole|08:15|more" has five fields between its [|], not
    four, and yet it is not skipped: the loop counts it, and its record has
    the time "08:15|more". *)
Lemma load_tolerance_five_fields :
  length (bar_fields (lit "1|Main St|pothole|08:15|more")) = 5 /\
  exists arr',
    readIncidentsFromFile (file_with (lit "1|Main St|pothole|08:15|more" ++ [NL]))
                          zero_array
    = Some (1, arr') /\
    take 1 arr' = [mkIncident (lit "Main St") (lit "pothole") (lit "08:15|more") 1].
Proof. split; [reflexivity|]. eexists. split; vm_compute; reflexivity. Qed.

(** C10.  What loading accepts.  Every record it returns has a non-empty
    area, type and time; nothing else is checked: the line of a record whose
    fields have room in the arrays is loaded as that record whatever the
    sign of its id and whatever the text of its time; so a line with id
    zero, a line with a negative id and a line whose time is not a time of
    day are loaded as they are. *)
Theorem load_acceptance :
  (forall d arr n arr',
      readIncidentsFromFile d arr = Some (n, arr') ->
      forall inc, inc ∈ take n arr' ->
      area inc <> [] /\ type inc <> [] /\ time inc <> []) /\
  (forall x arr,
      scannable x -> length arr = MAX_INCIDENTS ->
      exists arr',
        readIncidentsFromFile (file_with (format_line x)) arr = Some (1, arr') /\
        take 1 arr' = [x]) /\
  (exists arr',
      readIncidentsFromFile (file_with (lit "0|Main St|pothole|08:15" ++ [NL])) zero_array
      = Some (1, arr') /\
      take 1 arr' = [mkIncident (lit "Main St") (lit "pothole") (lit "08:15") 0]) /\
  (exists arr',
      readIncidentsFromFile (file_with (lit "-7|Main St|pothole|08:15" ++ [NL])) zero_array
      = Some (1, arr') /\
      take 1 arr' = [mkIncident (lit "Main St") (lit "pothole") (lit "08:15") (-7)]) /\
  (isValidTimeFormat (lit "around noon") = false /\
   exists arr',
      readIncidentsFromFile (file_with (lit "3|Main St|pothole|around noon" ++ [NL])) zero_array
      = Some (1, arr') /\
      take 1 arr' = [mkIncident (lit "Main St") (lit "pothole") (lit "around noon") 3]).
Proof.
  split; [|split; [|split; [|split; [|split]]]].
  - intros d arr n arr'. rewrite readIncidentsFromFile_load.
    destruct (contents d) as [file|].
    + apply read_loop_nonempty. by intros inc H%elem_of_nil.
    + intros [= <- <-] inc H. by apply elem_of_nil in H.
  - intros x arr Hx Hlen. rewrite readIncidentsFromFile_load. cbn [contents file_with].
    apply (load_scannable_line x arr 0 Hx); [vm_compute|rewrite Hlen; vm_compute]; lia.
  - eexists. split; vm_compute; reflexivity.
  - eexists. split; vm_compute; reflexivity.
  - reflexivity.
  - eexists. split; vm_compute; reflexivity.
Qed.

Lemma load_acceptance_witness :
  (area pothole <> [] /\ type pothole <> [] /\ time pothole <> []) /\
  exists arr',
    readIncidentsFromFile
      (file_with (format_line (mkIncident (lit "Main St") (lit "pothole") (lit "25:61") (-7))))
      zero_array
    = Some (1, arr') /\
    take 1 arr' = [mkIncident (lit "Main St") (lit "pothole") (lit "25:61") (-7)].
Proof.
  destruct load_acceptance as (Hnonempty & Hany & _).
  split.
  - apply (Hnonempty (file_with (format_line pothole)) zero_array 1
             (<[0 := pothole]> zero_array)).
    + vm_compute. reflexivity.
    + vm_compute. apply list_elem_of_here.
  - apply (Hany (mkIncident (lit "Main St") (lit "pothole") (lit "25:61") (-7)) zero_array).
    + unfold scannable, in_arrays, on_one_line, one_line, is_cstring, in_int.
      cbn [area type time id].
      repeat split; try compute_done; try discriminate; vm_compute; lia.
    + reflexivity.
Defined.

(* ===================================================================== *)
(** ** Ids and reports                                                    *)
(* ===================================================================== *)

(** The scan for the largest id, started at [a]. *)
Lemma fold_max_spec (l : list Incident) :
  forall a,
  let M := fold_left (fun maxId inc => if (id inc >? maxId)%Z then id inc else maxId) l a in
  (a <= M)%Z /\
  (forall inc, inc ∈ l -> (id inc <= M)%Z) /\
  (M = a \/ exists inc, inc ∈ l /\ id inc = M).
Proof.
  induction l as [|x l IH]; intros a; cbn [fold_left].
  - repeat split; [lia| |by left]. by intros inc H%elem_of_nil.
  - destruct (IH (if (id x >? a)%Z then id x else a)) as (Hle & Hall & Hin).
    assert (Ha : (a <= (if (id x >? a)%Z then id x else a))%Z /\
                 (id x <= (if (id x >? a)%Z then id x else a))%Z).
    { destruct (id x >? a)%Z eqn:E; lia. }
    repeat split.
    + lia.
    + intros inc [->|H]%elem_of_cons; [lia|by apply Hall].
    + destruct Hin as [Hin|(inc & Hinc & Hid)].
      * destruct (id x >? a)%Z eqn:E; [right|by left].
        exists x. split; [left|done].
      * right. exists inc. split; [by right|done].
Qed.

(** The next id, when no id in use is [INT_MAX]: one more than the largest
    of 0 and the ids in use. *)
Lemma getNextIncidentId_cases st :
  (forall inc, inc ∈ collection st -> (id inc < INT_MAX)%Z) ->
  exists M,
    getNextIncidentId st = (M + 1)%Z /\ (0 <= M)%Z /\
    (forall inc, inc ∈ collection st -> (id inc <= M)%Z) /\
    (M = 0%Z \/ exists inc, inc ∈ collection st /\ id inc = M).
Proof.
  intros Hsmall. unfold getNextIncidentId. fold (collection st).
  destruct (fold_max_spec (collection st) 0) as (Hle & Hall & Hin).
  eexists. split; [|by repeat split].
  apply wrap_int_id. unfold in_int, INT_MIN, INT_MAX in *.
  destruct Hin as [Heq|(inc & Hinc & Heq)]; [lia|].
  specialize (Hsmall inc Hinc). lia.
Qed.

(** [addIncident] below the capacity. *)
Lemma addIncident_room a t tm st :
  incidentCount st < MAX_INCIDENTS ->
  addIncident a t tm st =
  let new := mkIncident a t tm (getNextIncidentId st) in
  ({| incidents := <[incidentCount st := new]> (incidents st);
      incidentCount := S (incidentCount st);
      disk := (writeIncidentToFile new (disk st)).1 |},
   (writeIncidentToFile new (disk st)).2 ++ [Reported (getNextIncidentId st)]).
Proof.
  intros H%Nat.ltb_lt. unfold addIncident. rewrite H. cbn [negb]. cbv zeta.
  by destruct (writeIncidentToFile _ (disk st)).
Qed.

Lemma addIncident_full a t tm st :
  MAX_INCIDENTS <= incidentCount st -> addIncident a t tm st = (st, [MaxReached]).
Proof.
  intros H. unfold addIncident.
  destruct (incidentCount st <? MAX_INCIDENTS) eqn:E; [apply Nat.ltb_lt in E; lia|done].
Qed.

Lemma reported_ids_app out1 out2 :
  reported_ids (out1 ++ out2) = reported_ids out1 ++ reported_ids out2.
Proof.
  induction out1 as [|m out1 IH]; [done|]. destruct m; cbn; by rewrite ?IH.
Qed.

Lemma writeIncidentToFile_quiet x d : reported_ids (writeIncidentToFile x d).2 = [].
Proof. unfold writeIncidentToFile. by destruct (append_ok d). Qed.

(** The records in use after a report. *)
Lemma collection_after_report a t tm st :
  incidentCount st < MAX_INCIDENTS -> length (incidents st) = MAX_INCIDENTS ->
  collection (addIncident a t tm st).1
  = collection st ++ [mkIncident a t tm (getNextIncidentId st)].
Proof.
  intros Hc Hlen. rewrite addIncident_room by done. cbv zeta.
  unfold collection. cbn [fst incidents incidentCount].
  rewrite (take_S_r _ _ (mkIncident a t tm (getNextIncidentId st))).
  - by rewrite take_insert_ge by lia.
  - apply list_lookup_insert_eq. lia.
Qed.

Lemma shape_after_report a t tm st :
  incidentCount st < MAX_INCIDENTS ->
  incidentCount (addIncident a t tm st).1 = S (incidentCount st) /\
  length (incidents (addIncident a t tm st).1) = length (incidents st) /\
  reported_ids (addIncident a t tm st).2 = [getNextIncidentId st].
Proof.
  intros Hc. rewrite addIncident_room by done. cbv zeta. cbn [fst snd incidents incidentCount].
  rewrite length_insert, reported_ids_app, writeIncidentToFile_quiet. done.
Qed.

(** A session that fits: every report succeeds. *)
Lemma addIncidents_count inputs :
  forall st, incidentCount st + length inputs <= MAX_INCIDENTS ->
  incidentCount (addIncidents inputs st).1 = incidentCount st + length inputs /\
  length (incidents (addIncidents inputs st).1) = length (incidents st) /\
  length (reported_ids (addIncidents inputs st).2) = length inputs.
Proof.
  induction inputs as [|[[a t] tm] inputs IH]; intros st H; cbn [addIncidents length].
  - cbn. lia.
  - cbn [length] in H.
    destruct (shape_after_report a t tm st) as (Hc & Hl & Hr); [lia|].
    destruct (addIncident a t tm st) as [st1 out1]. cbn [fst snd] in *.
    destruct (IH st1) as (Hc' & Hl' & Hr'); [lia|].
    destruct (addIncidents inputs st1) as [st2 out2]. cbn [fst snd] in *.
    rewrite reported_ids_app, length_app, Hr. cbn. lia.
Qed.

(** From ids 1..k in use, a session reports k+1, k+2, ... *)
Lemma addIncidents_ids inputs :
  forall st,
  length (incidents st) = MAX_INCIDENTS ->
  incidentCount st + length inputs <= MAX_INCIDENTS ->
  id <$> collection st = Z.of_nat <$> seq 1 (incidentCount st) ->
  reported_ids (addIncidents inputs st).2
  = Z.of_nat <$> seq (S (incidentCount st)) (length inputs).
Proof.
  induction inputs as [|[[a t] tm] inputs IH]; intros st Hlen Hroom Hids;
    cbn [addIncidents length]; [done|].
  cbn [length] in Hroom.
  assert (Hnext : getNextIncidentId st = Z.of_nat (S (incidentCount st))).
  { destruct (getNextIncidentId_cases st) as (M & -> & HM & Hall & Hin).
    - intros inc Hinc. apply (list_elem_of_fmap_2 id) in Hinc.
      rewrite Hids in Hinc. apply list_elem_of_fmap in Hinc as (k & -> & Hk).
      apply elem_of_seq in Hk. unfold INT_MAX.
      change MAX_INCIDENTS with 100 in Hroom. lia.
    - assert (HMk : (M <= Z.of_nat (incidentCount st))%Z).
      { destruct Hin as [->|(inc & Hinc & <-)]; [lia|].
        apply (list_elem_of_fmap_2 id) in Hinc.
        rewrite Hids in Hinc. apply list_elem_of_fmap in Hinc as (k & -> & Hk).
        apply elem_of_seq in Hk. lia. }
      assert (HkM : (Z.of_nat (incidentCount st) <= M)%Z).
      { destruct (incidentCount st) as [|k] eqn:Ek; [lia|].
        assert (Hin' : Z.of_nat (S k) ∈ id <$> collection st).
        { rewrite Hids. apply list_elem_of_fmap. exists (S k). split; [done|].
          apply elem_of_seq. lia. }
        apply list_elem_of_fmap in Hin' as (inc & -> & Hinc). by apply Hall. }
      lia. }
  pose proof (collection_after_report a t tm st ltac:(lia) Hlen) as Hcoll.
  destruct (shape_after_report a t tm st) as (Hc & Hl & Hr); [lia|].
  destruct (addIncident a t tm st) as [st1 out1]. cbn [fst snd] in *.
  specialize (IH st1).
  destruct (addIncidents inputs st1) as [st2 out2]. cbn [fst snd] in *.
  rewrite reported_ids_app, Hr, Hnext, IH.
  - rewrite Hc. reflexivity.
  - lia.
  - lia.
  - rewrite Hcoll, fmap_app, Hids, Hc, seq_S, fmap_app. cbn.
    by rewrite Hnext.
Qed.

(** C2.  The id rule.  When no id in use is [INT_MAX],
    [getNextIncidentId] returns 1 for an empty collection and one more than
    the largest of 0 and the ids in use otherwise (so 1 + max id as soon as
    one id is not negative); it depends on the records in use and on nothing
    else; the id a report announces is the one it returns; and from an empty
    collection the reports of a session get 1, 2, 3, ... in turn. *)
Theorem next_id_rule :
  (forall st,
      (forall inc, inc ∈ collection st -> (id inc < INT_MAX)%Z) ->
      (collection st = [] -> getNextIncidentId st = 1%Z) /\
      (forall m, max_id (collection st) m ->
                 getNextIncidentId st = (1 + Z.max 0 m)%Z)) /\
  (forall st st',
      collection st = collection st' ->
      getNextIncidentId st = getNextIncidentId st') /\
  (forall a t tm st,
      incidentCount st < MAX_INCIDENTS ->
      reported_ids (addIncident a t tm st).2 = [getNextIncidentId st]) /\
  (forall inputs st,
      fresh st -> length inputs <= MAX_INCIDENTS ->
      reported_ids (addIncidents inputs st).2 = map Z.of_nat (seq 1 (length inputs))).
Proof.
  split; [|split; [|split]].
  - intros st Hsmall.
    destruct (getNextIncidentId_cases st Hsmall) as (M & -> & HM & Hall & Hin).
    split.
    + intros Hnil. rewrite Hnil in Hin.
      destruct Hin as [->|(inc & Hinc & _)]; [done|by apply elem_of_nil in Hinc].
    + intros m [(inc & Hinc & <-) Hmax].
      specialize (Hall inc Hinc).
      destruct Hin as [->|(inc' & Hinc' & <-)]; [lia|].
      specialize (Hmax inc' Hinc'). lia.
  - intros st st' H. unfold getNextIncidentId. fold (collection st) (collection st').
    by rewrite H.
  - intros a t tm st Hc. by apply shape_after_report.
  - intros inputs st [Hc Hlen] Hroom.
    change (map Z.of_nat (seq 1 (length inputs)))
      with (Z.of_nat <$> seq 1 (length inputs)).
    rewrite (addIncidents_ids inputs st); [by rewrite Hc|done|lia|].
    unfold collection. by rewrite Hc.
Qed.

Lemma next_id_rule_witness :
  getNextIncidentId (empty_session no_file) = 1%Z /\
  getNextIncidentId two_reports = (1 + Z.max 0 2)%Z /\
  getNextIncidentId (mkState (<[7 := oak_ave]> (incidents two_reports)) 2 read_only_dir)
  = getNextIncidentId two_reports /\
  reported_ids (addIncident (lit "Elm St") (lit "pothole") (lit "09:00") two_reports).2
  = [getNextIncidentId two_reports] /\
  reported_ids
    (addIncidents [(lit "Main St", lit "pothole", lit "08:15");
                   (lit "Oak Ave", lit "streetlight", lit "21:40")]
                  (empty_session no_file)).2
  = [1%Z; 2%Z].
Proof.
  destruct next_id_rule as (Hrule & Hsame & Hreport & Hsession).
  split; [|split; [|split; [|split]]].
  - apply (Hrule (empty_session no_file)); [|reflexivity].
    intros inc H. by apply elem_of_nil in H.
  - apply (Hrule two_reports).
    + intros inc H. vm_compute in H.
      apply elem_of_cons in H as [->|H]; [vm_compute; reflexivity|].
      apply elem_of_cons in H as [->|H]; [vm_compute; reflexivity|].
      by apply elem_of_nil in H.
    + split.
      * exists oak_ave. split; [apply list_elem_of_further, list_elem_of_here|reflexivity].
      * intros inc H. vm_compute in H.
        apply elem_of_cons in H as [->|H]; [vm_compute; discriminate|].
        apply elem_of_cons in H as [->|H]; [vm_compute; discriminate|].
        by apply elem_of_nil in H.
  - apply Hsame. reflexivity.
  - apply Hreport. vm_compute. lia.
  - apply (Hsession [(lit "Main St", lit "pothole", lit "08:15");
                     (lit "Oak Ave", lit "streetlight", lit "21:40")]
                    (empty_session no_file)).
    + split; reflexivity.
    + vm_compute. lia.
Defined.

(** C2 as it is stated fails on a collection whose ids are all negative:
    after loading the line "-5|Main St|pothole|08:15" the largest id in use
    is -5 and the next id is 1, not -4. *)
Lemma next_id_not_one_more_than_max :
  exists st,
    startup (file_with minus_five_line) = Some st /\
    collection st <> [] /\
    max_id (collection st) (-5) /\
    getNextIncidentId st = 1%Z /\
    getNextIncidentId st <> (1 + -5)%Z.
Proof.
  eexists. split; [vm_compute; reflexivity|].
  split; [done|]. split; [|split; [reflexivity|done]].
  split.
  - eexists. split; [apply list_elem_of_here|reflexivity].
  - intros inc [->|H]%elem_of_cons; [done|by apply elem_of_nil in H].
Qed.

(** C3.  Capacity.  With [MAX_INCIDENTS] records in use a report is refused
    and nothing changes: [addIncident] gives back the state it was given,
    array, count and disk, with the one message of refusal.  After a session
    of exactly 100 reports from an empty collection all 100 have succeeded,
    the count is 100, and any further report is refused that way. *)
Theorem capacity_enforced :
  (forall a t tm st,
      incidentCount st = MAX_INCIDENTS ->
      addIncident a t tm st = (st, [MaxReached])) /\
  (forall inputs st,
      fresh st -> length inputs = 100 ->
      length (reported_ids (addIncidents inputs st).2) = 100 /\
      incidentCount (addIncidents inputs st).1 = 100 /\
      forall a t tm,
        addIncident a t tm (addIncidents inputs st).1
        = ((addIncidents inputs st).1, [MaxReached])).
Proof.
  split.
  - intros a t tm st H. apply addIncident_full. lia.
  - intros inputs st [Hc Hlen] Hn.
    destruct (addIncidents_count inputs st) as (Hc' & _ & Hr).
    { rewrite Hc, Hn. vm_compute. lia. }
    rewrite Hc, Hn in Hc'. rewrite Hn in Hr. repeat split; [done|done|].
    intros a t tm. apply addIncident_full. rewrite Hc'. vm_compute. lia.
Qed.

Lemma capacity_enforced_witness :
  addIncident (lit "Main St") (lit "pothole") (lit "08:15") full_session
  = (full_session, [MaxReached]) /\
  incidentCount
    (addIncidents (replicate 100 (lit "Main St", lit "pothole", lit "08:15"))
                  (empty_session no_file)).1
  = 100.
Proof.
  destruct capacity_enforced as (Hfull & Hsession).
  split.
  - apply (Hfull (lit "Main St") (lit "pothole") (lit "08:15") full_session).
    reflexivity.
  - destruct (Hsession (replicate 100 (lit "Main St", lit "pothole", lit "08:15"))
                       (empty_session no_file)) as (_ & Hcount & _).
    + split; reflexivity.
    + reflexivity.
    + exact Hcount.
Defined.

(** C7.  A write failure costs durability only.  Below the capacity, when
    the file cannot be opened for appending, [addIncident] still puts the
    new record, with the id [getNextIncidentId] gave, behind the records in
    use and counts it; the disk is left as it was; the output is the error
    line of [writeIncidentToFile] followed by the usual line of success. *)
Theorem write_failure_keeps_record a t tm st :
  incidentCount st < MAX_INCIDENTS ->
  length (incidents st) = MAX_INCIDENTS ->
  append_ok (disk st) = false ->
  incidentCount (addIncident a t tm st).1 = S (incidentCount st) /\
  collection (addIncident a t tm st).1
    = collection st ++ [mkIncident a t tm (getNextIncidentId st)] /\
  disk (addIncident a t tm st).1 = disk st /\
  (addIncident a t tm st).2 = [CouldNotOpen; Reported (getNextIncidentId st)].
Proof.
  intros Hc Hlen Hdisk.
  split; [by apply shape_after_report|].
  split; [by apply collection_after_report|].
  rewrite addIncident_room by done. cbv zeta. cbn [fst snd disk].
  unfold writeIncidentToFile. by rewrite Hdisk.
Qed.

Lemma write_failure_keeps_record_witness :
  collection (addIncident (lit "Main St") (lit "pothole") (lit "08:15")
                          (empty_session read_only_dir)).1
  = [pothole] /\
  (addIncident (lit "Main St") (lit "pothole") (lit "08:15")
               (empty_session read_only_dir)).2
  = [CouldNotOpen; Reported 1].
Proof.
  destruct (write_failure_keeps_record (lit "Main St") (lit "pothole") (lit "08:15")
              (empty_session read_only_dir)) as (_ & H1 & _ & H2).
  - vm_compute. lia.
  - reflexivity.
  - reflexivity.
  - split; [exact H1|exact H2].
Defined.

(** C8.  Frame of a report.  Below the capacity, [addIncident] raises the
    count by one, writes the new record into the slot behind the records in
    use, where it becomes the last of them, and leaves every other slot of
    the array as it was. *)
Theorem report_frame a t tm st :
  incidentCount st < MAX_INCIDENTS ->
  length (incidents st) = MAX_INCIDENTS ->
  let new := mkIncident a t tm (getNextIncidentId st) in
  let st' := (addIncident a t tm st).1 in
  incidentCount st' = S (incidentCount st) /\
  collection st' = collection st ++ [new] /\
  last (collection st') = Some new /\
  incidents st' !! incidentCount st = Some new /\
  forall i, i <> incidentCount st -> incidents st' !! i = incidents st !! i.
Proof.
  intros Hc Hlen new st'. subst new st'.
  split; [by apply shape_after_report|].
  split; [by apply collection_after_report|].
  split; [rewrite collection_after_report by done; apply last_snoc|].
  rewrite addIncident_room by done. cbv zeta. cbn [fst incidents].
  split.
  - apply list_lookup_insert_eq. lia.
  - intros i Hi. by apply list_lookup_insert_ne.
Qed.

Lemma report_frame_witness :
  collection (addIncident (lit "Main St") (lit "pothole") (lit "08:15")
                          (empty_session no_file)).1
  = [pothole].
Proof.
  destruct (report_frame (lit "Main St") (lit "pothole") (lit "08:15")
              (empty_session no_file)) as (_ & H & _).
  - vm_compute. lia.
  - reflexivity.
  - exact H.
Defined.

(** C9.  The new id is above the ids in use.  Below the capacity and when
    no id in use is [INT_MAX], whatever the ids in use are (repeated, out of
    order, with gaps, negative), the id that [addIncident] announces and
    gives to the new record is greater than every one of them. *)
Theorem new_id_above_all a t tm st :
  incidentCount st < MAX_INCIDENTS ->
  length (incidents st) = MAX_INCIDENTS ->
  (forall inc, inc ∈ collection st -> (id inc < INT_MAX)%Z) ->
  exists new,
    reported_ids (addIncident a t tm st).2 = [id new] /\
    last (collection (addIncident a t tm st).1) = Some new /\
    forall inc, inc ∈ collection st -> (id inc < id new)%Z.
Proof.
  intros Hc Hlen Hsmall.
  exists (mkIncident a t tm (getNextIncidentId st)). cbn [id].
  split; [by apply shape_after_report|].
  split; [rewrite collection_after_report by done; apply last_snoc|].
  intros inc Hinc.
  destruct (getNextIncidentId_cases st Hsmall) as (M & -> & _ & Hall & _).
  specialize (Hall inc Hinc). lia.
Qed.

Lemma new_id_above_all_witness :
  exists new,
    reported_ids (addIncident (lit "Oak Ave") (lit "streetlight") (lit "21:40")
                              (mkState (<[0 := pothole]> zero_array) 1 no_file)).2
    = [id new] /\
    last (collection (addIncident (lit "Oak Ave") (lit "streetlight") (lit "21:40")
                                  (mkState (<[0 := pothole]> zero_array) 1 no_file)).1)
    = Some new /\
    forall inc, inc ∈ collection (mkState (<[0 := pothole]> zero_array) 1 no_file) ->
                (id inc < id new)%Z.
Proof.
  apply (new_id_above_all (lit "Oak Ave") (lit "streetlight") (lit "21:40")
           (mkState (<[0 := pothole]> zero_array) 1 no_file)).
  - vm_compute. lia.
  - reflexivity.
  - intros inc H. vm_compute in H.
    apply elem_of_cons in H as [->|H]; [vm_compute; reflexivity|].
    by apply elem_of_nil in H.
Defined.

(** C9 as it is stated fails when an id in use is [INT_MAX]: after loading
    the line "2147483647|Main St|pothole|08:15" the sum [maxId + 1]
    overflows, and the id announced is not above the one in use. *)
Lemma new_id_not_above_int_max :
  exists st inc,
    startup (file_with int_max_line) = Some st /\
    incidentCount st < MAX_INCIDENTS /\
    inc ∈ collection st /\
    reported_ids (addIncident (lit "Oak Ave") (lit "streetlight") (lit "21:40") st).2
    = [getNextIncidentId st] /\
    getNextIncidentId st = INT_MIN /\
    ~ (id inc < getNextIncidentId st)%Z.
Proof.
  eexists _, (mkIncident (lit "Main St") (lit "pothole") (lit "08:15") INT_MAX).
  split; [vm_compute; reflexivity|].
  split; [vm_compute; lia|].
  split; [apply list_elem_of_here|].
  split; [reflexivity|].
  split; [reflexivity|].
  vm_compute. intros H. discriminate H.
Qed.

(* ===================================================================== *)
(** ** The filters                                                        *)
(* ===================================================================== *)

Lemma is_prefix_spec (p s : cstring) :
  is_prefix p s = true <-> exists after, s = p ++ after.
Proof.
  revert s. induction p as [|a p IH]; intros s; cbn [is_prefix].
  - split; [by exists s|done].
  - destruct s as [|b s].
    + split; [done|]. by intros (after & H).
    + rewrite andb_true_iff, IH. split.
      * intros [->%Ascii.eqb_eq (after & ->)]. by exists after.
      * intros (after & [= -> ->]). split; [apply Ascii.eqb_refl|by exists after].
Qed.

(** [strstr] finds the needle exactly when it occurs. *)
Lemma strstr_spec (haystack needle : cstring) :
  (exists k, strstr haystack needle = Some k) <-> substring needle haystack.
Proof.
  unfold substring. induction haystack as [|c h IH]; cbn [strstr].
  - destruct (is_prefix needle []) eqn:E.
    + apply is_prefix_spec in E as (after & E). split; [|by eauto].
      intros _. by exists [], after.
    + split; [by intros (k & ?)|].
      intros (before & after & H).
      destruct before; [|done]. cbn [app] in H.
      assert (is_prefix needle [] = true) by (apply is_prefix_spec; by exists after).
      congruence.
  - destruct (is_prefix needle (c :: h)) eqn:E.
    + apply is_prefix_spec in E as (after & E). split; [|by eauto].
      intros _. by exists [], after.
    + split.
      * intros (k & Hk). destruct (strstr h needle) as [k'|] eqn:Ek; [|done].
        destruct (proj1 IH) as (before & after & ->); [by eauto|].
        by exists (c :: before), after.
      * intros (before & after & H). destruct before as [|b before].
        { cbn [app] in H.
          assert (is_prefix needle (c :: h) = true)
            by (apply is_prefix_spec; by exists after).
          congruence. }
        injection H as -> ->.
        destruct (proj2 IH) as (k & ->); [by exists before, after|].
        by exists (S k).
Qed.

Lemma lower_copy_short (s : cstring) :
  length s <= MAX_STRING_LENGTH - 1 -> lower_copy s = lowercase s.
Proof. intros H. unfold lower_copy, lowercase. by rewrite take_ge. Qed.

(** Within the bound of the copies, [strContains] is containment of the
    case-folded strings. *)
Lemma strContains_spec (str substr : cstring) :
  length str <= MAX_STRING_LENGTH - 1 -> length substr <= MAX_STRING_LENGTH - 1 ->
  strContains str substr = true <-> substring (lowercase substr) (lowercase str).
Proof.
  intros H1 H2. unfold strContains. rewrite !lower_copy_short by done.
  rewrite <- strstr_spec.
  destruct (strstr (lowercase str) (lowercase substr)) as [k|].
  - split; [by eauto|done].
  - split; [done|]. by intros (k & ?).
Qed.

Lemma strContains_empty (str : cstring) : strContains str [] = true.
Proof. unfold strContains. by destruct (lower_copy str). Qed.

(** The rows of the loop are the records that match, in their order. *)
Lemma rows_print_matches matches (l : list Incident) :
  forall found, rows (print_matches matches l found).1 = List.filter matches l.
Proof.
  induction l as [|inc l IH]; intros found; cbn [print_matches List.filter]; [done|].
  destruct (matches inc).
  - specialize (IH true). destruct (print_matches matches l true) as [out f].
    cbn [fst rows] in *. by rewrite IH.
  - apply IH.
Qed.

Lemma rows_app out1 out2 : rows (out1 ++ out2) = rows out1 ++ rows out2.
Proof.
  induction out1 as [|m out1 IH]; [done|]. destruct m; cbn; by rewrite ?IH.
Qed.

Lemma collection_empty st : incidentCount st = 0 -> collection st = [].
Proof. unfold collection. by intros ->. Qed.

(** The full table lists the records in use, in their order. *)
Lemma rows_viewAllIncidents st : rows (viewAllIncidents st) = collection st.
Proof.
  unfold viewAllIncidents. destruct (incidentCount st =? 0) eqn:E.
  - apply Nat.eqb_eq in E. by rewrite collection_empty.
  - cbn [rows]. induction (collection st) as [|inc l IH]; [done|].
    cbn [map rows]. by rewrite IH.
Qed.

Lemma rows_viewIncidentsByArea needle st :
  rows (viewIncidentsByArea needle st)
  = List.filter (fun inc => strContains (area inc) needle) (collection st).
Proof.
  unfold viewIncidentsByArea. destruct (incidentCount st =? 0) eqn:E.
  - apply Nat.eqb_eq in E. by rewrite collection_empty.
  - rewrite <- (rows_print_matches _ _ false).
    destruct (print_matches _ (collection st) false) as [out found].
    cbn [rows fst]. rewrite rows_app. destruct found; cbn; by rewrite app_nil_r.
Qed.

Lemma rows_viewIncidentsByType needle st :
  rows (viewIncidentsByType needle st)
  = List.filter (fun inc => strContains (type inc) needle) (collection st).
Proof.
  unfold viewIncidentsByType. destruct (incidentCount st =? 0) eqn:E.
  - apply Nat.eqb_eq in E. by rewrite collection_empty.
  - rewrite <- (rows_print_matches _ _ false).
    destruct (print_matches _ (collection st) false) as [out found].
    cbn [rows fst]. rewrite rows_app. destruct found; cbn; by rewrite app_nil_r.
Qed.

Section Filter.

Context {A : Type} (f : A -> bool).

Lemma filter_sublist (l : list A) : sublist (List.filter f l) l.
Proof.
  induction l as [|x l IH]; cbn [List.filter]; [constructor|].
  destruct (f x); by constructor.
Qed.

Lemma filter_all (l : list A) : (forall x, f x = true) -> List.filter f l = l.
Proof.
  intros H. induction l as [|x l IH]; cbn [List.filter]; [done|].
  by rewrite H, IH.
Qed.

End Filter.

(** The law for one field of the records. *)
Lemma filter_law (field : Incident -> cstring) (needle : cstring) (l : list Incident) :
  length needle <= MAX_STRING_LENGTH - 1 ->
  (forall r, r ∈ l -> length (field r) <= MAX_STRING_LENGTH - 1) ->
  forall r,
    r ∈ List.filter (fun inc => strContains (field inc) needle) l <->
    r ∈ l /\ substring (lowercase needle) (lowercase (field r)).
Proof.
  intros Hn Hl r. rewrite list_elem_of_In, filter_In, <- list_elem_of_In.
  split.
  - intros [Hin Hm]. split; [done|]. apply strContains_spec in Hm; auto.
  - intros [Hin Hsub]. split; [done|]. apply strContains_spec; auto.
Qed.

(** C4.  The containment law of the filters.  For a needle and records
    within the bound of the free-form fields, the area view lists a record
    exactly when it is in use and the case-folded needle occurs in its
    case-folded area; the rows come in the order of the collection; the
    empty needle lists every record; and the same holds of the type view. *)
Theorem filter_containment (needle : cstring) (st : State) :
  length needle <= MAX_AREA_LENGTH - 1 ->
  (forall r, r ∈ collection st ->
             length (area r) <= MAX_AREA_LENGTH - 1 /\
             length (type r) <= MAX_TYPE_LENGTH - 1) ->
  (forall r, r ∈ rows (viewIncidentsByArea needle st) <->
             r ∈ collection st /\ substring (lowercase needle) (lowercase (area r))) /\
  sublist (rows (viewIncidentsByArea needle st)) (collection st) /\
  rows (viewIncidentsByArea [] st) = collection st /\
  (forall r, r ∈ rows (viewIncidentsByType needle st) <->
             r ∈ collection st /\ substring (lowercase needle) (lowercase (type r))) /\
  sublist (rows (viewIncidentsByType needle st)) (collection st) /\
  rows (viewIncidentsByType [] st) = collection st.
Proof.
  intros Hn Hfields.
  assert (Hn' : length needle <= MAX_STRING_LENGTH - 1).
  { change (MAX_AREA_LENGTH - 1) with 49 in Hn.
    change (MAX_STRING_LENGTH - 1) with 99. lia. }
  rewrite !rows_viewIncidentsByArea, !rows_viewIncidentsByType.
  split; [|split; [|split; [|split; [|split]]]].
  - apply filter_law; [done|]. intros r Hin.
    destruct (Hfields r Hin) as [Ha _].
    change (MAX_AREA_LENGTH - 1) with 49 in Ha.
    change (MAX_STRING_LENGTH - 1) with 99. lia.
  - apply filter_sublist.
  - apply filter_all. intros x. apply strContains_empty.
  - apply filter_law; [done|]. intros r Hin.
    destruct (Hfields r Hin) as [_ Ht].
    change (MAX_TYPE_LENGTH - 1) with 49 in Ht.
    change (MAX_STRING_LENGTH - 1) with 99. lia.
  - apply filter_sublist.
  - apply filter_all. intros x. apply strContains_empty.
Qed.

Lemma filter_containment_witness :
  pothole ∈ rows (viewIncidentsByArea (lit "main") two_reports) /\
  oak_ave ∈ rows (viewIncidentsByType (lit "LIGHT") two_reports).
Proof.
  destruct (filter_containment (lit "main") two_reports) as (Harea & _).
  { vm_compute. lia. }
  { intros r H. vm_compute in H.
    apply elem_of_cons in H as [->|H]; [vm_compute; lia|].
    apply elem_of_cons in H as [->|H]; [vm_compute; lia|].
    by apply elem_of_nil in H. }
  destruct (filter_containment (lit "LIGHT") two_reports) as (_ & _ & _ & Htype & _).
  { vm_compute. lia. }
  { intros r H. vm_compute in H.
    apply elem_of_cons in H as [->|H]; [vm_compute; lia|].
    apply elem_of_cons in H as [->|H]; [vm_compute; lia|].
    by apply elem_of_nil in H. }
  split.
  - apply Harea. split; [apply list_elem_of_here|].
    exists [], (lit " st"). reflexivity.
  - apply Htype. split; [apply list_elem_of_further, list_elem_of_here|].
    exists (lit "street"), []. reflexivity.
Defined.

(* ===================================================================== *)
(** ** The time check                                                     *)
(* ===================================================================== *)

(** C5.  [isValidTimeFormat] on the strings the specification names and on
    the times of day.  Every two-digit time from 00:00 to 23:59 is accepted,
    "14:30" among them; "24:00", "abc" and "14:30x" are rejected; but "9:5"
    is accepted, and so are other strings that are not of the form HH:MM,
    since ["%d"] takes white space, a sign and any number of digits. *)
Theorem time_check_cases :
  Forall (fun h => Forall (fun m => isValidTimeFormat (hh_mm h m) = true) (seq 0 60))
         (seq 0 24) /\
  isValidTimeFormat (lit "14:30") = true /\
  isValidTimeFormat (lit "24:00") = false /\
  isValidTimeFormat (lit "abc") = false /\
  isValidTimeFormat (lit "14:30x") = false /\
  isValidTimeFormat (lit "9:5") = true /\
  isValidTimeFormat (lit " +9:-0") = true /\
  isValidTimeFormat (lit "0014:0030") = true.
Proof.
  split; [|repeat split].
  assert (H : forallb (fun h => forallb (fun m => isValidTimeFormat (hh_mm h m)) (seq 0 60))
                      (seq 0 24) = true) by (vm_compute; reflexivity).
  rewrite forallb_forall in H.
  apply Forall_forall. intros h Hh%list_elem_of_In.
  specialize (H h Hh). rewrite forallb_forall in H.
  apply Forall_forall. intros m Hm%list_elem_of_In. by apply H.
Qed.

(* ===================================================================== *)
(** ** The prompts on the standard input                                  *)
(* ===================================================================== *)

Lemma fgets_app size (stdin buf rest : list ascii) :
  fgets size stdin = Some (buf, rest) -> stdin = buf ++ rest.
Proof.
  unfold fgets. destruct stdin as [|c stdin]; [done|].
  generalize (size - 1). intros room H.
  assert (H0 : read_chars room (c :: stdin) = (buf, rest)) by congruence.
  by apply read_chars_app in H0.
Qed.

Lemma fgets_shorter size (stdin buf rest : list ascii) :
  2 <= size -> fgets size stdin = Some (buf, rest) -> length rest < length stdin.
Proof.
  intros Hsize. unfold fgets. destruct stdin as [|c stdin]; [done|].
  assert (Hroom : 0 < size - 1) by lia.
  revert Hroom. generalize (size - 1). intros room Hroom H.
  assert (H0 : read_chars room (c :: stdin) = (buf, rest)) by congruence.
  apply read_chars_progress in H0; [cbn [length]; lia|done].
Qed.

Lemma read_chars_all room (body : list ascii) :
  NL ∉ body -> length body <= room -> read_chars room body = (body, []).
Proof.
  revert room. induction body as [|c body IH]; intros room Hnl Hlen.
  - by destruct room.
  - apply not_elem_of_cons in Hnl as [Hc Hnl].
    destruct room as [|room]; [cbn [length] in Hlen; lia|]. cbn [read_chars].
    destruct (Ascii.eqb_spec c NL) as [->|_]; [done|].
    rewrite IH; [done|done|cbn [length] in Hlen; lia].
Qed.

Lemma read_chars_full room (pre more : list ascii) :
  NL ∉ pre -> length pre = room -> read_chars room (pre ++ more) = (pre, more).
Proof.
  revert room. induction pre as [|c pre IH]; intros room Hnl Hlen.
  - cbn [length] in Hlen. subst room. by destruct more.
  - apply not_elem_of_cons in Hnl as [Hc Hnl].
    destruct room as [|room]; [done|]. cbn [read_chars app].
    destruct (Ascii.eqb_spec c NL) as [->|_]; [done|].
    rewrite IH; [done|done|cbn [length] in Hlen; lia].
Qed.

(** What [fgets] gives the prompts for an answer followed by its newline,
    for a last answer without one, and for an answer that fills the buffer. *)
Lemma fgets_answer size (body rest : list ascii) :
  NL ∉ body -> length body + 2 <= size ->
  fgets size (body ++ NL :: rest) = Some (body ++ [NL], rest).
Proof.
  intros Hnl Hlen. unfold fgets.
  destruct (body ++ NL :: rest) eqn:E; [by destruct body|]. rewrite <- E.
  rewrite read_chars_line; [done|done|lia].
Qed.

Lemma fgets_last_answer size (body : list ascii) :
  body <> [] -> NL ∉ body -> length body + 1 <= size ->
  fgets size body = Some (body, []).
Proof.
  intros Hne Hnl Hlen. unfold fgets. destruct body as [|c b]; [done|].
  rewrite read_chars_all; [done|done|lia].
Qed.

Lemma fgets_filled size (pre more : list ascii) :
  pre <> [] -> NL ∉ pre -> length pre + 1 = size ->
  fgets size (pre ++ more) = Some (pre, more).
Proof.
  intros Hne Hnl Hlen. unfold fgets.
  destruct (pre ++ more) eqn:E; [by destruct pre|]. rewrite <- E.
  rewrite read_chars_full; [done|done|lia].
Qed.

Lemma typed_input (s : cstring) : typed s -> strip_newline (c_str s) = s.
Proof. intros [Hnl Hnul]. rewrite c_str_cstring by done. by apply strip_newline_id. Qed.

Lemma typed_line_input (s : cstring) : typed s -> strip_newline (c_str (s ++ [NL])) = s.
Proof. intros [Hnl Hnul]. rewrite strip_newline_c_str by done. by apply c_str_cstring. Qed.

(** One turn of each prompt on an answer with its newline. *)
Lemma string_turn_answer maxLength (body rest : cstring) :
  typed body -> length body + 2 <= maxLength ->
  string_turn maxLength (body ++ NL :: rest)
  = (if length body =? 0 then None else Some body, rest).
Proof.
  intros Hbody Hlen. unfold string_turn.
  rewrite fgets_answer by (done || apply Hbody). rewrite typed_line_input by done.
  destruct (length body =? 0); [done|].
  destruct (maxLength - 1 <=? length body) eqn:E; [|done].
  apply Nat.leb_le in E. lia.
Qed.

Lemma time_turn_answer maxLength (body rest : cstring) :
  typed body -> length body + 2 <= maxLength ->
  time_turn maxLength (body ++ NL :: rest)
  = (if length body =? 0 then None
     else if isValidTimeFormat body then Some body else None, rest).
Proof.
  intros Hbody Hlen. unfold time_turn.
  rewrite fgets_answer by (done || apply Hbody). rewrite typed_line_input by done.
  destruct (length body =? 0); [done|]. by destruct (isValidTimeFormat body).
Qed.

Lemma c_str_tail (buf : list ascii) :
  exists tail, buf = c_str buf ++ tail /\ (tail = [] \/ exists junk, tail = NUL :: junk).
Proof.
  induction buf as [|b buf (tail & IH & Htail)]; cbn [c_str].
  - exists []. split; [done|by left].
  - destruct (Ascii.eqb_spec b NUL) as [->|Hb].
    + exists (NUL :: buf). split; [done|]. right. by eexists.
    + exists tail. cbn [app]. split; [by f_equal|done].
Qed.

(** When [fgets] stops before the buffer is full and not behind a newline,
    the input is at its end. *)
Lemma read_chars_short room (stream : list ascii) :
  forall buf rest, read_chars room stream = (buf, rest) ->
  length buf < room -> last buf <> Some NL -> rest = [].
Proof.
  revert stream. induction room as [|room IH]; intros [|c stream] buf rest;
    cbn [read_chars]; try (intros [= <- <-]; cbn [length]; (done || lia)).
  destruct (Ascii.eqb_spec c NL) as [->|Hc]; [by intros [= <- <-]|].
  destruct (read_chars room stream) as [b r] eqn:E. intros [= <- <-] Hlen Hlast.
  apply (IH stream b r E); [cbn [length] in Hlen; lia|].
  destruct b as [|b0 b]; [done|]. by rewrite last_cons_cons in Hlast.
Qed.

(** Where the string a prompt works on lies in the buffer [fgets] filled:
    at its beginning, followed by the newline, by nothing (the input is at
    its end, or the buffer is full), or by a NUL that was in the input. *)
Lemma fgets_input_shape size (stdin buf rest : list ascii) :
  fgets size stdin = Some (buf, rest) ->
  exists after,
    buf = strip_newline (c_str buf) ++ after /\
    (after = [NL] \/
     (after = [] /\ (rest = [] \/ length (strip_newline (c_str buf)) = size - 1)) \/
     exists junk, after = NUL :: junk).
Proof.
  unfold fgets. destruct stdin as [|c stdin]; [done|].
  generalize (size - 1). intros room H.
  assert (H0 : read_chars room (c :: stdin) = (buf, rest)) by congruence. clear H.
  destruct (read_chars_newline _ _ _ _ H0) as [Hlen Hnl].
  destruct (c_str_tail buf) as (tail & Hbuf & [->|[junk ->]]).
  - rewrite app_nil_r in Hbuf. rewrite <- Hbuf.
    assert (Hend : last buf <> Some NL -> rest = [] \/ length buf = room).
    { intros Hlast. destruct (decide (length buf = room)) as [?|Hne]; [by right|left].
      eapply read_chars_short; [done|lia|done]. }
    destruct (last buf) as [l|] eqn:El.
    + destruct (Ascii.eqb_spec l NL) as [->|Hl].
      * apply last_Some in El as [s ->]. exists [NL]. rewrite strip_newline_snoc.
        split; [done|by left].
      * exists []. unfold strip_newline. rewrite El.
        destruct (Ascii.eqb_spec l NL) as [?|_]; [done|]. rewrite app_nil_r.
        split; [done|]. right; left. split; [done|]. apply Hend. congruence.
    + exists []. unfold strip_newline. rewrite El, app_nil_r.
      split; [done|]. right; left. split; [done|]. by apply Hend.
  - assert (Hno : NL ∉ c_str buf).
    { intros Hin. apply list_elem_of_split in Hin as (p & q & Hpq).
      specialize (Hnl p (q ++ NUL :: junk)).
      rewrite Hbuf, Hpq, <- app_assoc in Hnl. cbn [app] in Hnl.
      specialize (Hnl eq_refl). by destruct q. }
    rewrite strip_newline_id by done. exists (NUL :: junk).
    split; [done|]. right; right. by eexists.
Qed.

(** What a prompt returns is a piece of the input: behind the answers it
    refused and in front of the input it leaves, from which only the end of
    its line parts it. *)
Lemma validateStringInput_segment fuel maxLength :
  forall stdin input rest,
  validateStringInput fuel maxLength stdin = Some (input, rest) ->
  exists before after,
    stdin = before ++ input ++ after ++ rest /\
    (after = [NL] \/ (after = [] /\ rest = []) \/ exists junk, after = NUL :: junk).
Proof.
  induction fuel as [|fuel IH]; intros stdin input rest; [done|].
  cbn [validateStringInput]. unfold string_turn.
  destruct (fgets maxLength stdin) as [[buf r]|] eqn:E; [|apply IH].
  pose proof (fgets_app _ _ _ _ E) as ->.
  assert (Hrec : validateStringInput fuel maxLength r = Some (input, rest) ->
                 exists before after,
                   buf ++ r = before ++ input ++ after ++ rest /\
                   (after = [NL] \/ (after = [] /\ rest = []) \/
                    exists junk, after = NUL :: junk)).
  { intros (before & after & -> & Hafter)%IH. exists (buf ++ before), after.
    by rewrite <- app_assoc. }
  destruct (length (strip_newline (c_str buf)) =? 0) eqn:E0; [done|].
  destruct (maxLength - 1 <=? length (strip_newline (c_str buf))) eqn:E1; [done|].
  intros [= <- <-]. apply Nat.leb_gt in E1.
  destruct (fgets_input_shape _ _ _ _ E) as (after & Hbuf & Hafter).
  exists [], after. cbn [app]. split; [by rewrite app_assoc, <- Hbuf|].
  destruct Hafter as [->|[[-> [->|Hfull]]|Hj]];
    [by left|by right; left|lia|by right; right].
Qed.


(** The input a prompt leaves is the end of the input it was given, and
    something was read in front of it. *)
Lemma validateStringInput_consumes fuel maxLength :
  forall stdin input rest,
  validateStringInput fuel maxLength stdin = Some (input, rest) ->
  exists consumed, stdin = consumed ++ rest /\ consumed <> [].
Proof.
  induction fuel as [|fuel IH]; intros stdin input rest; [done|].
  cbn [validateStringInput]. unfold string_turn.
  destruct (fgets maxLength stdin) as [[buf r]|] eqn:E.
  - pose proof (fgets_app _ _ _ _ E) as ->.
    assert (Hrec : validateStringInput fuel maxLength r = Some (input, rest) ->
                   exists consumed, buf ++ r = consumed ++ rest /\ consumed <> []).
    { intros (consumed & -> & Hne)%IH. exists (buf ++ consumed).
      rewrite <- app_assoc. split; [done|].
      intros [_ ->]%app_eq_nil. done. }
    destruct (length (strip_newline (c_str buf)) =? 0) eqn:E0; [done|].
    destruct (maxLength - 1 <=? length (strip_newline (c_str buf))); [done|].
    intros [= <- <-]. exists buf. split; [done|].
    intros ->. by cbn in E0.
  - apply IH.
Qed.

Lemma validateTimeInput_consumes fuel maxLength :
  forall stdin input rest,
  validateTimeInput fuel maxLength stdin = Some (input, rest) ->
  exists consumed, stdin = consumed ++ rest /\ consumed <> [].
Proof.
  induction fuel as [|fuel IH]; intros stdin input rest; [done|].
  cbn [validateTimeInput]. unfold time_turn.
  destruct (fgets maxLength stdin) as [[buf r]|] eqn:E.
  - pose proof (fgets_app _ _ _ _ E) as ->.
    assert (Hrec : validateTimeInput fuel maxLength r = Some (input, rest) ->
                   exists consumed, buf ++ r = consumed ++ rest /\ consumed <> []).
    { intros (consumed & -> & Hne)%IH. exists (buf ++ consumed).
      rewrite <- app_assoc. split; [done|].
      intros [_ ->]%app_eq_nil. done. }
    destruct (length (strip_newline (c_str buf)) =? 0) eqn:E0; [done|].
    destruct (isValidTimeFormat (strip_newline (c_str buf))); cbn [negb]; [|done].
    intros [= <- <-]. exists buf. split; [done|].
    intros ->. by cbn in E0.
  - apply IH.
Qed.



(** X2.  An answer [validateStringInput] accepts at once.  A line of 1 to
    [maxLength - 2] characters, without NUL, is returned as it is in the
    first turn, whether it ends with its newline (the input after the
    newline is left) or with the end of the input. *)
Theorem string_prompt_accepts fuel maxLength (body rest : cstring) :
  typed body -> body <> [] -> length body + 2 <= maxLength ->
  validateStringInput (S fuel) maxLength (body ++ NL :: rest) = Some (body, rest) /\
  validateStringInput (S fuel) maxLength body = Some (body, []).
Proof.
  intros Hbody Hne Hlen. cbn [validateStringInput]. split.
  - rewrite string_turn_answer by done.
    destruct (length body =? 0) eqn:E; [|done].
    apply Nat.eqb_eq in E. by destruct body.
  - unfold string_turn.
    rewrite fgets_last_answer by (done || apply Hbody || lia).
    rewrite typed_input by done.
    destruct (length body =? 0) eqn:E; [apply Nat.eqb_eq in E; by destruct body|].
    destruct (maxLength - 1 <=? length body) eqn:E1; [|done].
    apply Nat.leb_le in E1. lia.
Qed.

Lemma string_prompt_accepts_witness :
  validateStringInput 1 MAX_AREA_LENGTH (lit "Main St" ++ NL :: lit "pothole")
  = Some (lit "Main St", lit "pothole") /\
  validateStringInput 1 MAX_AREA_LENGTH (lit "Main St") = Some (lit "Main St", []).
Proof.
  apply (string_prompt_accepts 0 MAX_AREA_LENGTH (lit "Main St") (lit "pothole")).
  - split; compute_done.
  - discriminate.
  - vm_compute. lia.
Defined.

(** X3.  An answer too long for the buffer.  When a line has
    [maxLength - 1] characters or more, the first [maxLength - 1] are read
    alone and refused as too long, and the prompt reads on in the same line:
    if 1 to [maxLength - 2] characters are left before the newline, they are
    returned as the answer; if none is left, the newline is read as an
    empty answer and the prompt asks again. *)
Theorem string_prompt_long_answer fuel maxLength (body rest : cstring) :
  typed body -> 2 <= maxLength -> maxLength - 1 <= length body ->
  (drop (maxLength - 1) body <> [] ->
   length (drop (maxLength - 1) body) + 2 <= maxLength ->
   validateStringInput (S (S fuel)) maxLength (body ++ NL :: rest)
   = Some (drop (maxLength - 1) body, rest)) /\
  (drop (maxLength - 1) body = [] ->
   validateStringInput (S (S fuel)) maxLength (body ++ NL :: rest)
   = validateStringInput fuel maxLength rest).
Proof.
  intros [Hnl Hnul] Hsize Hlong.
  assert (Hpre : typed (take (maxLength - 1) body)).
  { split; intros Hin; apply elem_of_take in Hin as (i & Hin & _);
      apply list_elem_of_lookup_2 in Hin; done. }
  assert (Htail : typed (drop (maxLength - 1) body)).
  { split; intros Hin; apply list_elem_of_lookup in Hin as (i & Hin);
      rewrite lookup_drop in Hin; apply list_elem_of_lookup_2 in Hin; done. }
  assert (Hlen : length (take (maxLength - 1) body) = maxLength - 1)
    by (rewrite length_take; lia).
  assert (Hfirst :
    validateStringInput (S (S fuel)) maxLength (body ++ NL :: rest)
    = validateStringInput (S fuel) maxLength (drop (maxLength - 1) body ++ NL :: rest)).
  { rewrite <- (take_drop (maxLength - 1) body) at 1. rewrite <- app_assoc.
    cbn [validateStringInput]. unfold string_turn at 1.
    rewrite fgets_filled; [|by intros E; rewrite E in Hlen; cbn in Hlen; lia|apply Hpre|lia].
    rewrite typed_input by done. rewrite Hlen.
    destruct (maxLength - 1 =? 0) eqn:E0; [apply Nat.eqb_eq in E0; lia|].
    by rewrite Nat.leb_refl. }
  rewrite Hfirst. cbn [validateStringInput]. split.
  - intros Hne Hfit. rewrite string_turn_answer by done.
    destruct (length (drop (maxLength - 1) body) =? 0) eqn:E; [|done].
    apply Nat.eqb_eq in E. by destruct (drop (maxLength - 1) body).
  - intros ->. rewrite string_turn_answer; [done|split; apply not_elem_of_nil|cbn; lia].
Qed.

Lemma string_prompt_long_answer_witness :
  validateStringInput 2 MAX_AREA_LENGTH
    (replicate 49 "x"%char ++ lit "Main St" ++ NL :: lit "pothole")
  = Some (lit "Main St", lit "pothole").
Proof.
  destruct (string_prompt_long_answer 0 MAX_AREA_LENGTH
              (replicate 49 "x"%char ++ lit "Main St") (lit "pothole")) as [H _].
  - split; compute_done.
  - vm_compute. lia.
  - vm_compute. lia.
  - rewrite <- app_assoc in H. apply H.
    + discriminate.
    + vm_compute. lia.
Defined.

Lemma validateStringInput_eof fuel maxLength : validateStringInput fuel maxLength [] = None.
Proof.
  induction fuel as [|fuel IH]; [done|]. cbn [validateStringInput].
  unfold string_turn, fgets. exact IH.
Qed.

Lemma validateTimeInput_eof fuel maxLength : validateTimeInput fuel maxLength [] = None.
Proof.
  induction fuel as [|fuel IH]; [done|]. cbn [validateTimeInput].
  unfold time_turn, fgets. exact IH.
Qed.

(** With a buffer of one character or none, nothing is ever read. *)
Lemma fgets_tiny size (stdin buf rest : list ascii) :
  size <= 1 -> fgets size stdin = Some (buf, rest) -> buf = [] /\ rest = stdin.
Proof.
  intros Hsize. unfold fgets. destruct stdin as [|c stdin]; [done|].
  replace (size - 1) with 0 by lia. cbn [read_chars]. by intros [= <- <-].
Qed.

Lemma validateStringInput_tiny fuel maxLength :
  maxLength <= 1 -> forall stdin, validateStringInput fuel maxLength stdin = None.
Proof.
  intros Hsize. induction fuel as [|fuel IH]; intros stdin; [done|].
  cbn [validateStringInput]. unfold string_turn.
  destruct (fgets maxLength stdin) as [[buf r]|] eqn:E; [|apply IH].
  apply fgets_tiny in E as [-> ->]; [|done]. cbn. apply IH.
Qed.

Lemma validateTimeInput_tiny fuel maxLength :
  maxLength <= 1 -> forall stdin, validateTimeInput fuel maxLength stdin = None.
Proof.
  intros Hsize. induction fuel as [|fuel IH]; intros stdin; [done|].
  cbn [validateTimeInput]. unfold time_turn.
  destruct (fgets maxLength stdin) as [[buf r]|] eqn:E; [|apply IH].
  apply fgets_tiny in E as [-> ->]; [|done]. cbn. apply IH.
Qed.

Lemma validateStringInput_fuel maxLength f1 :
  forall f2 stdin, length stdin < f1 -> f1 <= f2 ->
  validateStringInput f1 maxLength stdin = validateStringInput f2 maxLength stdin.
Proof.
  destruct (le_lt_dec maxLength 1) as [Htiny|Hsize].
  { intros. by rewrite !validateStringInput_tiny. }
  induction f1 as [|f1 IH]; intros f2 stdin H1 H2; [lia|].
  destruct f2 as [|f2]; [lia|]. cbn [validateStringInput]. unfold string_turn.
  destruct (fgets maxLength stdin) as [[buf r]|] eqn:E.
  - apply fgets_shorter in E; [|lia].
    destruct (length (strip_newline (c_str buf)) =? 0); [apply IH; lia|].
    destruct (maxLength - 1 <=? length (strip_newline (c_str buf))); [apply IH; lia|done].
  - destruct stdin; [|done]. by rewrite !validateStringInput_eof.
Qed.

Lemma validateTimeInput_fuel maxLength f1 :
  forall f2 stdin, length stdin < f1 -> f1 <= f2 ->
  validateTimeInput f1 maxLength stdin = validateTimeInput f2 maxLength stdin.
Proof.
  destruct (le_lt_dec maxLength 1) as [Htiny|Hsize].
  { intros. by rewrite !validateTimeInput_tiny. }
  induction f1 as [|f1 IH]; intros f2 stdin H1 H2; [lia|].
  destruct f2 as [|f2]; [lia|]. cbn [validateTimeInput]. unfold time_turn.
  destruct (fgets maxLength stdin) as [[buf r]|] eqn:E.
  - apply fgets_shorter in E; [|lia].
    destruct (length (strip_newline (c_str buf)) =? 0); [apply IH; lia|].
    destruct (isValidTimeFormat (strip_newline (c_str buf))); cbn [negb];
      [done|apply IH; lia].
  - destruct stdin; [|done]. by rewrite !validateTimeInput_eof.
Qed.

(** X4.  The prompts and the end of the input.  A prompt that has not
    returned after one turn more than the input has characters never
    returns: more turns change nothing, since at the end of the input
    [fgets] gives NULL and the loop goes round without reading.  In
    particular neither prompt returns on an input that is at its end. *)
Theorem prompts_at_end_of_input :
  (forall maxLength f1 f2 stdin,
      length stdin < f1 -> f1 <= f2 ->
      validateStringInput f1 maxLength stdin = validateStringInput f2 maxLength stdin /\
      validateTimeInput f1 maxLength stdin = validateTimeInput f2 maxLength stdin) /\
  (forall maxLength fuel,
      validateStringInput fuel maxLength [] = None /\
      validateTimeInput fuel maxLength [] = None).
Proof.
  split.
  - intros maxLength f1 f2 stdin H1 H2.
    split; [by apply validateStringInput_fuel|by apply validateTimeInput_fuel].
  - intros maxLength fuel.
    split; [apply validateStringInput_eof|apply validateTimeInput_eof].
Qed.

Lemma prompts_at_end_of_input_witness :
  validateStringInput 2 MAX_AREA_LENGTH [NL] = validateStringInput 1000 MAX_AREA_LENGTH [NL] /\
  validateTimeInput 2 MAX_TIME_LENGTH [NL] = validateTimeInput 1000 MAX_TIME_LENGTH [NL].
Proof.
  destruct prompts_at_end_of_input as [H _].
  split.
  - apply (H MAX_AREA_LENGTH 2 1000 [NL]); cbn; lia.
  - apply (H MAX_TIME_LENGTH 2 1000 [NL]); cbn; lia.
Defined.



(** X6.  [validateTimeInput] decides by [isValidTimeFormat].  For a line of
    at most [maxLength - 2] characters, without NUL: if the check accepts
    it, it is returned in the first turn; if not (the empty line included),
    the line is used up and the prompt asks again on what follows. *)
Theorem time_prompt_checks_format fuel maxLength (body rest : cstring) :
  typed body -> length body + 2 <= maxLength ->
  validateTimeInput (S fuel) maxLength (body ++ NL :: rest)
  = if isValidTimeFormat body then Some (body, rest)
    else validateTimeInput fuel maxLength rest.
Proof.
  intros Hbody Hlen. cbn [validateTimeInput]. rewrite time_turn_answer by done.
  destruct (length body =? 0) eqn:E.
  - apply Nat.eqb_eq in E. destruct body; [|done]. reflexivity.
  - by destruct (isValidTimeFormat body).
Qed.

Lemma time_prompt_checks_format_witness :
  validateTimeInput 2 MAX_TIME_LENGTH (lit "25:61" ++ NL :: lit "08:15" ++ NL :: lit "next")
  = validateTimeInput 1 MAX_TIME_LENGTH (lit "08:15" ++ NL :: lit "next") /\
  validateTimeInput 1 MAX_TIME_LENGTH (lit "08:15" ++ NL :: lit "next")
  = Some (lit "08:15", lit "next").
Proof.
  split.
  - apply (time_prompt_checks_format 1 MAX_TIME_LENGTH (lit "25:61")
             (lit "08:15" ++ NL :: lit "next")).
    + split; compute_done.
    + vm_compute. lia.
  - apply (time_prompt_checks_format 0 MAX_TIME_LENGTH (lit "08:15") (lit "next")).
    + split; compute_done.
    + vm_compute. lia.
Defined.

(* ===================================================================== *)
(** ** The strings [isValidTimeFormat] accepts                            *)
(* ===================================================================== *)

(** X7.  The strings [isValidTimeFormat] accepts, exactly.  A string is
    accepted when, and only when, it is two numerals with a colon between
    them and nothing after them, the first giving an [int] from 0 to 23 and
    the second one from 0 to 59; a numeral being what ["%d"] takes: white
    space, perhaps a sign, and one digit or more, and the [int] it gives
    being the number cut to the range of [long] and then to its low 32
    bits.  So "4294967296:00" is accepted, its hours being 0 in 32 bits;
    "18446744073709551616:05" is refused, [LONG_MAX] giving -1; and
    "-9223372036854775809:00" is accepted, [LONG_MIN] giving 0. *)
Theorem time_check_language :
  (forall s : cstring,
      isValidTimeFormat s = true <->
      exists hours minutes h m,
        s = hours ++ COLON :: minutes /\
        numeral hours h /\ numeral minutes m /\
        (0 <= h <= 23)%Z /\ (0 <= m <= 59)%Z) /\
  isValidTimeFormat (lit "4294967296:00") = true /\
  isValidTimeFormat (lit "18446744073709551616:05") = false /\
  isValidTimeFormat (lit "-9223372036854775809:00") = true.
Proof.
  split; [|by vm_compute]. intros s.
  unfold isValidTimeFormat, sscanf, time_format. cbn [scan conv]. split.
  - destruct (scan_int s) as [v1 r1| | |] eqn:E1; try done.
    2:{ by destruct (scan_int_not_Skipped _ _ E1). }
    apply scan_int_is_numeral in E1 as (hours & h & -> & -> & Hh & _).
    destruct r1 as [|c r1]; [done|]. cbn [app length].
    destruct (Ascii.eqb_spec c COLON) as [->|_]; [|done].
    destruct (scan_int r1) as [v2 r2| | |] eqn:E2; try done.
    2:{ by destruct (scan_int_not_Skipped _ _ E2). }
    apply scan_int_is_numeral in E2 as (minutes & m & -> & -> & Hm & _).
    destruct r2 as [|c2 r2]; [|done]. cbn [app length int_arg negb].
    change (Z.of_nat 2 =? 2)%Z with true. cbn [negb lookup].
    unfold int_arg. cbn.
    destruct (h <? 0)%Z eqn:A; [done|]. destruct (h >? 23)%Z eqn:B; [done|].
    destruct (m <? 0)%Z eqn:C; [done|]. destruct (m >? 59)%Z eqn:D; [done|].
    intros _. exists hours, (minutes ++ []), h, m. rewrite app_nil_r.
    repeat split; try done; lia.
  - intros (hours & minutes & h & m & -> & Hh & Hm & Hhr & Hmr).
    rewrite (scan_int_numeral hours (COLON :: minutes) h) by done.
    cbn [app length]. rewrite Ascii.eqb_refl.
    rewrite <- (app_nil_r minutes), (scan_int_numeral minutes [] m) by done.
    cbn.
    destruct (h <? 0)%Z eqn:A; [lia|]. destruct (h >? 23)%Z eqn:B; [lia|].
    destruct (m <? 0)%Z eqn:C; [lia|]. destruct (m >? 59)%Z eqn:D; [lia|]. done.
Qed.

Lemma time_check_language_witness : isValidTimeFormat (lit "9:5") = true.
Proof.
  destruct time_check_language as [H _]. apply (H (lit "9:5")).
  exists (lit "9"), (lit "5"), 9%Z, 5%Z.
  split; [reflexivity|]. split; [|split; [|lia]].
  - exists [], [], (lit "9"). split; [reflexivity|]. split; [constructor|].
    split; [by left|]. split; [discriminate|]. split; [|reflexivity].
    constructor; [reflexivity|constructor].
  - exists [], [], (lit "5"). split; [reflexivity|]. split; [constructor|].
    split; [by left|]. split; [discriminate|]. split; [|reflexivity].
    constructor; [reflexivity|constructor].
Defined.

(* ===================================================================== *)
(** ** More on the filters and the listings                               *)
(* ===================================================================== *)

Lemma lower_copy_lowercase (s : cstring) :
  lower_copy s = take (MAX_STRING_LENGTH - 1) (lowercase s).
Proof.
  unfold lower_copy, lowercase.
  change (map tolower) with (fmap (M := list) tolower). by rewrite fmap_take.
Qed.

(** X8.  [strContains] for strings of any length.  Only the first 99
    characters of each string count: the result is true exactly when the
    case-folded first 99 characters of the needle occur in the case-folded
    first 99 characters of the haystack.  So a needle of 100 characters or
    more is never found in full, and an occurrence that ends after the 99th
    character of the haystack is not seen. *)
Theorem strContains_truncates (str substr : cstring) :
  (strContains str substr = true <->
   substring (lowercase (take (MAX_STRING_LENGTH - 1) substr))
             (lowercase (take (MAX_STRING_LENGTH - 1) str))) /\
  strContains str substr
  = strContains (take (MAX_STRING_LENGTH - 1) str) (take (MAX_STRING_LENGTH - 1) substr).
Proof.
  split.
  - unfold strContains, lower_copy, lowercase. rewrite <- strstr_spec.
    destruct (strstr _ _) as [k|]; [split; [by eauto|done]|].
    split; [done|]. by intros (k & ?).
  - unfold strContains, lower_copy. by rewrite !take_take, !Nat.min_id.
Qed.

Lemma strContains_truncates_witness : strContains (lit "Main St") (lit "AIN s") = true.
Proof.
  destruct (strContains_truncates (lit "Main St") (lit "AIN s")) as [[_ H] _].
  apply H. exists (lit "m"), (lit "t"). reflexivity.
Defined.

(** X9.  The filters do not see the case of letters.  Two needles that are
    equal after case folding give the same rows in both filtered views, and
    [strContains] gives the same answer for haystacks that are equal after
    case folding. *)
Theorem filters_ignore_case (needle1 needle2 : cstring) :
  lowercase needle1 = lowercase needle2 ->
  (forall str1 str2,
      lowercase str1 = lowercase str2 ->
      strContains str1 needle1 = strContains str2 needle2) /\
  (forall st,
      rows (viewIncidentsByArea needle1 st) = rows (viewIncidentsByArea needle2 st) /\
      rows (viewIncidentsByType needle1 st) = rows (viewIncidentsByType needle2 st)).
Proof.
  intros Hn.
  assert (Hc : forall str1 str2, lowercase str1 = lowercase str2 ->
                                 strContains str1 needle1 = strContains str2 needle2).
  { intros str1 str2 Hs. unfold strContains.
    by rewrite !lower_copy_lowercase, Hn, Hs. }
  split; [done|]. intros st.
  rewrite !rows_viewIncidentsByArea, !rows_viewIncidentsByType.
  split; apply filter_ext; intros inc; by apply Hc.
Qed.

Lemma filters_ignore_case_witness :
  rows (viewIncidentsByArea (lit "MAIN st") two_reports)
  = rows (viewIncidentsByArea (lit "main St") two_reports).
Proof.
  destruct (filters_ignore_case (lit "MAIN st") (lit "main St")) as [_ H].
  - vm_compute. reflexivity.
  - apply (H two_reports).
Defined.

Lemma print_matches_found matches (l : list Incident) :
  forall found,
    print_matches matches l found
    = (map Row (List.filter matches l),
       match List.filter matches l with [] => found | _ :: _ => true end).
Proof.
  induction l as [|inc l IH]; intros found; cbn [print_matches List.filter]; [done|].
  destruct (matches inc).
  - rewrite IH. cbn [map]. by destruct (List.filter matches l).
  - apply IH.
Qed.

(** X10.  The whole output of a filtered view.  With no record in use the
    view prints the one line that none was reported.  Otherwise it prints the heading, a row for each record whose field
    contains the needle, in the order of the collection, and the line that
    none was found exactly when there is no such row. *)
Theorem filtered_view_output (needle : cstring) (st : State) :
  viewIncidentsByArea needle st
  = (if incidentCount st =? 0 then [NoneReported]
     else match List.filter (fun inc => strContains (area inc) needle) (collection st) with
          | [] => [Heading needle; NoneInArea]
          | found => Heading needle :: map Row found
          end) /\
  viewIncidentsByType needle st
  = (if incidentCount st =? 0 then [NoneReported]
     else match List.filter (fun inc => strContains (type inc) needle) (collection st) with
          | [] => [Heading needle; NoneOfType]
          | found => Heading needle :: map Row found
          end).
Proof.
  unfold viewIncidentsByArea, viewIncidentsByType.
  destruct (incidentCount st =? 0); [done|].
  rewrite !print_matches_found.
  split.
  - destruct (List.filter _ (collection st)); [done|]. by rewrite app_nil_r.
  - destruct (List.filter (fun inc => strContains (type inc) needle) (collection st));
      [done|]. by rewrite app_nil_r.
Qed.

(** X11.  A report shows in the listings.  After a report below the
    capacity the table of all incidents lists the rows it listed before and
    then the new record; each filtered view lists the rows it listed before
    and then the new record if its field contains the needle.  A report
    refused at the capacity changes no listing. *)
Theorem listings_after_report a t tm (st : State) :
  length (incidents st) = MAX_INCIDENTS ->
  let new := mkIncident a t tm (getNextIncidentId st) in
  let st' := (addIncident a t tm st).1 in
  (incidentCount st < MAX_INCIDENTS ->
   rows (viewAllIncidents st') = rows (viewAllIncidents st) ++ [new] /\
   (forall needle,
       rows (viewIncidentsByArea needle st')
       = rows (viewIncidentsByArea needle st) ++ (if strContains a needle then [new] else []) /\
       rows (viewIncidentsByType needle st')
       = rows (viewIncidentsByType needle st) ++ (if strContains t needle then [new] else []))) /\
  (MAX_INCIDENTS <= incidentCount st ->
   viewAllIncidents st' = viewAllIncidents st /\
   forall needle,
     viewIncidentsByArea needle st' = viewIncidentsByArea needle st /\
     viewIncidentsByType needle st' = viewIncidentsByType needle st).
Proof.
  intros Hlen new st'. subst new st'. split.
  - intros Hc.
    rewrite !rows_viewAllIncidents.
    pose proof (collection_after_report a t tm st Hc Hlen) as Hcoll.
    split; [done|]. intros needle.
    rewrite !rows_viewIncidentsByArea, !rows_viewIncidentsByType, Hcoll.
    rewrite !List.filter_app. cbn [List.filter area type]. 
    split.
    + by destruct (strContains a needle).
    + by destruct (strContains t needle).
  - intros Hfull. by rewrite addIncident_full.
Qed.

Lemma listings_after_report_witness :
  rows (viewAllIncidents
          (addIncident (lit "Oak Ave") (lit "streetlight") (lit "21:40")
                       (mkState (<[0 := pothole]> zero_array) 1 no_file)).1)
  = [pothole; oak_ave] /\
  viewAllIncidents
    (addIncident (lit "Oak Ave") (lit "streetlight") (lit "21:40") full_session).1
  = viewAllIncidents full_session.
Proof.
  split.
  - destruct (listings_after_report (lit "Oak Ave") (lit "streetlight") (lit "21:40")
                (mkState (<[0 := pothole]> zero_array) 1 no_file)) as [H _].
    + reflexivity.
    + destruct H as [H _]; [vm_compute; lia|]. exact H.
  - destruct (listings_after_report (lit "Oak Ave") (lit "streetlight") (lit "21:40")
                full_session) as [_ H].
    + reflexivity.
    + destruct H as [H _]; [vm_compute; lia|]. exact H.
Defined.

(* ===================================================================== *)
(** ** More on loading                                                    *)
(* ===================================================================== *)

Lemma read_loop_frame fuel stream (arr : list Incident) c n arr' :
  read_loop fuel stream arr c = Some (n, arr') ->
  c <= n /\ forall i, n < i -> arr' !! i = arr !! i.
Proof.
  intros H.
  apply (read_loop_invariant
           (fun n arr' => c <= n /\ forall i, n < i -> arr' !! i = arr !! i))
    with (fuel := fuel) (stream := stream) (arr := arr) (c := c); [|done|done].
  intros c0 arr0 line inc inc' Hc [Hle Hframe] r _ _. split.
  - destruct (r.1 =? 4)%Z; lia.
  - intros i Hi. rewrite list_lookup_insert_ne; [apply Hframe|];
      destruct (r.1 =? 4)%Z; lia.
Qed.

(** X12.  What loading touches.  When [readIncidentsFromFile] returns, no
    string having been stored past the end of its array, the count is at
    most [MAX_INCIDENTS], the size of the array is kept, and every slot
    above the returned count is as it was.  The slot at the count itself
    may be written without being counted: the fields a line converts before
    its scan fails stay there, as after the line "2|Oak Ave|streetlight". *)
Theorem load_frame :
  (forall d (arr : list Incident) n arr',
      readIncidentsFromFile d arr = Some (n, arr') ->
      n <= MAX_INCIDENTS /\ length arr' = length arr /\
      forall i, n < i -> arr' !! i = arr !! i) /\
  (exists arr',
      readIncidentsFromFile (file_with (lit "2|Oak Ave|streetlight" ++ [NL])) zero_array
      = Some (0, arr') /\
      arr' !! 0 = Some (mkIncident (lit "Oak Ave") (lit "streetlight") [] 2)).
Proof.
  split.
  - intros d arr n arr'. rewrite readIncidentsFromFile_load.
    destruct (contents d) as [file|].
    + intros H. destruct (read_loop_shape _ _ _ _ _ _ H) as [Hlen Hn].
      destruct (read_loop_frame _ _ _ _ _ _ H) as [_ Hframe].
      split; [apply Hn; lia|]. by split.
    + intros [= <- <-]. split; [lia|]. by split.
  - eexists. split; vm_compute; reflexivity.
Qed.

Lemma load_frame_witness :
  1 <= MAX_INCIDENTS /\
  length (<[0 := pothole]> zero_array) = length zero_array /\
  forall i, 1 < i -> <[0 := pothole]> zero_array !! i = zero_array !! i.
Proof.
  destruct load_frame as [H _].
  apply (H (file_with (format_line pothole)) zero_array 1 (<[0 := pothole]> zero_array)).
  vm_compute. reflexivity.
Defined.

(** X13.  Loading does not depend on what the array held.  Called on two
    arrays of the same size, [readIncidentsFromFile] returns the same count
    and the same records in use: nothing of the old contents of a slot is
    left in a record that is counted. *)
Theorem load_forgets_array d (a b : list Incident) n a' :
  length a = length b ->
  readIncidentsFromFile d a = Some (n, a') ->
  exists b', readIncidentsFromFile d b = Some (n, b') /\ take n a' = take n b'.
Proof.
  intros Hlen. rewrite !readIncidentsFromFile_load.
  destruct (contents d) as [file|].
  - unfold load. intros H. by eapply read_loop_agree in H.
  - intros [= <- <-]. by exists b.
Qed.

Lemma load_forgets_array_witness :
  exists b',
    readIncidentsFromFile (file_with (format_line pothole))
                          (replicate MAX_INCIDENTS oak_ave)
    = Some (1, b') /\
    take 1 (<[0 := pothole]> zero_array) = take 1 b'.
Proof.
  apply (load_forgets_array (file_with (format_line pothole)) zero_array
           (replicate MAX_INCIDENTS oak_ave) 1 (<[0 := pothole]> zero_array)).
  - reflexivity.
  - vm_compute. reflexivity.
Defined.

Lemma scannable_line x :
  scannable x -> parses (line_body x) = true /\ record_of_line (line_body x) = Some x.
Proof.
  intros Hx. destruct (sscanf_scannable x Hx) as [Hscan Hstore].
  unfold parses, record_of_line. by rewrite Hscan, Hstore.
Qed.

(** X14.  One line, one record.  The line [writeIncidentToFile] writes for
    a record is a whole line that scans into four fields and gives the
    record back, when the id is an [int], area and type are not empty and
    free of [|], the time is not empty, and every field is within its array
    (49, 49 and 19 characters) and holds no newline or NUL; so two such
    records with the same line are the same record. *)
Theorem line_of_record (x : Incident) :
  scannable x ->
  format_line x = line_body x ++ [NL] /\ whole_line (line_body x) /\
  parses (line_body x) = true /\ record_of_line (line_body x) = Some x /\
  forall y, scannable y -> format_line y = format_line x -> y = x.
Proof.
  intros Hx. destruct (scannable_line x Hx) as [Hp Hr].
  split; [apply format_line_body|]. split; [by apply scannable_whole|].
  split; [done|]. split; [done|].
  intros y Hy Heq. destruct (scannable_line y Hy) as [_ Hry].
  rewrite !format_line_body in Heq. apply app_inj_tail in Heq as [Heq _].
  rewrite Heq, Hr in Hry. congruence.
Qed.

Lemma line_of_record_witness :
  format_line pothole = line_body pothole ++ [NL] /\ whole_line (line_body pothole) /\
  parses (line_body pothole) = true /\ record_of_line (line_body pothole) = Some pothole /\
  forall y, scannable y -> format_line y = format_line pothole -> y = pothole.
Proof.
  apply (line_of_record pothole).
  apply storable_scannable; apply pothole_storable.
Defined.

(** X21.  A field too long for its array.  The loop gives [sscanf] no field
    width and checks no length.  When the scan of a whole line converts a
    string that has no room in its array, for a line of four fields an area
    or a type of 50 characters or more or a time of 20 or more, the store
    runs past the end of the array in the turn that reads the line: C
    defines nothing from there, and the loop has no result whatever the
    fuel.  Nothing else keeps [readIncidentsFromFile] from returning: when
    it has no result, a piece of the file that [fgets] reads has such a
    string.  The program can write such a line itself: the prompts accept the
    type "pothole|and a crack in the asphalt", the line appended for it
    gives the time the 32 characters behind the third [|], and the program
    started again on the file it wrote overruns [time]. *)
Theorem long_field_overruns :
  (forall l tail arr c fuel,
      whole_line l -> c < MAX_INCIDENTS -> line_fits l = false ->
      read_loop fuel (l ++ NL :: tail) arr c = None) /\
  (forall file arr,
      length arr = MAX_INCIDENTS ->
      readIncidentsFromFile (file_with file) arr = None ->
      Exists (fun buf => piece_fits buf = false) (pieces (S (length file)) file)) /\
  (forall l x,
      whole_line l -> line_of (c_str l) x -> (line_fits l = false <-> ~ in_arrays x)) /\
  (exists st out,
      addIncident_io 1 crack_answers (empty_session no_file) = Some (st, out, []) /\
      contents (disk st) = Some crack_line /\
      (forall fuel, read_loop fuel crack_line zero_array 0 = None) /\
      startup (disk st) = None).
Proof.
  split; [|split; [|split]].
  - intros l tail arr c fuel. apply read_loop_overrun.
  - intros file arr Hlen Hnone.
    destruct (Forall_Exists_dec (fun buf => piece_fits buf = true)
                (fun buf => piece_fits buf = false)
                (fun buf => sumbool_of_bool (piece_fits buf))
                (pieces (S (length file)) file)) as [Hall|Hex]; [|done].
    destruct (read_loop_fits (S (length file)) file arr 0) as (n & arr' & Hrun);
      [lia|done|lia|done|].
    rewrite readIncidentsFromFile_load in Hnone. cbn [contents file_with] in Hnone.
    unfold load in Hnone. congruence.
  - intros l x [Hnl _] Hx.
    destruct (line_of_loaded l x Hnl Hx) as (_ & Hfit & _).
    destruct (line_fits l); split; try done.
    + intros Hno. exfalso. apply Hno. by apply Hfit.
    + intros _ Harr. apply Hfit in Harr. done.
  - eexists _, _. split; [vm_compute; reflexivity|]. split; [vm_compute; reflexivity|].
    split; [|vm_compute; reflexivity].
    intros [|fuel]; [reflexivity|]. vm_compute. reflexivity.
Qed.

Lemma long_field_overruns_witness :
  load (lit "3|Main St|pothole|around noon or later" ++ NL :: format_line pothole)
       zero_array 0
  = None.
Proof.
  destruct long_field_overruns as [H _].
  apply (H (lit "3|Main St|pothole|around noon or later") (format_line pothole) zero_array 0).
  - split; [compute_done|vm_compute; lia].
  - vm_compute. lia.
  - reflexivity.
Defined.

(* ===================================================================== *)
(** ** Sessions: the file follows the memory, the ids stay apart          *)
(* ===================================================================== *)

Lemma answers_scannable a t tm i :
  answers_ok (a, t, tm) -> in_int i -> scannable (mkIncident a t tm i).
Proof.
  intros (([Na Ca] & Ha & La & Ba) & ([Nt Ct] & Ht & Lt & Bt) & ([Ntm Ctm] & Htm & Ltm)) Hi.
  unfold scannable, in_arrays, on_one_line. cbn [area type time id].
  change (MAX_AREA_LENGTH - 1) with 49 in La. change MAX_AREA_LENGTH with 50.
  change (MAX_TYPE_LENGTH - 1) with 49 in Lt. change MAX_TYPE_LENGTH with 50.
  change (MAX_TIME_LENGTH - 1) with 19 in Ltm. change MAX_TIME_LENGTH with 20.
  repeat split; try done; try apply Hi; lia.
Qed.

Lemma terminated_after_line (old : list ascii) x : terminated (old ++ format_line x).
Proof.
  right. rewrite format_line_body, app_assoc. apply last_snoc.
Qed.

Lemma startup_mirrored d st :
  append_ok d = true -> store_terminated d -> startup d = Some st -> mirrored st.
Proof.
  intros Hopen Hterm. unfold startup.
  destruct (readIncidentsFromFile d zero_array) as [[n arr]|] eqn:E; [|done].
  intros [= <-]. unfold mirrored. cbn [disk incidents incidentCount].
  split; [done|]. split; [done|]. split.
  - rewrite readIncidentsFromFile_load in E. destruct (contents d).
    + by apply read_loop_shape in E as [-> _].
    + by injection E as <- <-.
  - by exists arr.
Qed.

Lemma addIncident_mirrored a t tm st :
  mirrored st -> answers_ok (a, t, tm) -> mirrored (addIncident a t tm st).1.
Proof.
  intros (Hopen & Hterm & Hlen & arr & Hread & Htake) Hans.
  destruct (le_lt_dec MAX_INCIDENTS (incidentCount st)) as [Hfull|Hroom].
  { rewrite addIncident_full by done. by repeat split; try exists arr. }
  pose proof (collection_after_report a t tm st Hroom Hlen) as Hcoll.
  pose proof (answers_scannable a t tm (getNextIncidentId st) Hans (wrap_int_in_int _)) as Hx.
  assert (Hlen' : length arr = MAX_INCIDENTS).
  { rewrite readIncidentsFromFile_load in Hread. destruct (contents (disk st)).
    - by apply read_loop_shape in Hread as [-> _].
    - by injection Hread as _ <-. }
  revert Hcoll. rewrite addIncident_room by done. cbv zeta. cbn [fst].
  unfold collection at 1. cbn [incidents incidentCount]. intros Hcoll.
  unfold mirrored, writeIncidentToFile. rewrite Hopen.
  cbn [fst disk incidents incidentCount append_ok].
  split; [done|]. split; [apply terminated_after_line|].
  split; [by rewrite length_insert|].
  rewrite readIncidentsFromFile_load in *. cbn [contents].
  unfold store_terminated in Hterm.
  destruct (load_scannable_line _ arr (incidentCount st) Hx Hroom) as (arr2 & Hrun & Htake2);
    [lia|].
  exists arr2.
  split; [|unfold collection at 1; cbn [incidents incidentCount];
           by rewrite Htake2, Htake, Hcoll].
  destruct (contents (disk st)) as [old|]; cbn [default].
  - by rewrite (load_app old _ zero_array (incidentCount st) arr).
  - injection Hread as Hc <-. cbn [app]. by rewrite Hc.
Qed.

Lemma addIncidents_mirrored inputs :
  forall st, mirrored st -> Forall answers_ok inputs -> mirrored (addIncidents inputs st).1.
Proof.
  induction inputs as [|[[a t] tm] inputs IH]; intros st Hst Hin; [done|].
  apply Forall_cons in Hin as [Hans Hin]. cbn [addIncidents].
  pose proof (addIncident_mirrored a t tm st Hst Hans) as H1.
  destruct (addIncident a t tm st) as [st1 out1]. cbn [fst] in H1.
  specialize (IH st1 H1 Hin).
  by destruct (addIncidents inputs st1) as [st2 out2].
Qed.

(** X15.  The file follows the memory.  When the program starts on a store
    that can be appended to and is absent, empty or ended by a newline, and
    every report of the session is given answers typed on one line, within
    the arrays, with no [|] in area and type, then after the session
    (reports refused at the capacity included) starting again on the file
    loads the very records that were in use, in the same number. *)
Theorem restart_restores_session d st inputs :
  append_ok d = true -> store_terminated d -> startup d = Some st ->
  Forall answers_ok inputs ->
  exists st',
    startup (disk (addIncidents inputs st).1) = Some st' /\
    incidentCount st' = incidentCount (addIncidents inputs st).1 /\
    collection st' = collection (addIncidents inputs st).1.
Proof.
  intros Hopen Hterm Hstart Hin.
  pose proof (startup_mirrored d st Hopen Hterm Hstart) as Hst.
  destruct (addIncidents_mirrored inputs st Hst Hin) as (_ & _ & _ & arr & Hread & Htake).
  unfold startup. rewrite Hread. eexists. split; [done|]. split; [done|].
  unfold collection at 1. by cbn [incidents incidentCount].
Qed.

Lemma restart_restores_session_witness :
  exists st',
    startup (disk (addIncidents [(lit "Main St", lit "pothole", lit "08:15");
                                 (lit "Oak Ave", lit "streetlight", lit "9:5")]
                                (empty_session no_file)).1) = Some st' /\
    incidentCount st'
    = incidentCount (addIncidents [(lit "Main St", lit "pothole", lit "08:15");
                                   (lit "Oak Ave", lit "streetlight", lit "9:5")]
                                  (empty_session no_file)).1 /\
    collection st'
    = collection (addIncidents [(lit "Main St", lit "pothole", lit "08:15");
                                (lit "Oak Ave", lit "streetlight", lit "9:5")]
                               (empty_session no_file)).1.
Proof.
  apply (restart_restores_session no_file (empty_session no_file)).
  - reflexivity.
  - exact I.
  - reflexivity.
  - repeat (apply Forall_cons_2;
            [unfold answers_ok, typed, one_line, is_cstring;
             repeat split; try compute_done; try discriminate; vm_compute; lia|]).
    apply Forall_nil_2.
Defined.

Lemma ids_after_report a t tm st bound :
  incidentCount st < MAX_INCIDENTS -> length (incidents st) = MAX_INCIDENTS ->
  (0 <= bound < INT_MAX)%Z ->
  NoDup (id <$> collection st) ->
  (forall inc, inc ∈ collection st -> (id inc <= bound)%Z) ->
  NoDup (id <$> collection (addIncident a t tm st).1) /\
  (forall inc, inc ∈ collection (addIncident a t tm st).1 -> (id inc <= bound + 1)%Z) /\
  (1 <= getNextIncidentId st)%Z.
Proof.
  intros Hc Hlen Hb Hnd Hle.
  rewrite collection_after_report by done.
  destruct (getNextIncidentId_cases st) as (M & HM & HM0 & Hall & Hin).
  { intros inc Hinc. specialize (Hle inc Hinc). lia. }
  assert (HMb : (M <= bound)%Z).
  { destruct Hin as [->|(inc & Hinc & <-)]; [lia|by apply Hle]. }
  rewrite HM. split; [|split; [|lia]].
  - rewrite fmap_app. apply NoDup_app. split; [done|]. split.
    + intros i Hi [->|H]%elem_of_cons; [|by apply elem_of_nil in H].
      apply list_elem_of_fmap in Hi as (inc & Heq & Hinc).
      specialize (Hall inc Hinc). cbn [id] in Heq. lia.
    + apply NoDup_singleton.
  - intros inc [Hinc| ->%list_elem_of_singleton]%elem_of_app.
    + specialize (Hle inc Hinc). lia.
    + cbn [id]. lia.
Qed.

(** X16.  The ids stay apart.  If the ids in use are distinct and at most
    [bound], with [bound] not negative, then after a session of [k] reports
    that fit the array, [bound + k] being below [INT_MAX], the ids in use
    are still distinct and at most [bound + k], and every id the session
    announced is at least 1. *)
Theorem session_keeps_ids_distinct inputs :
  forall st bound,
  length (incidents st) = MAX_INCIDENTS ->
  incidentCount st + length inputs <= MAX_INCIDENTS ->
  (0 <= bound)%Z -> (bound + Z.of_nat (length inputs) < INT_MAX)%Z ->
  NoDup (id <$> collection st) ->
  (forall inc, inc ∈ collection st -> (id inc <= bound)%Z) ->
  NoDup (id <$> collection (addIncidents inputs st).1) /\
  (forall inc, inc ∈ collection (addIncidents inputs st).1 ->
               (id inc <= bound + Z.of_nat (length inputs))%Z) /\
  Forall (fun i => (1 <= i)%Z) (reported_ids (addIncidents inputs st).2).
Proof.
  induction inputs as [|[[a t] tm] inputs IH]; intros st bound Hlen Hroom Hb Hbk Hnd Hle.
  - cbn [addIncidents fst snd length reported_ids]. split; [done|]. split; [|constructor].
    intros inc Hinc. specialize (Hle inc Hinc). cbn. lia.
  - cbn [length] in Hroom, Hbk. cbn [addIncidents length].
    destruct (ids_after_report a t tm st bound) as (Hnd1 & Hle1 & Hpos); try done; try lia.
    destruct (shape_after_report a t tm st) as (Hc1 & Hl1 & Hr1); [lia|].
    destruct (addIncident a t tm st) as [st1 out1]. cbn [fst snd] in *.
    destruct (IH st1 (bound + 1)%Z) as (Hnd2 & Hle2 & Hall2); try done; try lia.
    destruct (addIncidents inputs st1) as [st2 out2]. cbn [fst snd] in *.
    split; [done|]. split.
    + intros inc Hinc. specialize (Hle2 inc Hinc). lia.
    + rewrite reported_ids_app, Hr1. apply Forall_app. split; [|done].
      by constructor.
Qed.

Lemma session_keeps_ids_distinct_witness :
  NoDup (id <$> collection
           (addIncidents [(lit "Elm St", lit "pothole", lit "09:00")] two_reports).1) /\
  (forall inc,
      inc ∈ collection (addIncidents [(lit "Elm St", lit "pothole", lit "09:00")] two_reports).1 ->
      (id inc <= 2 + Z.of_nat 1)%Z) /\
  Forall (fun i => (1 <= i)%Z)
         (reported_ids (addIncidents [(lit "Elm St", lit "pothole", lit "09:00")] two_reports).2).
Proof.
  apply (session_keeps_ids_distinct [(lit "Elm St", lit "pothole", lit "09:00")] two_reports 2).
  - reflexivity.
  - vm_compute. lia.
  - lia.
  - vm_compute. reflexivity.
  - vm_compute. repeat constructor; intros H;
      repeat (apply elem_of_cons in H as [H|H]; [discriminate H|]); by apply elem_of_nil in H.
  - intros inc H. vm_compute in H.
    apply elem_of_cons in H as [->|H]; [vm_compute; discriminate|].
    apply elem_of_cons in H as [->|H]; [vm_compute; discriminate|].
    by apply elem_of_nil in H.
Defined.

(* ===================================================================== *)
(** ** The report with its prompts                                        *)
(* ===================================================================== *)

Lemma validateStringInput_answer fuel maxLength (body rest : cstring) :
  typed body -> body <> [] -> length body + 2 <= maxLength ->
  validateStringInput (S fuel) maxLength (body ++ NL :: rest) = Some (body, rest).
Proof.
  intros Hbody Hne Hlen. cbn [validateStringInput].
  rewrite string_turn_answer by done.
  destruct (length body =? 0) eqn:E; [|done].
  apply Nat.eqb_eq in E. by destruct body.
Qed.

(** X17.  The report and the standard input.  At the capacity
    [addIncident] prints its refusal and reads nothing: the input is left
    as it was.  Below the capacity, given three lines that the prompts
    accept (area and type of 1 to 48 characters, a time of at most 18
    characters that passes [isValidTimeFormat]), it reads exactly these
    three lines and stores the record made of them. *)
Theorem report_reads_three_answers :
  (forall fuel stdin st,
      MAX_INCIDENTS <= incidentCount st ->
      addIncident_io fuel stdin st = Some (st, [MaxReached], stdin)) /\
  (forall fuel (a t tm rest : cstring) st,
      incidentCount st < MAX_INCIDENTS ->
      typed a -> a <> [] -> length a + 2 <= MAX_AREA_LENGTH ->
      typed t -> t <> [] -> length t + 2 <= MAX_TYPE_LENGTH ->
      typed tm -> length tm + 2 <= MAX_TIME_LENGTH -> isValidTimeFormat tm = true ->
      addIncident_io (S fuel) (a ++ NL :: t ++ NL :: tm ++ NL :: rest) st
      = Some ((addIncident a t tm st).1, (addIncident a t tm st).2, rest)).
Proof.
  split.
  - intros fuel stdin st H. unfold addIncident_io.
    destruct (incidentCount st <? MAX_INCIDENTS) eqn:E; [apply Nat.ltb_lt in E; lia|done].
  - intros fuel a t tm rest st Hc Ta Ha La Tt Ht Lt Ttm Ltm Hok.
    unfold addIncident_io. apply Nat.ltb_lt in Hc. rewrite Hc. cbn [negb].
    rewrite validateStringInput_answer by done.
    rewrite validateStringInput_answer by done.
    cbn [validateTimeInput]. rewrite time_turn_answer by done. rewrite Hok.
    destruct (length tm =? 0) eqn:E.
    { apply Nat.eqb_eq in E. destruct tm; [done|done]. }
    by destruct (addIncident a t tm st).
Qed.

Lemma report_reads_three_answers_witness :
  addIncident_io 1 (lit "Main St" ++ NL :: lit "pothole" ++ NL :: lit "08:15" ++ NL :: lit "2")
                 (empty_session no_file)
  = Some ((addIncident (lit "Main St") (lit "pothole") (lit "08:15") (empty_session no_file)).1,
          (addIncident (lit "Main St") (lit "pothole") (lit "08:15") (empty_session no_file)).2,
          lit "2") /\
  addIncident_io 0 (lit "Main St") full_session = Some (full_session, [MaxReached], lit "Main St").
Proof.
  destruct report_reads_three_answers as [Hfull Hroom].
  split.
  - apply (Hroom 0 (lit "Main St") (lit "pothole") (lit "08:15") (lit "2")
             (empty_session no_file));
      try (split; compute_done); try discriminate; try reflexivity; vm_compute; lia.
  - apply (Hfull 0 (lit "Main St") full_session). vm_compute. lia.
Defined.

(** X18.  Every record a report creates.  Below the capacity, whatever the
    input, when [addIncident] returns it has put one record behind the
    records in use, with the id [getNextIncidentId] gave; its area and type
    have 1 to 48 characters, its time has 1 to 19 characters and passes
    [isValidTimeFormat]; no field holds a newline or a NUL; and the input
    left is the end of the input given. *)
Theorem report_creates_valid_record fuel stdin (st st' : State) out rest :
  incidentCount st < MAX_INCIDENTS -> length (incidents st) = MAX_INCIDENTS ->
  addIncident_io fuel stdin st = Some (st', out, rest) ->
  exists new consumed,
    collection st' = collection st ++ [new] /\
    incidentCount st' = S (incidentCount st) /\
    id new = getNextIncidentId st /\
    (area new <> [] /\ length (area new) + 2 <= MAX_AREA_LENGTH /\ typed (area new)) /\
    (type new <> [] /\ length (type new) + 2 <= MAX_TYPE_LENGTH /\ typed (type new)) /\
    (time new <> [] /\ length (time new) + 1 <= MAX_TIME_LENGTH /\ typed (time new) /\
     isValidTimeFormat (time new) = true) /\
    stdin = consumed ++ rest.
Proof.
  intros Hc Hlen. unfold addIncident_io.
  pose proof Hc as Hc'. apply Nat.ltb_lt in Hc'. rewrite Hc'. cbn [negb].
  destruct (validateStringInput fuel MAX_AREA_LENGTH stdin) as [[a in1]|] eqn:Ea; [|done].
  destruct (validateStringInput fuel MAX_TYPE_LENGTH in1) as [[t in2]|] eqn:Et; [|done].
  destruct (validateTimeInput fuel MAX_TIME_LENGTH in2) as [[tm in3]|] eqn:Etm; [|done].
  destruct (validateStringInput_plain _ _ _ _ _ Ea) as (Ha & La & Na & Ca).
  destruct (validateStringInput_plain _ _ _ _ _ Et) as (Ht & Lt & Nt & Ct).
  destruct (validateTimeInput_plain _ _ _ _ _ Etm) as (Hok & Htm & Ltm & Ntm & Ctm).
  destruct (validateStringInput_consumes _ _ _ _ _ Ea) as (c1 & -> & _).
  destruct (validateStringInput_consumes _ _ _ _ _ Et) as (c2 & -> & _).
  destruct (validateTimeInput_consumes _ _ _ _ _ Etm) as (c3 & -> & _).
  pose proof (collection_after_report a t tm st Hc Hlen) as Hcoll.
  destruct (shape_after_report a t tm st Hc) as (Hcount & _).
  destruct (addIncident a t tm st) as [st1 out1]. cbn [fst] in *.
  intros [= <- <- <-].
  exists (mkIncident a t tm (getNextIncidentId st)), (c1 ++ c2 ++ c3).
  cbn [area type time id].
  assert (0 < length tm) by (destruct tm; [done|cbn; lia]).
  change MAX_TIME_LENGTH with 20 in *.
  repeat split; try done; try lia. by rewrite <- !app_assoc.
Qed.

Lemma report_creates_valid_record_witness :
  exists new consumed,
    collection (addIncident (lit "Main St") (lit "pothole") (lit "9:5") (empty_session no_file)).1
    = collection (empty_session no_file) ++ [new] /\
    incidentCount (addIncident (lit "Main St") (lit "pothole") (lit "9:5")
                               (empty_session no_file)).1
    = S (incidentCount (empty_session no_file)) /\
    id new = getNextIncidentId (empty_session no_file) /\
    (area new <> [] /\ length (area new) + 2 <= MAX_AREA_LENGTH /\ typed (area new)) /\
    (type new <> [] /\ length (type new) + 2 <= MAX_TYPE_LENGTH /\ typed (type new)) /\
    (time new <> [] /\ length (time new) + 1 <= MAX_TIME_LENGTH /\ typed (time new) /\
     isValidTimeFormat (time new) = true) /\
    NL :: lit "Main St" ++ NL :: lit "pothole" ++ NL :: lit "25:61" ++ NL :: lit "9:5" ++ [NL]
    = consumed ++ [].
Proof.
  apply (report_creates_valid_record 2
           (NL :: lit "Main St" ++ NL :: lit "pothole" ++ NL :: lit "25:61" ++ NL :: lit "9:5" ++ [NL])
           (empty_session no_file) _
           (addIncident (lit "Main St") (lit "pothole") (lit "9:5") (empty_session no_file)).2 []).
  - vm_compute. lia.
  - reflexivity.
  - vm_compute. reflexivity.
Defined.

(* ===================================================================== *)
(** ** The filtered views with their prompt; the file over a session      *)
(* ===================================================================== *)

(** X19.  The needle of a filtered view.  With no record in use the view
    prints that none was reported and reads nothing: the input is left as
    it was.  Otherwise the needle it filters with is the string
    [validateStringInput] returns on the input of the view, a piece of that
    input, and the input the view leaves is the input the prompt leaves; the
    needle is not empty and has at most 48 characters, so that, for records
    whose field has at most 99 characters, a record is listed exactly when
    it is in use and the case-folded needle occurs in its case-folded
    field.  Conversely, when the prompt returns, the view returns with the
    table for its answer.  The same holds of both views. *)
Theorem view_reads_its_needle fuel stdin (st : State) :
  (forall r, r ∈ collection st ->
             length (area r) <= MAX_STRING_LENGTH - 1 /\
             length (type r) <= MAX_STRING_LENGTH - 1) ->
  (incidentCount st = 0 ->
   viewIncidentsByArea_io fuel stdin st = Some ([NoneReported], stdin) /\
   viewIncidentsByType_io fuel stdin st = Some ([NoneReported], stdin)) /\
  (incidentCount st <> 0 ->
   (forall out rest,
       viewIncidentsByArea_io fuel stdin st = Some (out, rest) <->
       exists needle,
         validateStringInput fuel MAX_AREA_LENGTH stdin = Some (needle, rest) /\
         out = viewIncidentsByArea needle st) /\
   (forall out rest,
       viewIncidentsByType_io fuel stdin st = Some (out, rest) <->
       exists needle,
         validateStringInput fuel MAX_TYPE_LENGTH stdin = Some (needle, rest) /\
         out = viewIncidentsByType needle st) /\
   (forall size needle rest,
       size = MAX_AREA_LENGTH \/ size = MAX_TYPE_LENGTH ->
       validateStringInput fuel size stdin = Some (needle, rest) ->
       needle <> [] /\ length needle <= 48 /\
       (exists before after, stdin = before ++ needle ++ after ++ rest) /\
       (forall r, r ∈ rows (viewIncidentsByArea needle st) <->
                  r ∈ collection st /\
                  substring (lowercase needle) (lowercase (area r))) /\
       (forall r, r ∈ rows (viewIncidentsByType needle st) <->
                  r ∈ collection st /\
                  substring (lowercase needle) (lowercase (type r))))).
Proof.
  intros Hfields. split.
  - intros H0. unfold viewIncidentsByArea_io, viewIncidentsByType_io.
    apply Nat.eqb_eq in H0. by rewrite H0.
  - intros Hn. apply Nat.eqb_neq in Hn. split; [|split].
    + intros out rest. unfold viewIncidentsByArea_io. rewrite Hn.
      destruct (validateStringInput fuel MAX_AREA_LENGTH stdin) as [[needle r0]|].
      * split; [intros [= <- <-]; by exists needle|].
        by intros (needle' & [= <- <-] & ->).
      * split; [done|]. by intros (needle' & ? & _).
    + intros out rest. unfold viewIncidentsByType_io. rewrite Hn.
      destruct (validateStringInput fuel MAX_TYPE_LENGTH stdin) as [[needle r0]|].
      * split; [intros [= <- <-]; by exists needle|].
        by intros (needle' & [= <- <-] & ->).
      * split; [done|]. by intros (needle' & ? & _).
    + intros size needle rest Hsize Hv.
      destruct (validateStringInput_plain _ _ _ _ _ Hv) as (Hne & Hlen & _).
      destruct (validateStringInput_segment _ _ _ _ _ Hv) as (before & after & Hseg & _).
      assert (Hlen' : length needle <= 48).
      { destruct Hsize as [-> | ->].
        - change MAX_AREA_LENGTH with 50 in Hlen. lia.
        - change MAX_TYPE_LENGTH with 50 in Hlen. lia. }
      split; [done|]. split; [done|]. split; [by exists before, after|].
      rewrite rows_viewIncidentsByArea, rows_viewIncidentsByType.
      split; apply filter_law;
        try (change (MAX_STRING_LENGTH - 1) with 99; lia);
        intros r Hr; by apply Hfields.
Qed.

Lemma view_reads_its_needle_witness :
  viewIncidentsByArea_io 2 (NL :: lit "main" ++ NL :: lit "2") two_reports
  = Some (viewIncidentsByArea (lit "main") two_reports, lit "2") /\
  (forall r, r ∈ rows (viewIncidentsByArea (lit "main") two_reports) <->
             r ∈ collection two_reports /\
             substring (lowercase (lit "main")) (lowercase (area r))).
Proof.
  destruct (view_reads_its_needle 2 (NL :: lit "main" ++ NL :: lit "2") two_reports)
    as [_ H].
  - intros r Hr. vm_compute in Hr.
    apply elem_of_cons in Hr as [->|Hr]; [vm_compute; lia|].
    apply elem_of_cons in Hr as [->|Hr]; [vm_compute; lia|].
    by apply elem_of_nil in Hr.
  - destruct H as (Harea & _ & Hlaw); [vm_compute; lia|]. split.
    + apply Harea. exists (lit "main"). split; [vm_compute; reflexivity|reflexivity].
    + destruct (Hlaw MAX_AREA_LENGTH (lit "main") (lit "2")) as (_ & _ & _ & Hrows & _).
      * by left.
      * vm_compute. reflexivity.
      * exact Hrows.
Defined.

Lemma addIncident_disk a t tm st :
  append_ok (disk (addIncident a t tm st).1) = append_ok (disk st) /\
  (append_ok (disk st) = false -> disk (addIncident a t tm st).1 = disk st) /\
  exists more,
    default [] (contents (disk (addIncident a t tm st).1))
    = default [] (contents (disk st)) ++ more.
Proof.
  destruct (le_lt_dec MAX_INCIDENTS (incidentCount st)) as [Hfull|Hroom].
  - rewrite addIncident_full by done. cbn [fst]. split; [done|]. split; [done|].
    exists []. by rewrite app_nil_r.
  - rewrite addIncident_room by done. cbv zeta. cbn [fst disk].
    unfold writeIncidentToFile. destruct (append_ok (disk st)) eqn:E; cbn [fst].
    + split; [done|]. split; [done|]. by eexists.
    + split; [done|]. split; [done|]. exists []. by rewrite app_nil_r.
Qed.

(** X20.  The file only grows.  Over any session of reports the text of
    the file at the start is the beginning of the text at the end: nothing
    written before is changed or removed; whether the file can be appended
    to does not change; and when it cannot, the disk is left exactly as it
    was, an absent file staying absent. *)
Theorem session_only_appends inputs :
  forall st,
  append_ok (disk (addIncidents inputs st).1) = append_ok (disk st) /\
  (append_ok (disk st) = false -> disk (addIncidents inputs st).1 = disk st) /\
  exists more,
    default [] (contents (disk (addIncidents inputs st).1))
    = default [] (contents (disk st)) ++ more.
Proof.
  induction inputs as [|[[a t] tm] inputs IH]; intros st; cbn [addIncidents].
  - cbn [fst]. split; [done|]. split; [done|]. exists []. by rewrite app_nil_r.
  - destruct (addIncident_disk a t tm st) as (Hok & Hsame & more1 & Hmore1).
    destruct (addIncident a t tm st) as [st1 out1]. cbn [fst] in *.
    destruct (IH st1) as (Hok' & Hsame' & more2 & Hmore2).
    destruct (addIncidents inputs st1) as [st2 out2]. cbn [fst] in *.
    split; [congruence|]. split.
    + intros Hno. rewrite Hsame'; [by apply Hsame|congruence].
    + exists (more1 ++ more2). by rewrite Hmore2, Hmore1, app_assoc.
Qed.

Lemma session_only_appends_witness :
  disk (addIncidents [(lit "Main St", lit "pothole", lit "08:15")]
                     (empty_session read_only_dir)).1
  = disk (empty_session read_only_dir).
Proof.
  destruct (session_only_appends [(lit "Main St", lit "pothole", lit "08:15")]
              (empty_session read_only_dir)) as (_ & H & _).
  apply H. reflexivity.
Defined.
